(** * hostd: revision validator, storage-proof segment selection and the
      sector metadata store

    A shallow embedding of the host's pure validation code
    ([rhp]: [validateStdRevision], [ValidateContractRenewal],
    [ValidateClearingRevision], [ValidateProgramRevision],
    [ValidatePaymentRevision]), of the segment selector
    ([contracts.storageProofSegment]) and of the volume/sector metadata
    store described by the schema in [init.sql]. *)

From stdpp Require Import base decidable option list numbers strings sorting.
From Stdlib Require Import ZArith Lia.
From Stdlib.Strings Require Import Byte.

Local Open Scope Z_scope.

(** ** The Go runtime fragment the code relies on *)

Module Go.

(** Run-time panics that the embedded code can raise. *)
Inductive panic : Set :=
  | index_out_of_range
  | slice_bounds_out_of_range
  | integer_divide_by_zero
  | integer_overflow
  | currency_overflow
  | currency_underflow.

(** A Go computation either returns a value or panics. *)
Inductive exec (A : Type) : Type :=
  | Return (a : A)
  | Panic (p : panic).
Arguments Return {A} a.
Arguments Panic {A} p.

#[global] Instance exec_ret : MRet exec := @Return.
#[global] Instance exec_bind : MBind exec := λ A B f m,
  match m with
  | Return a => f a
  | Panic p => Panic p
  end.

(** Values of Go's [error] interface, by the constructor that built them:
    [errors.New(text)] and [fmt.Errorf(format, args...)]. *)
Inductive error : Type :=
  | errors_New (text : string)
  | fmt_Errorf (format : string) (args : list Z).

Definition nil : option error := None.

(** [uint64] values are integers in [0, 2^64); addition wraps. *)
Definition MaxUint64 : Z := 2 ^ 64 - 1.
Definition is_uint64 (x : Z) : Prop := 0 ≤ x ≤ MaxUint64.
Definition uint64_add (a b : Z) : Z := (a + b) mod 2 ^ 64.

(** [s[i]] *)
Definition index {A} (s : list A) (i : nat) : exec A :=
  match s !! i with
  | Some x => Return x
  | None => Panic index_out_of_range
  end.

(** [s[lo:]] *)
Definition slice_from {A} (s : list A) (lo : nat) : exec (list A) :=
  if decide (lo ≤ length s)%nat then Return (drop lo s)
  else Panic slice_bounds_out_of_range.

(** A [switch { case c: return e ... }] whose cases all return an error:
    the conditions are evaluated in order, the first true one decides, and
    control falls out of the switch when none holds. *)
Fixpoint switch (cases : list (exec bool * error)) : exec (option error) :=
  match cases with
  | [] => Return nil
  | (c, e) :: rest => b ← c; if b : bool then Return (Some e) else switch rest
  end.

(** [for i := range xs { body }] with loop-carried state [s]; the body
    either leaves the function with an error or continues with a new
    state.  [n] counts the iterations left, [i] is the current index. *)
Fixpoint for_range {St} (i n : nat) (body : nat → St → exec (error + St))
    (s : St) : exec (error + St) :=
  match n with
  | O => Return (inr s)
  | S n' =>
      r ← body i s;
      match r with
      | inl e => Return (inl e)
      | inr s' => for_range (S i) n' body s'
      end
  end.

(** [for i := lo; i < hi; i++ { s = body(i, s) }], with [n = hi - lo]
    iterations left. *)
Fixpoint for_loop {St} (i n : nat) (body : nat → St → exec St) (s : St)
    : exec St :=
  match n with
  | O => Return s
  | S n' => s' ← body i s; for_loop (S i) n' body s'
  end.

Definition byte_val (b : byte) : Z := Z.of_N (Byte.to_N b).

(** [math/bits.Div64]: quotient and remainder of [(hi, lo)] by [y]. *)
Definition bits_Div64 (hi lo y : Z) : exec (Z * Z) :=
  if decide (y = 0) then Panic integer_divide_by_zero
  else if decide (y ≤ hi) then Panic integer_overflow
  else Return ((hi * 2 ^ 64 + lo) / y, (hi * 2 ^ 64 + lo) mod y).

(** [encoding/binary.BigEndian.Uint64] *)
Definition BigEndian_Uint64 (b : list byte) : exec Z :=
  _ ← index b 7;
  b7 ← index b 7; b6 ← index b 6; b5 ← index b 5; b4 ← index b 4;
  b3 ← index b 3; b2 ← index b 2; b1 ← index b 1; b0 ← index b 0;
  Return
    (Z.lor (Z.lor (Z.lor (Z.lor (Z.lor (Z.lor (Z.lor
       (byte_val b7)
       (Z.shiftl (byte_val b6) 8))
       (Z.shiftl (byte_val b5) 16))
       (Z.shiftl (byte_val b4) 24))
       (Z.shiftl (byte_val b3) 32))
       (Z.shiftl (byte_val b2) 40))
       (Z.shiftl (byte_val b1) 48))
       (Z.shiftl (byte_val b0) 56)).

End Go.

Import Go.

(** ** [go.sia.tech/core/types] *)

Module types.

(** [Hash256], [Address], [BlockID] and [FileContractID] are 32-byte
    arrays. *)
Definition Hash256 : Type := list byte.

#[global] Instance byte_eq_dec : EqDecision byte := Byte.byte_eq_dec.

(** [Currency] is an unsigned 128-bit amount. *)
Definition Currency : Type := Z.
Definition is_currency (c : Z) : Prop := 0 ≤ c < 2 ^ 128.

(** [c.Add(v)] panics on overflow. *)
Definition Currency_Add (c v : Currency) : exec Currency :=
  if decide (c + v < 2 ^ 128) then Return (c + v) else Panic currency_overflow.

(** [c.Sub(v)] panics on underflow. *)
Definition Currency_Sub (c v : Currency) : exec Currency :=
  if decide (v ≤ c) then Return (c - v) else Panic currency_underflow.

(** [c.Cmp(v)] *)
Definition Currency_Cmp (c v : Currency) : Z :=
  if decide (c < v) then -1 else if decide (c = v) then 0 else 1.

Record SiacoinOutput : Type := {
  Value : Currency;
  Address : Hash256;
}.

Record UnlockKey : Type := {
  Algorithm : list byte;
  Key : list byte;
}.

Record UnlockConditions : Type := {
  Timelock : Z;
  PublicKeys : list UnlockKey;
  SignaturesRequired : Z;
}.

Record FileContract : Type := {
  Filesize : Z;
  FileMerkleRoot : Hash256;
  WindowStart : Z;
  WindowEnd : Z;
  Payout : Currency;
  ValidProofOutputs : list SiacoinOutput;
  MissedProofOutputs : list SiacoinOutput;
  UnlockHash : Hash256;
  RevisionNumber : Z;
}.

(** A [FileContractRevision] embeds a [FileContract]; the coercion plays
    the role of Go's field promotion. *)
Record FileContractRevision : Type := {
  ParentID : Hash256;
  RevisionUnlockConditions : UnlockConditions;
  Embedded :> FileContract;
}.

Definition MaxRevisionNumber : Z := MaxUint64.

(** The zero values, which Go's composite literals [T{}] denote. *)
Definition zero_Hash256 : Hash256 := replicate 32 x00.

Definition zero_SiacoinOutput : SiacoinOutput :=
  {| Value := 0; Address := zero_Hash256 |}.

Definition zero_FileContractRevision : FileContractRevision :=
  {| ParentID := zero_Hash256;
     RevisionUnlockConditions :=
       {| Timelock := 0; PublicKeys := []; SignaturesRequired := 0 |};
     Embedded :=
       {| Filesize := 0;
          FileMerkleRoot := zero_Hash256;
          WindowStart := 0;
          WindowEnd := 0;
          Payout := 0;
          ValidProofOutputs := [];
          MissedProofOutputs := [];
          UnlockHash := zero_Hash256;
          RevisionNumber := 0 |} |}.

(** A [Transaction], as far as the package reads it: the file contracts
    it forms.  [Transaction.FileContractID(i)] hashes the whole
    transaction and is an interface here. *)
Record Transaction : Type := {
  FileContracts : list FileContract;
}.

Class ContractIDHasher : Type :=
  Transaction_FileContractID : Transaction → Z → Hash256.

(** [UnlockConditions.UnlockHash()] is a BLAKE2b Merkle root computed by
    the core library; the validators only compare its results, so it is
    an interface here. *)
Class UnlockHasher : Type :=
  UnlockConditions_UnlockHash : UnlockConditions → Hash256.

End types.

Import types.

(** ** [go.sia.tech/core/rhp/v2]: the host settings the validators read *)

Module rhpv2.

Record HostSettings : Type := {
  Address : Hash256;
  ContractPrice : Currency;
  MaxCollateral : Currency;
  MaxDuration : Z;
  WindowSize : Z;
}.

End rhpv2.

(** ** Package [rhp]: the revision validators *)

Module rhp.

Section validators.
Context `{UnlockHasher}.

Definition contractUnlockConditions (hostKey renterKey : UnlockKey)
    : UnlockConditions :=
  {| Timelock := 0;
     PublicKeys := [renterKey; hostKey];
     SignaturesRequired := 2 |}.

(** Body of the loop that totals the current valid outputs. *)
Definition sumBody (outputs : list SiacoinOutput) (i : nat) (payout : Currency)
    : exec (error + Currency) :=
  o ← index outputs i;
  p ← Currency_Add payout (Value o);
  Return (inr p).

(** Body of the two loops over the proposed outputs: the address at each
    index is compared with the current one, then the value is added. *)
Definition addressBody (format : string) (proposed current : list SiacoinOutput)
    (i : nat) (payout : Currency) : exec (error + Currency) :=
  r ← index proposed i;
  c ← index current i;
  if bool_decide (Address r ≠ Address c) then Return (inl (fmt_Errorf format [Z.of_nat i]))
  else
    r' ← index proposed i;
    p ← Currency_Add payout (Value r');
    Return (inr p).

Definition validateStdRevision (current revision : FileContractRevision)
    : exec (option error) :=
  old ← for_range 0 (length (ValidProofOutputs current))
         (sumBody (ValidProofOutputs current)) 0;
  match old with
  | inl e => Return (Some e)
  | inr oldPayout =>
  valid ← for_range 0 (length (ValidProofOutputs revision))
           (addressBody "valid proof output %v address should not change"
              (ValidProofOutputs revision) (ValidProofOutputs current)) 0;
  match valid with
  | inl e => Return (Some e)
  | inr validPayout =>
  missed ← for_range 0 (length (MissedProofOutputs revision))
            (addressBody "missed proof output %v address should not change"
               (MissedProofOutputs revision) (MissedProofOutputs current)) 0;
  match missed with
  | inl e => Return (Some e)
  | inr missedPayout =>
  switch [
    (Return (bool_decide (Currency_Cmp validPayout oldPayout ≠ 0)),
       errors_New "valid proof output sum must not change");
    (Return (bool_decide (Currency_Cmp missedPayout oldPayout ≠ 0)),
       errors_New "missed proof output sum must not change");
    (Return (bool_decide (UnlockHash revision ≠ UnlockHash current)),
       errors_New "unlock hash must not change");
    (Return (bool_decide
       (UnlockConditions_UnlockHash (RevisionUnlockConditions revision)
        ≠ UnlockConditions_UnlockHash (RevisionUnlockConditions current))),
       errors_New "unlock conditions must not change");
    (Return (bool_decide (RevisionNumber revision ≤ RevisionNumber current)),
       errors_New "revision number must increase");
    (Return (bool_decide (WindowStart revision ≠ WindowStart current)),
       errors_New "window start must not change");
    (Return (bool_decide (WindowEnd revision ≠ WindowEnd current)),
       errors_New "window end must not change");
    (Return (bool_decide (length (ValidProofOutputs revision)
                          ≠ length (ValidProofOutputs current))),
       errors_New "valid proof outputs must not change");
    (Return (bool_decide (length (MissedProofOutputs revision)
                          ≠ length (MissedProofOutputs current))),
       errors_New "missed proof outputs must not change");
    (r ← index (ValidProofOutputs revision) 0;
     c ← index (ValidProofOutputs current) 0;
     Return (bool_decide (Currency_Cmp (Value r) (Value c) > 0)),
       errors_New "renter valid proof output must not increase");
    (r ← index (MissedProofOutputs revision) 0;
     c ← index (MissedProofOutputs current) 0;
     Return (bool_decide (Currency_Cmp (Value r) (Value c) > 0)),
       errors_New "renter missed proof output must not increase")
  ]
  end end end.

Definition ValidateContractRenewal (existing : FileContractRevision)
    (renewal : FileContract) (hostKey renterKey : UnlockKey)
    (renterCost hostBurn : Currency) (currentHeight : Z)
    (settings : rhpv2.HostSettings) : exec (option error) :=
  switch [
    (Return (bool_decide (RevisionNumber renewal ≠ 0)),
       errors_New "revision number must be zero");
    (Return (bool_decide (Filesize renewal ≠ Filesize existing)),
       errors_New "filesize must not change");
    (Return (bool_decide (FileMerkleRoot renewal ≠ FileMerkleRoot existing)),
       errors_New "file Merkle root must not change");
    (Return (bool_decide (WindowEnd renewal < WindowEnd existing)),
       errors_New "renewal window must not end before current window");
    (Return (bool_decide (WindowStart renewal
               < uint64_add currentHeight (rhpv2.WindowSize settings))),
       errors_New "contract ends too soon to safely submit the contract transaction");
    (Return (bool_decide (WindowStart renewal
               > uint64_add currentHeight (rhpv2.MaxDuration settings))),
       errors_New "contract duration is too long");
    (Return (bool_decide (WindowEnd renewal
               < uint64_add (WindowStart renewal) (rhpv2.WindowSize settings))),
       errors_New "proof window is too small");
    (v ← index (ValidProofOutputs renewal) 1;
     Return (bool_decide (Address v ≠ rhpv2.Address settings)),
       errors_New "wrong address for host output");
    (v ← index (ValidProofOutputs renewal) 1;
     Return (bool_decide (Currency_Cmp (Value v) renterCost < 0)),
       errors_New "insufficient initial host valid payout");
    (m ← index (MissedProofOutputs renewal) 1;
     Return (bool_decide (Currency_Cmp (Value m) renterCost < 0)),
       errors_New "insufficient initial host missed payout");
    (v ← index (ValidProofOutputs renewal) 1;
     d ← Currency_Sub (Value v) renterCost;
     Return (bool_decide (Currency_Cmp d (rhpv2.MaxCollateral settings) > 0)),
       errors_New "excessive initial collateral");
    (m ← index (MissedProofOutputs renewal) 1;
     v ← index (ValidProofOutputs renewal) 1;
     Return (bool_decide (Currency_Cmp (Value m) (Value v) < 0)),
       errors_New "host valid payout must be greater than host missed payout");
    (m ← index (MissedProofOutputs renewal) 2;
     Return (bool_decide (Currency_Cmp (Value m) hostBurn < 0)),
       errors_New "excessive initial void output");
    (m ← index (MissedProofOutputs renewal) 1;
     v ← index (ValidProofOutputs renewal) 1;
     d ← Currency_Sub (Value v) hostBurn;
     Return (bool_decide (Currency_Cmp (Value m) d < 0)),
       errors_New "insufficient host missed payout");
    (Return (bool_decide
       (UnlockHash renewal
        ≠ UnlockConditions_UnlockHash (contractUnlockConditions hostKey renterKey))),
       errors_New "incorrect unlock hash")
  ].

(** Body of the loop of [ValidateClearingRevision]. *)
Definition clearingBody (current final : FileContractRevision) (i : nat)
    (_ : unit) : exec (error + unit) :=
  cur ← index (ValidProofOutputs current) i;
  valid ← index (ValidProofOutputs final) i;
  missed ← index (MissedProofOutputs final) i;
  r ← switch [
    (Return (bool_decide (Currency_Cmp (Value valid) (Value cur) ≠ 0)),
       fmt_Errorf "valid proof output value %v must not change" [Z.of_nat i]);
    (Return (bool_decide (Address valid ≠ Address cur)),
       fmt_Errorf "valid proof output address %v must not change" [Z.of_nat i]);
    (Return (bool_decide (Currency_Cmp (Value valid) (Value missed) ≠ 0)),
       fmt_Errorf "missed proof output %v must equal valid proof output" [Z.of_nat i]);
    (Return (bool_decide (Address valid ≠ Address missed)),
       fmt_Errorf "missed proof output address %v must equal valid proof output" [Z.of_nat i])
  ];
  match r with
  | Some e => Return (inl e)
  | None => Return (inr ())
  end.

Definition ValidateClearingRevision (current final : FileContractRevision)
    : exec (option error) :=
  r ← switch [
    (Return (bool_decide (Filesize current ≠ Filesize final)),
       errors_New "file size must not change");
    (Return (bool_decide (FileMerkleRoot current ≠ FileMerkleRoot final)),
       errors_New "file merkle root must not change");
    (Return (bool_decide (WindowStart current ≠ WindowStart final)),
       errors_New "window start must not change");
    (Return (bool_decide (WindowEnd current ≠ WindowEnd final)),
       errors_New "window end must not change");
    (Return (bool_decide (length (ValidProofOutputs final)
                          ≠ length (MissedProofOutputs final))),
       errors_New "wrong number of proof outputs");
    (Return (bool_decide (RevisionNumber final ≠ MaxRevisionNumber)),
       errors_New "revision number must be max value");
    (Return (bool_decide (UnlockHash final ≠ UnlockHash current)),
       errors_New "unlock hash must not change");
    (Return (bool_decide
       (UnlockConditions_UnlockHash (RevisionUnlockConditions final)
        ≠ UnlockConditions_UnlockHash (RevisionUnlockConditions current))),
       errors_New "unlock conditions must not change")
  ];
  match r with
  | Some e => Return (Some e)
  | None =>
      l ← for_range 0 (length (ValidProofOutputs final))
            (clearingBody current final) ();
      match l with
      | inl e => Return (Some e)
      | inr _ => Return nil
      end
  end.

Definition ValidateProgramRevision (current revision : FileContractRevision)
    (storage collateral : Currency) : exec (option error) :=
  err ← validateStdRevision current revision;
  match err with
  | Some e => Return (Some e)
  | None =>
      expectedBurn ← Currency_Add storage collateral;
      host ← index (MissedProofOutputs current) 1;
      if bool_decide (Currency_Cmp expectedBurn (Value host) > 0) then
        Return (Some (errors_New
          "expected burn amount is greater than the missed host output value"))
      else
        host' ← index (MissedProofOutputs current) 1;
        maxMissedHostValue ← Currency_Sub (Value host') expectedBurn;
        m ← index (MissedProofOutputs revision) 1;
        if bool_decide (Currency_Cmp (Value m) maxMissedHostValue < 0) then
          Return (Some (fmt_Errorf
            "host expected to burn at most %v, but burned %v"
            [maxMissedHostValue; Value m]))
        else Return nil
  end.

Definition ValidatePaymentRevision (current revision : FileContractRevision)
    (payment : Currency) : exec (option error) :=
  err ← validateStdRevision current revision;
  match err with
  | Some e => Return (Some e)
  | None =>
      switch [
        (r ← index (ValidProofOutputs revision) 0;
         c ← index (ValidProofOutputs current) 0;
         d ← Currency_Sub (Value c) payment;
         Return (bool_decide (Currency_Cmp (Value r) d ≠ 0)),
           errors_New "renter valid proof output is not reduced by the payment amount");
        (r ← index (MissedProofOutputs revision) 0;
         c ← index (MissedProofOutputs current) 0;
         d ← Currency_Sub (Value c) payment;
         Return (bool_decide (Currency_Cmp (Value r) d ≠ 0)),
           errors_New "renter missed proof output is not reduced by the payment amount");
        (r ← index (ValidProofOutputs revision) 1;
         c ← index (ValidProofOutputs current) 1;
         s ← Currency_Add (Value c) payment;
         Return (bool_decide (Currency_Cmp (Value r) s ≠ 0)),
           errors_New "host valid proof output is not increased by the payment amount");
        (r ← index (MissedProofOutputs revision) 1;
         c ← index (MissedProofOutputs current) 1;
         s ← Currency_Add (Value c) payment;
         Return (bool_decide (Currency_Cmp (Value r) s ≠ 0)),
           errors_New "host missed proof output is not increased by the payment amount")
      ]
  end.

(** [InitialRevision]; the literal does not set [Payout]. *)
Definition InitialRevision `{ContractIDHasher} (formationTxn : Transaction)
    (hostPubKey renterPubKey : UnlockKey) : exec FileContractRevision :=
  fc ← index (FileContracts formationTxn) 0;
  Return
    {| ParentID := Transaction_FileContractID formationTxn 0;
       RevisionUnlockConditions := contractUnlockConditions hostPubKey renterPubKey;
       Embedded :=
         {| Filesize := Filesize fc;
            FileMerkleRoot := FileMerkleRoot fc;
            WindowStart := WindowStart fc;
            WindowEnd := WindowEnd fc;
            Payout := 0;
            ValidProofOutputs := ValidProofOutputs fc;
            MissedProofOutputs := MissedProofOutputs fc;
            UnlockHash := UnlockHash fc;
            RevisionNumber := 1 |} |}.

(** Body of the two loops of [Revise]: element [i] of the fresh slice
    takes the old address, then the new value. *)
Definition reviseBody (old : list SiacoinOutput) (values : list Currency)
    (i : nat) (fresh : list SiacoinOutput) : exec (list SiacoinOutput) :=
  o ← index old i;
  e ← index fresh i;
  let fresh := <[i := {| Value := Value e; Address := Address o |}]> fresh in
  v ← index values i;
  e ← index fresh i;
  Return (<[i := {| Value := v; Address := Address e |}]> fresh).

Definition Revise (revision : FileContractRevision) (revisionNumber : Z)
    (validOutputs missedOutputs : list Currency)
    : exec (FileContractRevision * option error) :=
  if bool_decide (length validOutputs ≠ length (ValidProofOutputs revision)
                  ∨ length missedOutputs ≠ length (MissedProofOutputs revision))
  then Return (zero_FileContractRevision,
               Some (errors_New "incorrect number of outputs"))
  else if bool_decide (revisionNumber ≤ RevisionNumber revision)
  then Return (zero_FileContractRevision,
               Some (fmt_Errorf "revision number must be greater than %v"
                       [RevisionNumber revision]))
  else
    let oldValid := ValidProofOutputs revision in
    let oldMissed := MissedProofOutputs revision in
    valid ← for_loop 0 (length validOutputs) (reviseBody oldValid validOutputs)
               (replicate (length validOutputs) zero_SiacoinOutput);
    missed ← for_loop 0 (length missedOutputs) (reviseBody oldMissed missedOutputs)
                (replicate (length missedOutputs) zero_SiacoinOutput);
    Return
      ({| ParentID := ParentID revision;
          RevisionUnlockConditions := RevisionUnlockConditions revision;
          Embedded :=
            {| Filesize := Filesize revision;
               FileMerkleRoot := FileMerkleRoot revision;
               WindowStart := WindowStart revision;
               WindowEnd := WindowEnd revision;
               Payout := Payout revision;
               ValidProofOutputs := valid;
               MissedProofOutputs := missed;
               UnlockHash := UnlockHash revision;
               RevisionNumber := revisionNumber |} |},
       nil).

Definition ValidateContractFormation (fc : FileContract)
    (hostKey renterKey : UnlockKey) (currentHeight : Z)
    (settings : rhpv2.HostSettings) : exec (option error) :=
  switch [
    (Return (bool_decide (Filesize fc ≠ 0)),
       errors_New "initial filesize should be 0");
    (Return (bool_decide (RevisionNumber fc ≠ 0)),
       errors_New "initial revision number should be 0");
    (Return (bool_decide (FileMerkleRoot fc ≠ zero_Hash256)),
       errors_New "initial Merkle root should be empty");
    (Return (bool_decide (WindowStart fc
               < uint64_add currentHeight (rhpv2.WindowSize settings))),
       errors_New "contract ends too soon to safely submit the contract transaction");
    (Return (bool_decide (WindowStart fc
               > uint64_add currentHeight (rhpv2.MaxDuration settings))),
       errors_New "contract duration is too long");
    (Return (bool_decide (WindowEnd fc
               < uint64_add (WindowStart fc) (rhpv2.WindowSize settings))),
       errors_New "proof window is too small");
    (Return (bool_decide (length (ValidProofOutputs fc) ≠ 2%nat)),
       errors_New "wrong number of valid proof outputs");
    (Return (bool_decide (length (MissedProofOutputs fc) ≠ 3%nat)),
       errors_New "wrong number of missed proof outputs");
    (v ← index (ValidProofOutputs fc) 1;
     Return (bool_decide (Address v ≠ rhpv2.Address settings)),
       errors_New "wrong address for host valid output");
    (m ← index (MissedProofOutputs fc) 1;
     Return (bool_decide (Address m ≠ rhpv2.Address settings)),
       errors_New "wrong address for host missed output");
    (v ← index (ValidProofOutputs fc) 1;
     Return (bool_decide (Currency_Cmp (Value v) (rhpv2.ContractPrice settings) < 0)),
       errors_New "host valid payout is too small");
    (v ← index (ValidProofOutputs fc) 1;
     m ← index (MissedProofOutputs fc) 1;
     Return (bool_decide (Currency_Cmp (Value v) (Value m) ≠ 0)),
       errors_New "host valid and missed outputs must be equal");
    (v ← index (ValidProofOutputs fc) 1;
     Return (bool_decide (Currency_Cmp (Value v) (rhpv2.MaxCollateral settings) > 0)),
       errors_New "excessive initial collateral");
    (Return (bool_decide
       (UnlockHash fc
        ≠ UnlockConditions_UnlockHash (contractUnlockConditions hostKey renterKey))),
       errors_New "incorrect unlock hash")
  ].

Definition ValidateRevision (current revision : FileContractRevision)
    (payment collateral : Currency) : exec (option error) :=
  err ← validateStdRevision current revision;
  match err with
  | Some e => Return (Some e)
  | None =>
      low ← switch [
        (rv ← index (ValidProofOutputs current) 0;
         Return (bool_decide (Currency_Cmp (Value rv) payment < 0)),
           errors_New
             "renter valid proof output must be greater than the payment amount");
        (rm ← index (MissedProofOutputs current) 0;
         Return (bool_decide (Currency_Cmp (Value rm) payment < 0)),
           errors_New
             "renter missed proof output must be greater than the payment amount");
        (hm ← index (MissedProofOutputs current) 1;
         Return (bool_decide (Currency_Cmp (Value hm) collateral < 0)),
           errors_New
             "host missed proof output must be greater than the collateral amount")
      ];
      match low with
      | Some e => Return (Some e)
      | None =>
          hv ← index (ValidProofOutputs current) 1;
          minValid ← Currency_Add (Value hv) payment;
          hm ← index (MissedProofOutputs current) 1;
          maxMissed ← Currency_Sub (Value hm) collateral;
          v ← index (ValidProofOutputs revision) 1;
          if bool_decide (Currency_Cmp (Value v) minValid < 0) then
            Return (Some (fmt_Errorf
              "insufficient host valid payment: expected value at least %v, got %v"
              [minValid; Value v]))
          else
            m ← index (MissedProofOutputs revision) 1;
            if bool_decide (Currency_Cmp (Value m) maxMissed > 0) then
              Return (Some (fmt_Errorf
                "too much collateral transfer: expected value at most %v, got %v"
                [maxMissed; Value m]))
            else Return nil
      end
  end.

End validators.

End rhp.


(** ** [golang.org/x/crypto/blake2b] *)

Module blake2b.

(** [blake2b.Sum256] returns a [[32]byte]; the digest itself is the
    library's business. *)
Class Digest : Type := {
  Sum256 : list byte → list byte;
  Sum256_length : ∀ data, length (Sum256 data) = 32%nat;
}.

End blake2b.

(** ** Package [internal/merkle] *)

Module merkle.

(** Modelled from the spec: the constant [merkle.LeafSize], declared in
    package [internal/merkle]; the specification fixes the leaf size of a
    sector at 64 bytes. *)
Definition LeafSize : Z := 64.

(** Modelled from the spec: the constant [merkle.LeavesPerSector]; a
    sector of 4 MiB has 65,536 leaves of 64 bytes. *)
Definition LeavesPerSector : Z := 65536.

(** The proof builders of the package, which the contract manager calls
    and whose implementation is not available here: [BuildProof] (with a
    nil cache), [ConvertProofOrdering] and [BuildSectorRangeProof]. *)
Class Prover : Type := {
  BuildProof : list byte → Z → Z → list Hash256;
  ConvertProofOrdering : list Hash256 → Z → list Hash256;
  BuildSectorRangeProof : list Hash256 → Z → Z → list Hash256;
}.

End merkle.

(** ** [go.sia.tech/siad/types]: the storage proof of a transaction *)

Module stypes.

Record StorageProof : Type := {
  ParentID : Hash256;
  Segment : list byte;
  HashSet : list Hash256;
}.

(** [StorageProof{}]; [Segment] is a [[64]byte]. *)
Definition zero_StorageProof : StorageProof :=
  {| ParentID := zero_Hash256; Segment := replicate 64 x00; HashSet := [] |}.

End stypes.

(** ** Package [contracts]: segment selection *)

Module contracts.

Section storage_proof.
Context `{blake2b.Digest}.

(** Body of the reduction loop:
    [_, r = bits.Div64(r, binary.BigEndian.Uint64(seed[i*8:]), numSegments)]. *)
Definition reduceBody (seed : list byte) (numSegments : Z) (i : nat) (r : Z)
    : exec Z :=
  window ← slice_from seed (i * 8);
  lo ← BigEndian_Uint64 window;
  qr ← bits_Div64 r lo numSegments;
  Return qr.2.

Definition storageProofSegment (bid fcid : Hash256) (filesize : Z) : exec Z :=
  if bool_decide (filesize = 0) then Return 0
  else
    let seed := blake2b.Sum256 (bid ++ fcid) in
    let numSegments := filesize / merkle.LeafSize in
    let numSegments :=
      if bool_decide (filesize mod merkle.LeafSize ≠ 0)
      then uint64_add numSegments 1 else numSegments in
    for_loop 0 4 (reduceBody seed numSegments) 0.

End storage_proof.

(** What [buildStorageProof] asks of the contract manager: the sector
    roots of a contract ([cm.SectorRoots(id, 0, 0)]) and the bytes of a
    stored sector ([cm.storage.Read(root)]), each of which may fail. *)
Record ContractManager : Type := {
  SectorRoots : Hash256 → Z → Z → error + list Hash256;
  storage_Read : Hash256 → error + list byte;
}.

(** [copy(dst[:], src)] into a zeroed [[64]byte]. *)
Definition copy64 (src : list byte) : list byte :=
  take 64 src ++ replicate (64 - length (take 64 src)) x00.

Definition buildStorageProof `{merkle.Prover} (cm : ContractManager)
    (id : Hash256) (index : Z) : exec (stypes.StorageProof * option error) :=
  let sectorIndex := index / merkle.LeavesPerSector in
  let segmentIndex := index mod merkle.LeavesPerSector in
  match SectorRoots cm id 0 0 with
  | inl err => Return (stypes.zero_StorageProof, Some err)
  | inr roots =>
      root ← Go.index roots (Z.to_nat sectorIndex);
      match storage_Read cm root with
      | inl err => Return (stypes.zero_StorageProof, Some err)
      | inr sector =>
          let segmentProof :=
            merkle.ConvertProofOrdering
              (merkle.BuildProof sector segmentIndex (uint64_add segmentIndex 1))
              segmentIndex in
          let sectorProof :=
            merkle.ConvertProofOrdering
              (merkle.BuildSectorRangeProof roots sectorIndex
                 (uint64_add sectorIndex 1))
              sectorIndex in
          src ← slice_from sector
                  (Z.to_nat ((segmentIndex * merkle.LeafSize) mod 2 ^ 64));
          Return
            ({| stypes.ParentID := id;
                stypes.Segment := copy64 src;
                stypes.HashSet := segmentProof ++ sectorProof |},
             nil)
      end
  end.

End contracts.

(** ** Package [host/storage]: what the store shares with its callers *)

Module storage.

(** Modelled from the spec: the error kinds of the storage engine.  The
    package [host/storage] that declares [ErrNotEnoughStorage] and
    [ErrVolumeNotEmpty] is only referenced by the tests; [ErrCallback]
    stands for an error returned by a caller-supplied callback, which the
    store reports verbatim. *)
Inductive Error : Type :=
  | ErrNotEnoughStorage
  | ErrVolumeNotEmpty
  | ErrSectorNotFound
  | ErrSectorLocked
  | ErrCallback (e : error).

(** Modelled from the spec: [storage.SectorLocation], the location of a
    sector root as the tests read it ([Volume], [Index], [Root]). *)
Record SectorLocation : Type := {
  Volume : nat;
  Index : nat;
  Root : Hash256;
}.

End storage.

(** ** Package [internal/persist/sqlite]: the volume and sector tables

    The tables are those of [init.sql].  The volume operations of the
    store ([AddVolume], [GrowVolume], [StoreSector], [MigrateSectors],
    [RemoveVolume], ...) are called by [volumes_test.go]; their
    implementation is not available here, so each is modelled from the
    specification of the metadata store and says so. *)

Module sqlite.

Local Open Scope nat_scope.

(** A row of table [storage_volumes] of [init.sql]. *)
Record storage_volume : Type := {
  storage_volume_id : nat;
  disk_path : string;
  read_only : bool;
  available : bool;
}.

(** A row of table [volume_sectors] of [init.sql]; [sector_root] is null
    when the slot is not used.  A row is identified by its position in
    the table. *)
Record volume_sector : Type := {
  volume_id : nat;
  volume_index : nat;
  sector_root : option Hash256;
}.

(** The tables a volume operation reads or writes.  The sector locks are
    references to [(volume_id, index)] slots, one entry per holder; the
    contract sector roots are the roots some contract still lists. *)
Record Store : Type := {
  storage_volumes : list storage_volume;
  volume_sectors : list volume_sector;
  locked_volume_sectors : list (nat * nat);
  contract_sector_roots : list Hash256;
}.

Definition empty_store : Store :=
  {| storage_volumes := [];
     volume_sectors := [];
     locked_volume_sectors := [];
     contract_sector_roots := [] |}.

Definition with_volumes (volumes : list storage_volume) (s : Store) : Store :=
  {| storage_volumes := volumes;
     volume_sectors := volume_sectors s;
     locked_volume_sectors := locked_volume_sectors s;
     contract_sector_roots := contract_sector_roots s |}.

Definition with_sectors (rows : list volume_sector) (s : Store) : Store :=
  {| storage_volumes := storage_volumes s;
     volume_sectors := rows;
     locked_volume_sectors := locked_volume_sectors s;
     contract_sector_roots := contract_sector_roots s |}.

Definition with_locks (locks : list (nat * nat)) (s : Store) : Store :=
  {| storage_volumes := storage_volumes s;
     volume_sectors := volume_sectors s;
     locked_volume_sectors := locks;
     contract_sector_roots := contract_sector_roots s |}.

Definition set_root (root : option Hash256) (row : volume_sector)
    : volume_sector :=
  {| volume_id := volume_id row;
     volume_index := volume_index row;
     sector_root := root |}.

Definition location (row : volume_sector) (root : Hash256)
    : storage.SectorLocation :=
  {| storage.Volume := volume_id row;
     storage.Index := volume_index row;
     storage.Root := root |}.

(** The rows of a table with their positions. *)
Definition indexed (rows : list volume_sector) : list (nat * volume_sector) :=
  imap pair rows.

(** Slots are ordered by [(volume_id ASC, index ASC)]. *)
Definition slot_le (a b : nat * volume_sector) : Prop :=
  volume_id a.2 < volume_id b.2
  ∨ (volume_id a.2 = volume_id b.2 ∧ volume_index a.2 ≤ volume_index b.2).

#[global] Instance slot_le_dec a b : Decision (slot_le a b).
Proof. unfold slot_le. apply _. Defined.

(** Modelled from the spec: [used_sectors], the number of slots of a
    volume whose sector root is not null; [total_sectors], the number of
    its slots.  The queries of package [sqlite] that compute them are not
    available. *)
Definition used_sectors (s : Store) (volume : nat) : nat :=
  length (filter (λ row, volume_id row = volume ∧ is_Some (sector_root row))
            (volume_sectors s)).

Definition total_sectors (s : Store) (volume : nat) : nat :=
  length (filter (λ row, volume_id row = volume) (volume_sectors s)).

(** The sector roots stored in any slot, in table order. *)
Definition stored_roots (s : Store) : list Hash256 :=
  omap sector_root (volume_sectors s).

(** A volume takes new sectors when it is available and not read-only. *)
Definition writable (s : Store) (volume : nat) : Prop :=
  Exists (λ v, storage_volume_id v = volume
               ∧ available v = true ∧ read_only v = false)
    (storage_volumes s).

#[global] Instance writable_dec s volume : Decision (writable s volume).
Proof. unfold writable. apply _. Defined.

(** The empty slots of available, writable volumes, lowest
    [(volume_id, index)] first. *)
Definition free_slots (s : Store) : list (nat * volume_sector) :=
  merge_sort slot_le
    (filter (λ x, sector_root x.2 = None ∧ writable s (volume_id x.2))
       (indexed (volume_sectors s))).

Definition locked (s : Store) (row : volume_sector) : Prop :=
  (volume_id row, volume_index row) ∈ locked_volume_sectors s.

#[global] Instance locked_dec s row : Decision (locked s row).
Proof. unfold locked. apply _. Defined.

Definition lock (row : volume_sector) (s : Store) : Store :=
  with_locks ((volume_id row, volume_index row) :: locked_volume_sectors s) s.

Fixpoint remove_one (slot : nat * nat) (locks : list (nat * nat))
    : list (nat * nat) :=
  match locks with
  | [] => []
  | l :: locks' => if decide (l = slot) then locks' else l :: remove_one slot locks'
  end.

(** Modelled from the spec: the release handle of a sector lock, which
    gives back one reference to the slot. *)
Definition release (loc : storage.SectorLocation) (s : Store) : Store :=
  with_locks
    (remove_one (storage.Volume loc, storage.Index loc)
       (locked_volume_sectors s)) s.

(** Modelled from the spec: [add_volume(path, read_only)], which creates
    a volume without slots, not yet available, under the next id. *)
Definition AddVolume (path : string) (readOnly : bool) (s : Store)
    : Store * nat :=
  let volume := S (max_list (storage_volume_id <$> storage_volumes s)) in
  (with_volumes
     (storage_volumes s
      ++ [{| storage_volume_id := volume; disk_path := path;
             read_only := readOnly; available := false |}]) s,
   volume).

(** Modelled from the spec: [grow_volume(id, new_total)], which appends
    empty slots up to [new_total]. *)
Definition GrowVolume (volume maxSectors : nat) (s : Store) : Store :=
  let total := total_sectors s volume in
  with_sectors
    (volume_sectors s
     ++ ((λ i, {| volume_id := volume; volume_index := i; sector_root := None |})
           <$> seq total (maxSectors - total))) s.

(** Modelled from the spec: [set_available(id, bool)] and
    [set_read_only(id, bool)]. *)
Definition SetAvailable (volume : nat) (flag : bool) (s : Store) : Store :=
  with_volumes
    ((λ v, if decide (storage_volume_id v = volume)
           then {| storage_volume_id := storage_volume_id v;
                   disk_path := disk_path v;
                   read_only := read_only v; available := flag |}
           else v) <$> storage_volumes s) s.

Definition SetReadOnly (volume : nat) (flag : bool) (s : Store) : Store :=
  with_volumes
    ((λ v, if decide (storage_volume_id v = volume)
           then {| storage_volume_id := storage_volume_id v;
                   disk_path := disk_path v;
                   read_only := flag; available := available v |}
           else v) <$> storage_volumes s) s.

(** Modelled from the spec: [shrink_volume(id, new_total)], which fails
    with [VolumeNotEmpty] if a slot with index [>= new_total] is occupied
    and else deletes those slots. *)
Definition ShrinkVolume (volume maxSectors : nat) (s : Store)
    : Store * option storage.Error :=
  if decide (Exists (λ row, volume_id row = volume
                            ∧ maxSectors ≤ volume_index row
                            ∧ is_Some (sector_root row)) (volume_sectors s))
  then (s, Some storage.ErrVolumeNotEmpty)
  else
    (with_sectors
       (filter (λ row, ¬ (volume_id row = volume ∧ maxSectors ≤ volume_index row))
          (volume_sectors s)) s,
     None).

(** Modelled from the spec: [remove_volume(id, force)]; without [force]
    it requires [used_sectors = 0] and fails with [VolumeNotEmpty]
    otherwise; the volume goes with its slots and their locks. *)
Definition RemoveVolume (volume : nat) (force : bool) (s : Store)
    : Store * option storage.Error :=
  if negb force && bool_decide (used_sectors s volume ≠ 0)
  then (s, Some storage.ErrVolumeNotEmpty)
  else
    ({| storage_volumes :=
          filter (λ v, storage_volume_id v ≠ volume) (storage_volumes s);
        volume_sectors :=
          filter (λ row, volume_id row ≠ volume) (volume_sectors s);
        locked_volume_sectors :=
          filter (λ l, l.1 ≠ volume) (locked_volume_sectors s);
        contract_sector_roots := contract_sector_roots s |},
     None).

(** Modelled from the spec: [store_sector(root, on_placed)].  If a slot
    already holds [root], its location is reported with [exists = true]
    and no slot is allocated; otherwise the first free slot is reported
    with [exists = false] and, once [on_placed] has succeeded, takes the
    root.  An error of [on_placed] rolls the transaction back; without a
    free slot the call fails with [NotEnoughStorage].  On success the
    slot is locked on behalf of the caller, and the result is the
    location and flag that [on_placed] saw. *)
Definition StoreSector (root : Hash256)
    (on_placed : storage.SectorLocation → bool → option error) (s : Store)
    : Store * (storage.Error + storage.SectorLocation * bool) :=
  match list_find (λ row, sector_root row = Some root) (volume_sectors s) with
  | Some (_, row) =>
      let loc := location row root in
      match on_placed loc true with
      | Some e => (s, inl (storage.ErrCallback e))
      | None => (lock row s, inr (loc, true))
      end
  | None =>
      match free_slots s with
      | [] => (s, inl storage.ErrNotEnoughStorage)
      | (i, row) :: _ =>
          let loc := location row root in
          match on_placed loc false with
          | Some e => (s, inl (storage.ErrCallback e))
          | None =>
              (lock row
                 (with_sectors
                    (<[i := set_root (Some root) row]> (volume_sectors s)) s),
               inr (loc, false))
          end
      end
  end.

(** Modelled from the spec: [sector_location(root)], which finds the slot
    of [root] and takes a read lock on it. *)
Definition SectorLocation (root : Hash256) (s : Store)
    : Store * (storage.Error + storage.SectorLocation) :=
  match list_find (λ row, sector_root row = Some root) (volume_sectors s) with
  | Some (_, row) => (lock row s, inr (location row root))
  | None => (s, inl storage.ErrSectorNotFound)
  end.

(** Modelled from the spec: [remove_sector(root)], which fails if the
    sector is held by a lock or listed by a contract and else empties its
    slot. *)
Definition RemoveSector (root : Hash256) (s : Store)
    : Store * option storage.Error :=
  match list_find (λ row, sector_root row = Some root) (volume_sectors s) with
  | None => (s, Some storage.ErrSectorNotFound)
  | Some (i, row) =>
      if decide (locked s row ∨ root ∈ contract_sector_roots s)
      then (s, Some storage.ErrSectorLocked)
      else (with_sectors (<[i := set_root None row]> (volume_sectors s)) s, None)
  end.

(** The slots [migrate_sectors] empties: those of [volume] at indices
    [>= below_index]. *)
Definition in_region (volume startIndex : nat) (row : volume_sector) : Prop :=
  volume_id row = volume ∧ startIndex ≤ volume_index row.

#[global] Instance in_region_dec volume startIndex row :
  Decision (in_region volume startIndex row).
Proof. unfold in_region. apply _. Defined.

(** The occupied slots of the region, lowest index first. *)
Definition migration_sources (volume startIndex : nat) (s : Store)
    : list (nat * volume_sector) :=
  merge_sort slot_le
    (filter (λ x, in_region volume startIndex x.2 ∧ is_Some (sector_root x.2))
       (indexed (volume_sectors s))).

(** The free slots outside the region: in other volumes, or in [volume]
    below [startIndex]. *)
Definition migration_destinations (volume startIndex : nat) (s : Store)
    : list (nat * volume_sector) :=
  filter (λ x, ¬ in_region volume startIndex x.2) (free_slots s).

(** One planned move: the source slot and the destination slot. *)
Definition move : Type := (nat * volume_sector) * (nat * volume_sector).

(** What [on_batch] is told about a move: the new location of the root. *)
Definition report (m : move) : storage.SectorLocation :=
  location m.2.2 (default [] (sector_root m.1.2)).

(** Committing a move writes the root into the destination slot and
    nulls the source slot. *)
Definition apply_move (rows : list volume_sector) (m : move)
    : list volume_sector :=
  <[m.1.1 := set_root None m.1.2]>
    (<[m.2.1 := set_root (sector_root m.1.2) m.2.2]> rows).

Definition commit (plan : list move) (s : Store) : Store :=
  with_sectors (foldl apply_move (volume_sectors s) plan) s.

(** Modelled from the spec: the batches of [migrate_sectors].  Each batch
    selects up to [batchSize] occupied slots of the region, pairs them
    with free destination slots, hands the planned moves to [on_batch]
    (told the number of the call) and commits them when it succeeds.
    The migration is complete when the region holds no sector; it stops
    with [SectorLocked] on a pinned source, with [NotEnoughStorage] when
    no destination is left, and with the callback's error, in which case
    the batch is not committed.  The result carries the moves of the
    batches that succeeded.  [fuel] bounds the number of batches. *)
Fixpoint migrate_batches (fuel call batchSize volume startIndex : nat)
    (on_batch : nat → list storage.SectorLocation → option error) (s : Store)
    : option (Store * list storage.SectorLocation * option storage.Error) :=
  match fuel with
  | O => None
  | S fuel' =>
      match migration_sources volume startIndex s with
      | [] => Some (s, [], None)
      | sources =>
          let batch := take batchSize sources in
          if decide (Exists (λ x, locked s x.2) batch)
          then Some (s, [], Some storage.ErrSectorLocked)
          else
            match zip batch (migration_destinations volume startIndex s) with
            | [] => Some (s, [], Some storage.ErrNotEnoughStorage)
            | plan =>
                match on_batch call (report <$> plan) with
                | Some e => Some (s, [], Some (storage.ErrCallback e))
                | None =>
                    '(s', moved, result) ←
                      migrate_batches fuel' (S call) batchSize volume
                        startIndex on_batch (commit plan s);
                    Some (s', (report <$> plan) ++ moved, result)
                end
            end
      end
  end.

(** Modelled from the spec: [migrate_sectors(volume_id, below_index,
    on_batch)].  Every committed batch empties at least one slot of the
    region, so one batch per occupied slot, and one more to find the
    region empty, is enough. *)
Definition MigrateSectors (batchSize volume startIndex : nat)
    (on_batch : nat → list storage.SectorLocation → option error) (s : Store)
    : option (Store * list storage.SectorLocation * option storage.Error) :=
  migrate_batches (S (length (migration_sources volume startIndex s))) 0
    batchSize volume startIndex on_batch s.

End sqlite.
(** ** Specification-side notions *)

(** The sum of the values of a list of outputs, as an integer. *)
Definition total (outputs : list SiacoinOutput) : Z :=
  foldr (λ o acc, Value o + acc) 0 outputs.

(** The value of output [i], when there is one. *)
Definition value_at (outputs : list SiacoinOutput) (i : nat) : option Z :=
  Value <$> outputs !! i.

(** Every output value of a contract fits the 128-bit [Currency] type. *)
Definition well_formed_outputs (fc : FileContract) : Prop :=
  Forall (λ o, is_currency (Value o)) (ValidProofOutputs fc)
  ∧ Forall (λ o, is_currency (Value o)) (MissedProofOutputs fc).

(** "renter valid and renter missed each decreased by exactly [payment];
    host valid and host missed each increased by exactly [payment]". *)
Definition payment_moved (current revision : FileContract) (payment : Z) : Prop :=
  ∃ renterValid renterMissed hostValid hostMissed : Z,
    value_at (ValidProofOutputs current) 0 = Some renterValid
    ∧ value_at (MissedProofOutputs current) 0 = Some renterMissed
    ∧ value_at (ValidProofOutputs current) 1 = Some hostValid
    ∧ value_at (MissedProofOutputs current) 1 = Some hostMissed
    ∧ value_at (ValidProofOutputs revision) 0 = Some (renterValid - payment)
    ∧ value_at (MissedProofOutputs revision) 0 = Some (renterMissed - payment)
    ∧ value_at (ValidProofOutputs revision) 1 = Some (hostValid + payment)
    ∧ value_at (MissedProofOutputs revision) 1 = Some (hostMissed + payment).

(** The clearing rule as the specification words it: the listed fields
    and the unlock conditions are unchanged, the revision number is the
    maximum, and at every output index the final valid output has the
    value of the current valid output and the final missed output equals
    the final valid output. *)
Definition clearing_rule_as_specified (current final : FileContractRevision)
    : Prop :=
  Filesize final = Filesize current
  ∧ FileMerkleRoot final = FileMerkleRoot current
  ∧ WindowStart final = WindowStart current
  ∧ WindowEnd final = WindowEnd current
  ∧ UnlockHash final = UnlockHash current
  ∧ RevisionUnlockConditions final = RevisionUnlockConditions current
  ∧ RevisionNumber final = MaxUint64
  ∧ ∀ i : nat,
      value_at (ValidProofOutputs final) i = value_at (ValidProofOutputs current) i
      ∧ MissedProofOutputs final !! i = ValidProofOutputs final !! i.

(** The unsigned integer a byte string denotes, most significant byte
    first. *)
Definition big_endian (bs : list byte) : Z :=
  foldl (λ acc b, acc * 256 + byte_val b) 0 bs.

(** [ceil (a / b)] *)
Definition ceil_div (a b : Z) : Z := (a + b - 1) / b.

(** The rules of [validateStdRevision], read as one proposition: the
    addresses of the valid and of the missed outputs are unchanged, both
    proposed sums equal the sum of the current valid outputs, unlock
    hash, hash of the unlock conditions and proof window are unchanged,
    the revision number increases, and the renter's valid and missed
    outputs (index 0) exist and do not increase. *)
Definition std_rules `{UnlockHasher} (current revision : FileContractRevision)
    : Prop :=
  Address <$> ValidProofOutputs revision = Address <$> ValidProofOutputs current
  ∧ Address <$> MissedProofOutputs revision
    = Address <$> MissedProofOutputs current
  ∧ total (ValidProofOutputs revision) = total (ValidProofOutputs current)
  ∧ total (MissedProofOutputs revision) = total (ValidProofOutputs current)
  ∧ UnlockHash revision = UnlockHash current
  ∧ UnlockConditions_UnlockHash (RevisionUnlockConditions revision)
    = UnlockConditions_UnlockHash (RevisionUnlockConditions current)
  ∧ RevisionNumber current < RevisionNumber revision
  ∧ WindowStart revision = WindowStart current
  ∧ WindowEnd revision = WindowEnd current
  ∧ (∃ r c, ValidProofOutputs revision !! 0%nat = Some r
            ∧ ValidProofOutputs current !! 0%nat = Some c
            ∧ Value r ≤ Value c)
  ∧ (∃ r c, MissedProofOutputs revision !! 0%nat = Some r
            ∧ MissedProofOutputs current !! 0%nat = Some c
            ∧ Value r ≤ Value c).

(** The rules of [ValidateContractRenewal] that read no output: the
    renewal starts at revision 0 with the data of the existing contract,
    its proof window does not end before the existing one, starts between
    [currentHeight + WindowSize] and [currentHeight + MaxDuration]
    (64-bit sums) and lasts at least [WindowSize]. *)
Definition renewal_header_rules (existing : FileContractRevision)
    (renewal : FileContract) (currentHeight : Z)
    (settings : rhpv2.HostSettings) : Prop :=
  RevisionNumber renewal = 0
  ∧ Filesize renewal = Filesize existing
  ∧ FileMerkleRoot renewal = FileMerkleRoot existing
  ∧ WindowEnd existing ≤ WindowEnd renewal
  ∧ uint64_add currentHeight (rhpv2.WindowSize settings) ≤ WindowStart renewal
  ∧ WindowStart renewal ≤ uint64_add currentHeight (rhpv2.MaxDuration settings)
  ∧ uint64_add (WindowStart renewal) (rhpv2.WindowSize settings)
    ≤ WindowEnd renewal.

(** Output [o] paying [v] instead of its own value. *)
Definition with_value (o : SiacoinOutput) (v : Currency) : SiacoinOutput :=
  {| Value := v; Address := Address o |}.

(** The revision that [Revise] is meant to build: the given number, and
    the outputs of [revision] with their values replaced, in order, by
    the given ones. *)
Definition revised (revision : FileContractRevision) (revisionNumber : Z)
    (validOutputs missedOutputs : list Currency) : FileContractRevision :=
  {| ParentID := ParentID revision;
     RevisionUnlockConditions := RevisionUnlockConditions revision;
     Embedded :=
       {| Filesize := Filesize revision;
          FileMerkleRoot := FileMerkleRoot revision;
          WindowStart := WindowStart revision;
          WindowEnd := WindowEnd revision;
          Payout := Payout revision;
          ValidProofOutputs :=
            zip_with with_value (ValidProofOutputs revision) validOutputs;
          MissedProofOutputs :=
            zip_with with_value (MissedProofOutputs revision) missedOutputs;
          UnlockHash := UnlockHash revision;
          RevisionNumber := revisionNumber |} |}.

(** The sum of a list of amounts, as an integer. *)
Definition sum_of (values : list Currency) : Z := foldr Z.add 0 values.

(** An occupied slot of the region that a migration empties. *)
Definition source_row (volume startIndex : nat) (row : sqlite.volume_sector)
    : Prop :=
  sqlite.in_region volume startIndex row ∧ is_Some (sqlite.sector_root row).

#[global] Instance source_row_dec volume startIndex row :
  Decision (source_row volume startIndex row).
Proof. unfold source_row. apply _. Defined.

(** An empty slot that a migration may fill: outside the region, in a
    volume that takes new sectors. *)
Definition destination_row (s : sqlite.Store) (volume startIndex : nat)
    (row : sqlite.volume_sector) : Prop :=
  ¬ sqlite.in_region volume startIndex row
  ∧ sqlite.sector_root row = None
  ∧ sqlite.writable s (sqlite.volume_id row).

#[global] Instance destination_row_dec s volume startIndex row :
  Decision (destination_row s volume startIndex row).
Proof. unfold destination_row. apply _. Defined.

(** An occupied slot outside the region: a migration leaves it alone. *)
Definition settled_row (volume startIndex : nat) (row : sqlite.volume_sector)
    : Prop :=
  ¬ sqlite.in_region volume startIndex row ∧ is_Some (sqlite.sector_root row).

(** A plan fits a table when its sources are distinct occupied slots of
    the region, its destinations are distinct empty slots outside it, and
    the rows it names are the rows of the table. *)
Definition planned (volume startIndex : nat) (rows : list sqlite.volume_sector)
    (plan : list sqlite.move) : Prop :=
  NoDup (plan.*1.*1) ∧ NoDup (plan.*2.*1)
  ∧ Forall (λ m : sqlite.move,
      rows !! m.1.1 = Some m.1.2 ∧ rows !! m.2.1 = Some m.2.2
      ∧ source_row volume startIndex m.1.2
      ∧ ¬ sqlite.in_region volume startIndex m.2.2
      ∧ sqlite.sector_root m.2.2 = None) plan.

(** A reported location is committed when some slot at that volume and
    index holds the root. *)
Definition committed (s : sqlite.Store) (loc : storage.SectorLocation) : Prop :=
  ∃ row, row ∈ sqlite.volume_sectors s
         ∧ sqlite.volume_id row = storage.Volume loc
         ∧ sqlite.volume_index row = storage.Index loc
         ∧ sqlite.sector_root row = Some (storage.Root loc).

(** ** Concrete revisions used to run the validators *)

Definition address_of (b : byte) : Hash256 := replicate 32 b.
Definition renter_address : Hash256 := address_of x01.
Definition host_address : Hash256 := address_of x02.
Definition void_address : Hash256 := address_of x00.
Definition other_address : Hash256 := address_of x03.

Definition output (value : Currency) (address : Hash256) : SiacoinOutput :=
  {| Value := value; Address := address |}.

Definition renter_key : UnlockKey := {| Algorithm := [x65; x64]; Key := [x01] |}.
Definition host_key : UnlockKey := {| Algorithm := [x65; x64]; Key := [x02] |}.

(** A stand-in for the core library's unlock hash, used only where a
    validator has to be run on a concrete revision: the keys' bytes
    followed by the signature count. *)
Definition example_hasher : UnlockHasher := λ uc,
  concat (Key <$> PublicKeys uc) ++ [x00] ++ replicate (Z.to_nat (SignaturesRequired uc)) x01.

Definition revision_with (number : Z) (valid missed : list SiacoinOutput)
    : FileContractRevision :=
  {| ParentID := address_of x09;
     RevisionUnlockConditions := rhp.contractUnlockConditions host_key renter_key;
     Embedded :=
       {| Filesize := 0;
          FileMerkleRoot := address_of x00;
          WindowStart := 100;
          WindowEnd := 200;
          Payout := total valid;
          ValidProofOutputs := valid;
          MissedProofOutputs := missed;
          UnlockHash := address_of x07;
          RevisionNumber := number |} |}.

(** A current revision whose missed outputs total more than its valid
    outputs, and a proposal that removes the surplus. *)
Definition c1_current : FileContractRevision :=
  revision_with 1
    [output 10 renter_address; output 5 host_address]
    [output 10 renter_address; output 5 host_address; output 5 void_address].

Definition c1_proposed : FileContractRevision :=
  revision_with 2
    [output 10 renter_address; output 5 host_address]
    [output 10 renter_address; output 5 host_address; output 0 void_address].

(** A balanced contract and a payment of 3 from the renter to the host. *)
Definition paid_current : FileContractRevision :=
  revision_with 1
    [output 10 renter_address; output 5 host_address]
    [output 10 renter_address; output 5 host_address; output 0 void_address].

Definition paid_proposed : FileContractRevision :=
  revision_with 2
    [output 7 renter_address; output 8 host_address]
    [output 7 renter_address; output 8 host_address; output 0 void_address].

(** The same contract proposed again with the maximum revision number. *)
Definition max_proposed : FileContractRevision :=
  revision_with MaxUint64
    [output 10 renter_address; output 5 host_address]
    [output 10 renter_address; output 5 host_address; output 0 void_address].

(** A proposal with one more valid output than the current revision, and
    a pair of revisions without outputs. *)
Definition longer_proposed : FileContractRevision :=
  revision_with 2
    [output 10 renter_address; output 5 host_address; output 0 void_address]
    [output 10 renter_address; output 5 host_address; output 0 void_address].

Definition empty_current : FileContractRevision := revision_with 1 [] [].
Definition empty_proposed : FileContractRevision := revision_with 2 [] [].

(** Clearing revisions: one that settles [paid_current], and one that
    keeps every value but pays the host output to another address. *)
Definition clearing_final : FileContractRevision :=
  revision_with MaxUint64
    [output 10 renter_address; output 5 host_address]
    [output 10 renter_address; output 5 host_address].

Definition readdressed_final : FileContractRevision :=
  revision_with MaxUint64
    [output 10 renter_address; output 5 other_address]
    [output 10 renter_address; output 5 other_address].

(** Renewals of [paid_current] at height 250. *)
Definition renewal_settings : rhpv2.HostSettings :=
  {| rhpv2.Address := host_address;
     rhpv2.ContractPrice := 1;
     rhpv2.MaxCollateral := 1000;
     rhpv2.MaxDuration := 1000;
     rhpv2.WindowSize := 10 |}.

Definition renewal_with `{UnlockHasher} (valid missed : list SiacoinOutput)
    : FileContract :=
  {| Filesize := 0;
     FileMerkleRoot := address_of x00;
     WindowStart := 300;
     WindowEnd := 400;
     Payout := total valid;
     ValidProofOutputs := valid;
     MissedProofOutputs := missed;
     UnlockHash :=
       UnlockConditions_UnlockHash (rhp.contractUnlockConditions host_key renter_key);
     RevisionNumber := 0 |}.

(** The host's missed payout (20) exceeds its valid payout (10). *)
Definition inverted_renewal `{UnlockHasher} : FileContract :=
  renewal_with
    [output 60 renter_address; output 10 host_address]
    [output 50 renter_address; output 20 host_address; output 0 void_address].

(** The host risks 10 of its valid payout of 20, burnt to the void. *)
Definition burning_renewal `{UnlockHasher} : FileContract :=
  renewal_with
    [output 50 renter_address; output 20 host_address]
    [output 50 renter_address; output 10 host_address; output 10 void_address].


(** A contract as the renter proposes it at height 250, the transaction
    that forms it, and a stand-in for the contract id of a transaction. *)
Definition formed_contract : FileContract :=
  {| Filesize := 0;
     FileMerkleRoot := zero_Hash256;
     WindowStart := 300;
     WindowEnd := 400;
     Payout := 25;
     ValidProofOutputs := [output 10 renter_address; output 5 host_address];
     MissedProofOutputs :=
       [output 10 renter_address; output 5 host_address; output 0 void_address];
     UnlockHash :=
       example_hasher (rhp.contractUnlockConditions host_key renter_key);
     RevisionNumber := 0 |}.

Definition formation_txn : Transaction :=
  {| FileContracts := [formed_contract] |}.

Definition example_contract_id : ContractIDHasher := λ _ _, address_of x09.

(** A stand-in digest with the right output length, used only where the
    segment selector has to be run: the first 32 bytes of the zero-padded
    input. *)
Definition padded_prefix (data : list byte) : list byte :=
  take 32 (data ++ replicate 32 x00).

Lemma padded_prefix_length (data : list byte) :
  length (padded_prefix data) = 32%nat.
Proof.
  unfold padded_prefix.
  rewrite length_take, length_app, length_replicate. lia.
Qed.

Definition example_digest : blake2b.Digest :=
  {| blake2b.Sum256 := padded_prefix;
     blake2b.Sum256_length := padded_prefix_length |}.

(** A contract manager over one 4 MiB sector of zeros, a contract
    manager whose contract has no sector roots, and stand-in proof
    builders that return no hashes. *)
Definition zero_sector : list byte :=
  replicate (Z.to_nat (merkle.LeavesPerSector * merkle.LeafSize)) x00.

Definition one_sector_manager : contracts.ContractManager :=
  {| contracts.SectorRoots := λ _ _ _, inr [address_of x11];
     contracts.storage_Read := λ _, inr zero_sector |}.

Definition empty_contract_manager : contracts.ContractManager :=
  {| contracts.SectorRoots := λ _ _ _, inr [];
     contracts.storage_Read := λ _, inl (errors_New "sector not found") |}.

Definition example_prover : merkle.Prover :=
  {| merkle.BuildProof := λ _ _ _, [];
     merkle.ConvertProofOrdering := λ proof _, proof;
     merkle.BuildSectorRangeProof := λ _ _ _, [] |}.

(** ** Concrete stores *)

(** [addVolume] of the store tests: add a writable volume, grow it to
    [size] slots and make it available. *)
Definition addVolume (name : string) (size : nat) (s : sqlite.Store)
    : sqlite.Store * nat :=
  let added := sqlite.AddVolume name false s in
  (sqlite.SetAvailable added.2 true (sqlite.GrowVolume added.2 size added.1),
   added.2).

(** The sector root used for sector number [n] in the examples. *)
Definition root_of (n : nat) : Hash256 :=
  replicate 32 (default x00 (Byte.of_N (N.of_nat n))).

(** Stores each root, releasing its lock at once, as the tests do. *)
Definition store_all (roots : list Hash256) (s : sqlite.Store) : sqlite.Store :=
  foldl (λ s root,
           let stored := sqlite.StoreSector root (λ _ _, None) s in
           match stored.2 with
           | inr (loc, _) => sqlite.release loc stored.1
           | inl _ => stored.1
           end) s roots.

(** A volume with a single, empty slot; the same after one sector has
    been stored. *)
Definition one_slot_store : sqlite.Store := (addVolume "test" 1 sqlite.empty_store).1.

Definition one_sector_store : sqlite.Store :=
  (sqlite.StoreSector (address_of x11) (λ _ _, None) one_slot_store).1.

(** Scenario S3: volume 1 has 32 slots, all occupied; volume 2 has 8
    empty slots. *)
Definition two_volume_store : sqlite.Store :=
  (addVolume "v2" 8
     (store_all (root_of <$> seq 0 32)
        (addVolume "v1" 32 sqlite.empty_store).1)).1.

(** ** Reasoning principles for the runtime fragment *)

Section exec_lemmas.

Lemma bind_Return {A B} (m : exec A) (f : A → exec B) (b : B) :
  (m ≫= f) = Return b ↔ ∃ a, m = Return a ∧ f a = Return b.
Proof.
  destruct m as [a|p]; simpl; split.
  - intros Hf. by exists a.
  - by intros (a' & [= <-] & Hf).
  - done.
  - by intros (a' & ? & _).
Qed.

Lemma Return_inj {A} (a b : A) : Return a = Return b ↔ a = b.
Proof. split; [by intros [= ->] | by intros ->]. Qed.

Lemma index_Return {A} (s : list A) (i : nat) (x : A) :
  index s i = Return x ↔ s !! i = Some x.
Proof.
  unfold index. destruct (s !! i); split; intros Hx; by simplify_eq.
Qed.

Lemma Currency_Add_Return (c v s : Currency) :
  Currency_Add c v = Return s ↔ s = c + v ∧ c + v < 2 ^ 128.
Proof.
  unfold Currency_Add. case_decide; split.
  - by intros [= <-].
  - by intros [-> _].
  - done.
  - intros [_ ?]. lia.
Qed.

Lemma Currency_Sub_Return (c v d : Currency) :
  Currency_Sub c v = Return d ↔ d = c - v ∧ v ≤ c.
Proof.
  unfold Currency_Sub. case_decide; split.
  - by intros [= <-].
  - by intros [-> _].
  - done.
  - intros [_ ?]. lia.
Qed.

Lemma Currency_Cmp_eq (c v : Currency) : Currency_Cmp c v = 0 ↔ c = v.
Proof. unfold Currency_Cmp. repeat case_decide; lia. Qed.

Lemma Currency_Cmp_lt (c v : Currency) : Currency_Cmp c v < 0 ↔ c < v.
Proof. unfold Currency_Cmp. repeat case_decide; lia. Qed.

Lemma Currency_Cmp_gt (c v : Currency) : Currency_Cmp c v > 0 ↔ c > v.
Proof. unfold Currency_Cmp. repeat case_decide; lia. Qed.

(** A switch falls through exactly when every condition evaluates, without
    panicking, to false. *)
Lemma switch_nil (cases : list (exec bool * error)) :
  switch cases = Return nil ↔ Forall (λ ce, ce.1 = Return false) cases.
Proof.
  induction cases as [|[c e] cases IH]; simpl.
  - split; [by constructor | done].
  - rewrite Forall_cons. simpl. destruct c as [[|]|p]; simpl.
    + split; [done | by intros [? _]].
    + rewrite IH. tauto.
    + split; [done | by intros [? _]].
Qed.

(** A loop without state runs to completion exactly when each of its
    iterations does. *)
Lemma for_range_unit (body : nat → unit → exec (error + unit)) :
  ∀ n i,
    for_range i n body () = Return (inr ())
    ↔ ∀ k, (i ≤ k < i + n)%nat → body k () = Return (inr ()).
Proof.
  induction n as [|n IH]; intros i; simpl.
  - split; [intros _ k ?; lia | done].
  - split.
    + intros Hrun k Hk. apply bind_Return in Hrun as ([e|[]] & Hb & Hrest);
        [done|].
      destruct (decide (k = i)) as [->|]; [done|].
      apply (IH (S i)); [done | lia].
    + intros Hall. apply bind_Return. exists (inr ()). split.
      * apply Hall. lia.
      * apply IH. intros k ?. apply Hall. lia.
Qed.

End exec_lemmas.

(** ** Facts about the validators *)

Section validator_lemmas.
Context `{UnlockHasher}.

Lemma for_range_sumBody (outputs : list SiacoinOutput) :
  ∀ n i acc r,
    for_range i n (rhp.sumBody outputs) acc = Return r →
    r = inr (acc + total (take n (drop i outputs))).
Proof.
  induction n as [|n IH]; intros i acc r; simpl.
  - intros [= <-]. f_equal. lia.
  - intros Hrun. apply bind_Return in Hrun as (r1 & Hbody & Hrest).
    unfold rhp.sumBody in Hbody.
    apply bind_Return in Hbody as (o & Ho%index_Return & Hbody).
    apply bind_Return in Hbody as (p & [-> _]%Currency_Add_Return & [= <-]).
    apply IH in Hrest as ->.
    rewrite (drop_S _ _ _ Ho). simpl. f_equal. lia.
Qed.

Lemma for_range_addressBody (format : string) (proposed current : list SiacoinOutput) :
  ∀ n i acc t,
    for_range i n (rhp.addressBody format proposed current) acc = Return (inr t) →
    t = acc + total (take n (drop i proposed)).
Proof.
  induction n as [|n IH]; intros i acc t; simpl.
  - intros [= <-]. lia.
  - intros Hrun. apply bind_Return in Hrun as (r1 & Hbody & Hrest).
    unfold rhp.addressBody in Hbody.
    apply bind_Return in Hbody as (r & Hr%index_Return & Hbody).
    apply bind_Return in Hbody as (c & Hc%index_Return & Hbody).
    case_bool_decide; [by simplify_eq|].
    apply bind_Return in Hbody as (r' & Hr'%index_Return & Hbody).
    apply bind_Return in Hbody as (p & [-> _]%Currency_Add_Return & [= <-]).
    simplify_eq. apply IH in Hrest as ->.
    rewrite (drop_S _ _ _ Hr). simpl. lia.
Qed.

End validator_lemmas.

Section std_revision.
Context `{UnlockHasher}.

(** What an accepted pair satisfies, rule by rule. *)
Lemma validateStdRevision_accepts (current revision : FileContractRevision) :
  rhp.validateStdRevision current revision = Return nil →
  total (ValidProofOutputs revision) = total (ValidProofOutputs current)
  ∧ total (MissedProofOutputs revision) = total (ValidProofOutputs current)
  ∧ UnlockHash revision = UnlockHash current
  ∧ UnlockConditions_UnlockHash (RevisionUnlockConditions revision)
    = UnlockConditions_UnlockHash (RevisionUnlockConditions current)
  ∧ RevisionNumber current < RevisionNumber revision
  ∧ WindowStart revision = WindowStart current
  ∧ WindowEnd revision = WindowEnd current
  ∧ length (ValidProofOutputs revision) = length (ValidProofOutputs current)
  ∧ length (MissedProofOutputs revision) = length (MissedProofOutputs current)
  ∧ (∃ r c, ValidProofOutputs revision !! 0%nat = Some r
            ∧ ValidProofOutputs current !! 0%nat = Some c
            ∧ Value r ≤ Value c)
  ∧ (∃ r c, MissedProofOutputs revision !! 0%nat = Some r
            ∧ MissedProofOutputs current !! 0%nat = Some c
            ∧ Value r ≤ Value c).
Proof.
  unfold rhp.validateStdRevision. intros Hrun.
  apply bind_Return in Hrun as ([e|oldPayout] & Hold & Hrun); [done|].
  apply bind_Return in Hrun as ([e|validPayout] & Hvalid & Hrun); [done|].
  apply bind_Return in Hrun as ([e|missedPayout] & Hmissed & Hrun); [done|].
  apply for_range_sumBody in Hold as [= ->].
  apply for_range_addressBody in Hvalid as ->.
  apply for_range_addressBody in Hmissed as ->.
  rewrite !drop_0, !firstn_all in Hrun.
  apply switch_nil in Hrun.
  repeat match goal with
         | Hf : Forall _ (_ :: _) |- _ => apply Forall_cons in Hf as [? Hf]
         end.
  simpl in *.
  repeat match goal with
         | Hc : Return (bool_decide _) = Return false |- _ =>
             apply Return_inj, bool_decide_eq_false in Hc
         end.
  repeat match goal with
         | Hc : _ ≫= _ = Return _ |- _ =>
             apply bind_Return in Hc as (? & ?%index_Return & Hc)
         end.
  repeat match goal with
         | Hc : Return (bool_decide _) = Return false |- _ =>
             apply Return_inj, bool_decide_eq_false in Hc
         end.
  repeat match goal with
         | Hc : ¬ (Currency_Cmp _ _ ≠ 0) |- _ =>
             apply dec_stable in Hc; rewrite Currency_Cmp_eq in Hc
         | Hc : ¬ (Currency_Cmp _ _ > 0) |- _ => rewrite Currency_Cmp_gt in Hc
         | Hc : ¬ (_ ≠ _) |- _ => apply dec_stable in Hc
         end.
  repeat split; try done; try lia.
  all: do 2 eexists; repeat split; try done; lia.
Qed.

End std_revision.

(** Inversion of a successful run: splits the fall-through of a switch
    into its conditions and reads each of them as a proposition. *)
Ltac exec_inv :=
  repeat match goal with
  | Hf : Forall _ (_ :: _) |- _ => apply Forall_cons in Hf as [? Hf]
  | Hf : Forall _ [] |- _ => clear Hf
  | Hc : (_, _).1 = _ |- _ => simpl in Hc
  | Hc : _ ≫= _ = Return _ |- _ => apply bind_Return in Hc as (? & ? & Hc)
  | Hc : index _ _ = Return _ |- _ => rewrite index_Return in Hc
  | Hc : Currency_Add _ _ = Return _ |- _ =>
      rewrite Currency_Add_Return in Hc; destruct Hc as [-> ?]
  | Hc : Currency_Sub _ _ = Return _ |- _ =>
      rewrite Currency_Sub_Return in Hc; destruct Hc as [-> ?]
  | Hc : Return (bool_decide _) = Return false |- _ =>
      rewrite Return_inj, bool_decide_eq_false in Hc
  | Hc : ¬ (Currency_Cmp _ _ ≠ 0) |- _ =>
      apply dec_stable in Hc; rewrite Currency_Cmp_eq in Hc
  | Hc : ¬ (Currency_Cmp _ _ > 0) |- _ => rewrite Currency_Cmp_gt in Hc
  | Hc : ¬ (Currency_Cmp _ _ < 0) |- _ => rewrite Currency_Cmp_lt in Hc
  | Hc : ¬ (_ ≠ _) |- _ => apply dec_stable in Hc
  end.

Lemma bool_decide_ne_refl {A} `{EqDecision A} (x : A) :
  bool_decide (x ≠ x) = false.
Proof. by apply bool_decide_eq_false_2; intros []. Qed.

(** Runs a validator on concrete revisions, for any unlock hasher: the
    only hashes compared are those of identical unlock conditions. *)
Ltac run_validator :=
  intros;
  unfold rhp.ValidatePaymentRevision, rhp.ValidateProgramRevision,
    rhp.ValidateClearingRevision, rhp.ValidateContractRenewal,
    rhp.validateStdRevision;
  cbn [UnlockHash];
  repeat rewrite (bool_decide_ne_refl (UnlockConditions_UnlockHash _));
  vm_compute; reflexivity.

Lemma value_at_Some (outputs : list SiacoinOutput) (i : nat) (v : Z) :
  value_at outputs i = Some v ↔ ∃ o, outputs !! i = Some o ∧ Value o = v.
Proof.
  unfold value_at. rewrite fmap_Some.
  split; intros (o & ? & ?); by exists o.
Qed.

Section renewal.
Context `{UnlockHasher}.

(** What the renewal validator enforces on the host and void outputs. *)
Lemma ValidateContractRenewal_accepts existing renewal hostKey renterKey
    renterCost hostBurn currentHeight settings :
  rhp.ValidateContractRenewal existing renewal hostKey renterKey renterCost
    hostBurn currentHeight settings = Return nil →
  ∃ hostValid hostMissed void,
    value_at (ValidProofOutputs renewal) 1 = Some hostValid
    ∧ value_at (MissedProofOutputs renewal) 1 = Some hostMissed
    ∧ value_at (MissedProofOutputs renewal) 2 = Some void
    ∧ hostValid ≤ hostMissed
    ∧ renterCost ≤ hostMissed
    ∧ hostValid - hostBurn ≤ hostMissed
    ∧ hostBurn ≤ void.
Proof.
  unfold rhp.ValidateContractRenewal. intros Hrun.
  apply switch_nil in Hrun. exec_inv. simplify_eq.
  match goal with
  | Hv : ValidProofOutputs renewal !! 1%nat = Some ?v,
    Hm : MissedProofOutputs renewal !! 1%nat = Some ?m,
    Hb : MissedProofOutputs renewal !! 2%nat = Some ?b |- _ =>
      exists (Value v), (Value m), (Value b)
  end.
  rewrite !value_at_Some. repeat split; eauto; lia.
Qed.

End renewal.

Section clearing.
Context `{UnlockHasher}.

Lemma clearingBody_continues (current final : FileContractRevision) (i : nat) :
  rhp.clearingBody current final i () = Return (inr ())
  ↔ ∃ o, ValidProofOutputs current !! i = Some o
         ∧ ValidProofOutputs final !! i = Some o
         ∧ MissedProofOutputs final !! i = Some o.
Proof.
  unfold rhp.clearingBody. split.
  - intros Hrun.
    apply bind_Return in Hrun as ([vc ac] & Hc%index_Return & Hrun).
    apply bind_Return in Hrun as ([vv av] & Hv%index_Return & Hrun).
    apply bind_Return in Hrun as ([vm am] & Hm%index_Return & Hrun).
    apply bind_Return in Hrun as ([e|] & Hsw & Hrun); [done|].
    apply switch_nil in Hsw. exec_inv. simpl in *. simplify_eq.
    by eexists.
  - intros (o & Hc & Hv & Hm).
    apply index_Return in Hc, Hv, Hm. rewrite Hc, Hv, Hm. simpl.
    rewrite !bool_decide_ne_refl.
    rewrite (bool_decide_eq_false_2 (Currency_Cmp _ _ ≠ 0))
      by (intros Hne; apply Hne; by apply Currency_Cmp_eq).
    done.
Qed.

(** The clearing validator accepts exactly when the eight field rules
    hold and the loop finds, at every index of the final valid outputs,
    one and the same output in the three lists. *)
Lemma ValidateClearingRevision_accepts (current final : FileContractRevision) :
  rhp.ValidateClearingRevision current final = Return nil
  ↔ Filesize current = Filesize final
    ∧ FileMerkleRoot current = FileMerkleRoot final
    ∧ WindowStart current = WindowStart final
    ∧ WindowEnd current = WindowEnd final
    ∧ length (ValidProofOutputs final) = length (MissedProofOutputs final)
    ∧ RevisionNumber final = MaxRevisionNumber
    ∧ UnlockHash final = UnlockHash current
    ∧ UnlockConditions_UnlockHash (RevisionUnlockConditions final)
      = UnlockConditions_UnlockHash (RevisionUnlockConditions current)
    ∧ ∀ k, (k < length (ValidProofOutputs final))%nat →
        ∃ o, ValidProofOutputs current !! k = Some o
             ∧ ValidProofOutputs final !! k = Some o
             ∧ MissedProofOutputs final !! k = Some o.
Proof.
  unfold rhp.ValidateClearingRevision. split.
  - intros Hrun.
    apply bind_Return in Hrun as ([e|] & Hsw & Hrun); [done|].
    apply bind_Return in Hrun as ([e|[]] & Hloop & Hrun); [done|].
    apply switch_nil in Hsw. exec_inv.
    repeat split; try done.
    intros k Hk. apply clearingBody_continues.
    eapply for_range_unit; [done | lia].
  - intros (Hfs & Hroot & Hws & Hwe & Hlen & Hnum & Huh & Huc & Hall).
    apply bind_Return. exists None. split.
    + apply switch_nil. repeat constructor; simpl;
        by rewrite bool_decide_eq_false_2 by (intros Hne; by apply Hne).
    + apply bind_Return. exists (inr ()). split; [|done].
      apply for_range_unit. intros k Hk.
      apply clearingBody_continues, Hall. lia.
Qed.

End clearing.

(** ** The revision validator: claims *)

(** C1, as amended.  For every pair accepted by [validateStdRevision], the
    proposed valid outputs and the proposed missed outputs both total what
    the current VALID outputs total (the contract payout); the proposed
    missed total therefore equals the current missed total whenever the
    current revision is itself balanced. *)
Theorem validateStdRevision_preserves_payout `{UnlockHasher}
    (current revision : FileContractRevision) :
  rhp.validateStdRevision current revision = Return nil →
  total (ValidProofOutputs revision) = total (ValidProofOutputs current)
  ∧ total (MissedProofOutputs revision) = total (ValidProofOutputs current)
  ∧ (total (MissedProofOutputs current) = total (ValidProofOutputs current) →
     total (MissedProofOutputs revision) = total (MissedProofOutputs current)).
Proof.
  intros (Hvalid & Hmissed & _)%validateStdRevision_accepts.
  repeat split; [done..|]. intros Hbalanced. by rewrite Hbalanced.
Qed.

Lemma validateStdRevision_preserves_payout_witness :
  rhp.validateStdRevision (H := example_hasher) paid_current paid_proposed
    = Return nil
  ∧ total (ValidProofOutputs paid_proposed) = total (ValidProofOutputs paid_current)
  ∧ total (MissedProofOutputs paid_proposed) = total (ValidProofOutputs paid_current)
  ∧ (total (MissedProofOutputs paid_current) = total (ValidProofOutputs paid_current) →
     total (MissedProofOutputs paid_proposed) = total (MissedProofOutputs paid_current)).
Proof.
  assert (Hrun : rhp.validateStdRevision (H := example_hasher)
                   paid_current paid_proposed = Return nil)
    by (vm_compute; reflexivity).
  split; [exact Hrun|].
  exact (validateStdRevision_preserves_payout paid_current paid_proposed Hrun).
Defined.

(** C1, as stated, fails: [c1_current] has missed outputs totalling 20
    against valid outputs totalling 15; the proposal [c1_proposed] is
    accepted although its missed outputs total 15. *)
Lemma validateStdRevision_missed_sum_counterexample :
  (∀ H : UnlockHasher,
     rhp.validateStdRevision c1_current c1_proposed = Return nil)
  ∧ total (MissedProofOutputs c1_proposed) = 15
  ∧ total (MissedProofOutputs c1_current) = 20.
Proof.
  split; [run_validator|]. split; reflexivity.
Qed.

(** C2.  The renewal validator accepts [inverted_renewal], whose host
    missed payout (20) is larger than its host valid payout (10), and
    rejects [burning_renewal], whose host missed payout (10) is the valid
    payout (20) less the burn (10) -- with the message that the valid
    payout must be the greater one. *)
Theorem ValidateContractRenewal_comparison_inverted :
  ∀ H : UnlockHasher,
    rhp.ValidateContractRenewal paid_current inverted_renewal host_key
      renter_key 5 0 250 renewal_settings = Return nil
    ∧ value_at (MissedProofOutputs inverted_renewal) 1 = Some 20
    ∧ value_at (ValidProofOutputs inverted_renewal) 1 = Some 10
    ∧ rhp.ValidateContractRenewal paid_current burning_renewal host_key
        renter_key 5 10 250 renewal_settings
      = Return (Some (errors_New
          "host valid payout must be greater than host missed payout")).
Proof.
  intros H. unfold inverted_renewal, burning_renewal, renewal_with.
  split; [run_validator|]. split; [reflexivity|].
  split; [reflexivity|run_validator].
Qed.

(** C3, as amended.  For a final revision with as many valid outputs as
    the current one, [ValidateClearingRevision] accepts if and only if
    filesize, file Merkle root, window start, window end and unlock hash
    are unchanged, the hash of the unlock conditions is unchanged, the
    revision number is the maximum, the final valid outputs are the
    current valid outputs (values and addresses), and the final missed
    outputs are the final valid outputs. *)
Theorem ValidateClearingRevision_iff `{UnlockHasher}
    (current final : FileContractRevision) :
  length (ValidProofOutputs final) = length (ValidProofOutputs current) →
  rhp.ValidateClearingRevision current final = Return nil
  ↔ Filesize final = Filesize current
    ∧ FileMerkleRoot final = FileMerkleRoot current
    ∧ WindowStart final = WindowStart current
    ∧ WindowEnd final = WindowEnd current
    ∧ UnlockHash final = UnlockHash current
    ∧ UnlockConditions_UnlockHash (RevisionUnlockConditions final)
      = UnlockConditions_UnlockHash (RevisionUnlockConditions current)
    ∧ RevisionNumber final = MaxUint64
    ∧ ValidProofOutputs final = ValidProofOutputs current
    ∧ MissedProofOutputs final = ValidProofOutputs final.
Proof.
  intros Hlen. rewrite ValidateClearingRevision_accepts. split.
  - intros (Hfs & Hroot & Hws & Hwe & Hlen' & Hnum & Huh & Huc & Hall).
    repeat split; try done.
    + apply list_eq. intros k.
      destruct (decide (k < length (ValidProofOutputs final))%nat) as [Hk|Hk].
      * destruct (Hall k Hk) as (o & -> & -> & _). done.
      * rewrite !lookup_ge_None_2; [done|lia..].
    + apply list_eq. intros k.
      destruct (decide (k < length (ValidProofOutputs final))%nat) as [Hk|Hk].
      * destruct (Hall k Hk) as (o & _ & -> & ->). done.
      * rewrite !lookup_ge_None_2; [done|lia..].
  - intros (Hfs & Hroot & Hws & Hwe & Huh & Huc & Hnum & Hvalid & Hmissed).
    repeat split; try done.
    + by rewrite Hmissed.
    + intros k Hk. destruct (lookup_lt_is_Some_2 _ _ Hk) as [o Ho].
      exists o. by rewrite Hmissed, <- Hvalid.
Qed.

Lemma ValidateClearingRevision_iff_witness :
  rhp.ValidateClearingRevision (H := example_hasher) paid_current clearing_final
    = Return nil
  ↔ Filesize clearing_final = Filesize paid_current
    ∧ FileMerkleRoot clearing_final = FileMerkleRoot paid_current
    ∧ WindowStart clearing_final = WindowStart paid_current
    ∧ WindowEnd clearing_final = WindowEnd paid_current
    ∧ UnlockHash clearing_final = UnlockHash paid_current
    ∧ example_hasher (RevisionUnlockConditions clearing_final)
      = example_hasher (RevisionUnlockConditions paid_current)
    ∧ RevisionNumber clearing_final = MaxUint64
    ∧ ValidProofOutputs clearing_final = ValidProofOutputs paid_current
    ∧ MissedProofOutputs clearing_final = ValidProofOutputs clearing_final.
Proof.
  apply (ValidateClearingRevision_iff (H := example_hasher)
           paid_current clearing_final).
  reflexivity.
Defined.

(** C3, as stated, fails: [readdressed_final] meets every condition of
    the rule as specified, yet it is rejected because the address of
    valid output 1 differs from the current one. *)
Lemma ValidateClearingRevision_address_counterexample :
  clearing_rule_as_specified paid_current readdressed_final
  ∧ ∀ H : UnlockHasher,
      rhp.ValidateClearingRevision paid_current readdressed_final
      = Return (Some (fmt_Errorf
          "valid proof output address %v must not change" [1])).
Proof.
  split; [|run_validator].
  repeat split; try reflexivity.
  - by destruct i as [|[|[|i]]].
Qed.

Section payment.
Context `{UnlockHasher}.

Lemma ValidatePaymentRevision_std current revision payment :
  rhp.ValidatePaymentRevision current revision payment = Return nil →
  rhp.validateStdRevision current revision = Return nil.
Proof.
  unfold rhp.ValidatePaymentRevision. intros Hrun.
  by apply bind_Return in Hrun as ([e|] & Hstd & Hrun).
Qed.

Lemma ValidateProgramRevision_std current revision storage collateral :
  rhp.ValidateProgramRevision current revision storage collateral = Return nil →
  rhp.validateStdRevision current revision = Return nil.
Proof.
  unfold rhp.ValidateProgramRevision. intros Hrun.
  by apply bind_Return in Hrun as ([e|] & Hstd & Hrun).
Qed.

End payment.

(** C4, as amended.  [ValidateClearingRevision] accepts a revision only
    if its revision number is the maximum; [validateStdRevision], and so
    [ValidatePaymentRevision] and [ValidateProgramRevision], accept a
    revision only if its number is strictly greater than the current one,
    whatever that number is. *)
Theorem revision_number_rules `{UnlockHasher}
    (current revision : FileContractRevision) :
  (rhp.ValidateClearingRevision current revision = Return nil →
   RevisionNumber revision = MaxRevisionNumber)
  ∧ (rhp.validateStdRevision current revision = Return nil →
     RevisionNumber current < RevisionNumber revision)
  ∧ (∀ payment,
       rhp.ValidatePaymentRevision current revision payment = Return nil →
       RevisionNumber current < RevisionNumber revision)
  ∧ (∀ storage collateral,
       rhp.ValidateProgramRevision current revision storage collateral
         = Return nil →
       RevisionNumber current < RevisionNumber revision).
Proof.
  assert (Hstd : rhp.validateStdRevision current revision = Return nil →
                 RevisionNumber current < RevisionNumber revision).
  { intros Hrun. apply validateStdRevision_accepts in Hrun. tauto. }
  repeat split.
  - intros Hrun. apply ValidateClearingRevision_accepts in Hrun. tauto.
  - exact Hstd.
  - intros payment Hrun. by eapply Hstd, ValidatePaymentRevision_std.
  - intros storage collateral Hrun. by eapply Hstd, ValidateProgramRevision_std.
Qed.

Lemma revision_number_rules_witness :
  RevisionNumber clearing_final = MaxRevisionNumber
  ∧ RevisionNumber paid_current < RevisionNumber paid_proposed.
Proof.
  pose proof (revision_number_rules (H := example_hasher)
                paid_current clearing_final) as (Hclearing & _).
  pose proof (revision_number_rules (H := example_hasher)
                paid_current paid_proposed) as (_ & _ & Hpayment & _).
  split.
  - apply Hclearing. vm_compute; reflexivity.
  - apply (Hpayment 3). vm_compute; reflexivity.
Defined.

(** C4, as stated, fails: [max_proposed] carries the maximum revision
    number and is accepted by the standard, the payment and the program
    validators. *)
Lemma max_revision_number_counterexample :
  RevisionNumber max_proposed = MaxUint64
  ∧ ∀ H : UnlockHasher,
      rhp.validateStdRevision paid_current max_proposed = Return nil
      ∧ rhp.ValidatePaymentRevision paid_current max_proposed 0 = Return nil
      ∧ rhp.ValidateProgramRevision paid_current max_proposed 0 0 = Return nil.
Proof.
  split; [reflexivity|]. intros H. repeat split; run_validator.
Qed.

(** C5.  On a proposed revision whose output values are 128-bit amounts,
    [ValidatePaymentRevision] accepts exactly when [validateStdRevision]
    accepts and the renter's valid and missed outputs (index 0) each went
    down by [payment] while the host's valid and missed outputs (index 1)
    each went up by [payment]. *)
Theorem ValidatePaymentRevision_iff `{UnlockHasher}
    (current revision : FileContractRevision) (payment : Currency) :
  well_formed_outputs revision →
  rhp.ValidatePaymentRevision current revision payment = Return nil
  ↔ rhp.validateStdRevision current revision = Return nil
    ∧ payment_moved current revision payment.
Proof.
  intros [Hwfv Hwfm]. split.
  - intros Hrun. split; [by eapply ValidatePaymentRevision_std|].
    unfold rhp.ValidatePaymentRevision in Hrun.
    apply bind_Return in Hrun as ([e|] & _ & Hrun); [done|].
    apply switch_nil in Hrun. exec_inv.
    repeat match goal with
           | Hl : ?l !! ?i = Some ?o |- _ =>
               assert (value_at l i = Some (Value o))
                 by (apply value_at_Some; by exists o);
               clear Hl
           end.
    unfold payment_moved. do 4 eexists. repeat split; try eassumption.
    all: match goal with
         | Hv : value_at ?l ?i = Some ?v |- value_at ?l ?i = Some _ =>
             rewrite Hv; f_equal; congruence
         end.
  - intros (Hstd & rv & rm & hv & hm & Hcv0 & Hcm0 & Hcv1 & Hcm1
            & Hrv0 & Hrm0 & Hrv1 & Hrm1).
    apply value_at_Some in Hcv0 as (cv0 & Hcv0 & <-), Hcm0 as (cm0 & Hcm0 & <-),
      Hcv1 as (cv1 & Hcv1 & <-), Hcm1 as (cm1 & Hcm1 & <-),
      Hrv0 as (rv0 & Hrv0 & Erv0), Hrm0 as (rm0 & Hrm0 & Erm0),
      Hrv1 as (rv1 & Hrv1 & Erv1), Hrm1 as (rm1 & Hrm1 & Erm1).
    pose proof (Forall_lookup_1 _ _ _ _ Hwfv Hrv0) as Brv0.
    pose proof (Forall_lookup_1 _ _ _ _ Hwfm Hrm0) as Brm0.
    pose proof (Forall_lookup_1 _ _ _ _ Hwfv Hrv1) as Brv1.
    pose proof (Forall_lookup_1 _ _ _ _ Hwfm Hrm1) as Brm1.
    unfold is_currency in *. simpl in *.
    unfold rhp.ValidatePaymentRevision.
    apply bind_Return. exists None. split; [done|]. cbv beta iota.
    apply index_Return in Hcv0, Hcm0, Hcv1, Hcm1, Hrv0, Hrm0, Hrv1, Hrm1.
    apply switch_nil. repeat constructor; simpl.
    all: repeat match goal with
                | Hi : index ?l ?i = Return _ |- context [index ?l ?i] =>
                    rewrite Hi; simpl
                end.
    all: unfold Currency_Sub, Currency_Add.
    all: rewrite decide_True by lia; simpl.
    all: rewrite bool_decide_eq_false_2; [done|].
    all: intros Hne; apply Hne, Currency_Cmp_eq; lia.
Qed.

Lemma ValidatePaymentRevision_iff_witness :
  well_formed_outputs paid_proposed
  ∧ (rhp.ValidatePaymentRevision (H := example_hasher)
       paid_current paid_proposed 3 = Return nil
     ↔ rhp.validateStdRevision (H := example_hasher)
         paid_current paid_proposed = Return nil
       ∧ payment_moved paid_current paid_proposed 3).
Proof.
  assert (Hwf : well_formed_outputs paid_proposed).
  { split; repeat constructor; vm_compute; done. }
  split; [exact Hwf|].
  exact (ValidatePaymentRevision_iff (H := example_hasher)
           paid_current paid_proposed 3 Hwf).
Defined.

(** Scenario S5: moving exactly 3 from the renter to the host on both
    output lists passes; moving only 2 on the missed outputs does not. *)
Example payment_scenario :
  ∀ H : UnlockHasher,
    rhp.ValidatePaymentRevision paid_current paid_proposed 3 = Return nil
    ∧ rhp.ValidatePaymentRevision paid_current
        (revision_with 2
           [output 7 renter_address; output 8 host_address]
           [output 8 renter_address; output 7 host_address;
            output 0 void_address]) 3
      = Return (Some (errors_New
          "renter missed proof output is not reduced by the payment amount")).
Proof. intros H. split; run_validator. Qed.

(** C10.  [validateStdRevision] indexes the current output lists at every
    index of the proposed ones before it compares the lengths, and it
    reads output 0 of lists that may be empty: it panics on
    [longer_proposed], which has one valid output more than
    [paid_current], and on a pair of revisions without outputs. *)
Theorem validateStdRevision_index_out_of_range :
  ∀ H : UnlockHasher,
    rhp.validateStdRevision paid_current longer_proposed
      = Panic index_out_of_range
    ∧ rhp.validateStdRevision empty_current empty_proposed
      = Panic index_out_of_range.
Proof.
  intros H. split; run_validator.
Qed.

(** ** Segment selection *)

Section big_endian.

Lemma byte_val_bounds (b : byte) : 0 ≤ byte_val b < 256.
Proof.
  unfold byte_val. pose proof (Byte.to_N_bounded b). lia.
Qed.

Lemma big_endian_snoc (bs : list byte) (b : byte) :
  big_endian (bs ++ [b]) = big_endian bs * 256 + byte_val b.
Proof. unfold big_endian. by rewrite foldl_app. Qed.

Lemma big_endian_app (hi lo : list byte) :
  big_endian (hi ++ lo) = big_endian hi * 256 ^ Z.of_nat (length lo) + big_endian lo.
Proof.
  induction lo as [|b lo IH] using rev_ind.
  - rewrite app_nil_r. simpl. unfold big_endian at 3. simpl. lia.
  - rewrite app_assoc, !big_endian_snoc, IH, length_app. simpl.
    replace (Z.of_nat (length lo + 1)) with (Z.of_nat (length lo) + 1) by lia.
    rewrite Z.pow_add_r by lia. lia.
Qed.

Lemma big_endian_bounds (bs : list byte) :
  0 ≤ big_endian bs < 256 ^ Z.of_nat (length bs).
Proof.
  induction bs as [|b bs IH] using rev_ind.
  - by vm_compute.
  - rewrite big_endian_snoc, length_app. simpl.
    replace (Z.of_nat (length bs + 1)) with (Z.of_nat (length bs) + 1) by lia.
    rewrite Z.pow_add_r by lia. pose proof (byte_val_bounds b). lia.
Qed.

(** Or-ing a shifted value onto one that fits below the shift is adding. *)
Lemma lor_shiftl_add (acc b k : Z) :
  0 ≤ k → 0 ≤ acc < 2 ^ k → 0 ≤ b →
  Z.lor acc (Z.shiftl b k) = acc + b * 2 ^ k.
Proof.
  intros Hk Hacc Hb. rewrite <- Z.shiftl_mul_pow2 by done.
  symmetry. apply Z.add_nocarry_lor. apply Z.bits_inj'. intros n Hn.
  rewrite Z.land_spec, Z.bits_0.
  destruct (decide (n < k)) as [Hlt|Hge].
  - rewrite (Z.shiftl_spec_low _ _ _ Hlt). apply andb_false_r.
  - destruct (decide (acc = 0)) as [->|Hne]; [by rewrite Z.bits_0|].
    rewrite (Z.bits_above_log2 acc n); [done|lia|].
    apply Z.log2_lt_pow2; [lia|].
    apply Z.lt_le_trans with (2 ^ k); [lia|].
    apply Z.pow_le_mono_r; lia.
Qed.

Lemma BigEndian_Uint64_big_endian (b : list byte) :
  (8 ≤ length b)%nat →
  BigEndian_Uint64 b = Return (big_endian (take 8 b)).
Proof.
  intros Hlen.
  destruct b as [|b0 [|b1 [|b2 [|b3 [|b4 [|b5 [|b6 [|b7 rest]]]]]]]];
    simpl in Hlen; try lia.
  unfold BigEndian_Uint64. cbn [index lookup list_lookup mbind exec_bind].
  f_equal. unfold big_endian. simpl take. rewrite take_0. cbn [foldl].
  pose proof (byte_val_bounds b0). pose proof (byte_val_bounds b1).
  pose proof (byte_val_bounds b2). pose proof (byte_val_bounds b3).
  pose proof (byte_val_bounds b4). pose proof (byte_val_bounds b5).
  pose proof (byte_val_bounds b6). pose proof (byte_val_bounds b7).
  rewrite (lor_shiftl_add (byte_val b7) (byte_val b6) 8) by lia.
  rewrite (lor_shiftl_add _ (byte_val b5) 16) by lia.
  rewrite (lor_shiftl_add _ (byte_val b4) 24) by lia.
  rewrite (lor_shiftl_add _ (byte_val b3) 32) by lia.
  rewrite (lor_shiftl_add _ (byte_val b2) 40) by lia.
  rewrite (lor_shiftl_add _ (byte_val b1) 48) by lia.
  rewrite (lor_shiftl_add _ (byte_val b0) 56) by lia.
  lia.
Qed.

End big_endian.

Section segment.
Context `{blake2b.Digest}.

Lemma reduceBody_step (seed : list byte) (numSegments : Z) (i : nat) (r : Z) :
  length seed = 32%nat → (i < 4)%nat → 0 ≤ r < numSegments →
  contracts.reduceBody seed numSegments i r
  = Return ((r * 2 ^ 64 + big_endian (take 8 (drop (i * 8) seed)))
            mod numSegments).
Proof.
  intros Hlen Hi Hr. unfold contracts.reduceBody, slice_from.
  rewrite decide_True by lia. cbn [mbind exec_bind].
  rewrite BigEndian_Uint64_big_endian by (rewrite length_drop; lia).
  cbn [mbind exec_bind]. unfold bits_Div64.
  rewrite !decide_False by lia. done.
Qed.

Lemma mod_reduce_step (a b c n : Z) :
  (a mod n * c + b) mod n = (a * c + b) mod n.
Proof.
  destruct (decide (n = 0)) as [->|Hn]; [by rewrite !Z.mod_0_r|].
  rewrite <- Z.add_mod_idemp_l by done.
  rewrite Z.mul_mod_idemp_l by done.
  by rewrite Z.add_mod_idemp_l by done.
Qed.

(** The 32-byte digest splits into four 8-byte groups. *)
Lemma big_endian_groups (seed : list byte) :
  length seed = 32%nat →
  big_endian seed
  = ((big_endian (take 8 (drop 0 seed)) * 2 ^ 64
      + big_endian (take 8 (drop 8 seed))) * 2 ^ 64
     + big_endian (take 8 (drop 16 seed))) * 2 ^ 64
    + big_endian (take 8 (drop 24 seed)).
Proof.
  intros Hlen.
  assert (Hsplit : ∀ k k', k' = (k + 8)%nat → (k' ≤ 32)%nat →
            big_endian (drop k seed)
            = big_endian (take 8 (drop k seed))
              * 256 ^ Z.of_nat (32 - k') + big_endian (drop k' seed)).
  { intros k k' -> Hk. rewrite <- (take_drop 8 (drop k seed)) at 1.
    rewrite big_endian_app, !drop_drop, length_drop.
    by replace (length seed - (k + 8))%nat with (32 - (k + 8))%nat by lia. }
  rewrite <- (drop_0 seed) at 1.
  rewrite (Hsplit 0%nat 8%nat), (Hsplit 8%nat 16%nat),
    (Hsplit 16%nat 24%nat), (Hsplit 24%nat 32%nat) by lia.
  simpl Nat.sub.
  rewrite (drop_ge seed 32) by lia.
  change (big_endian []) with 0.
  change (256 ^ Z.of_nat 24) with (2 ^ 64 * 2 ^ 64 * 2 ^ 64).
  change (256 ^ Z.of_nat 16) with (2 ^ 64 * 2 ^ 64).
  change (256 ^ Z.of_nat 8) with (2 ^ 64).
  change (256 ^ Z.of_nat 0) with 1.
  ring.
Qed.

Lemma numSegments_ceil_div (filesize : Z) :
  0 < filesize ≤ MaxUint64 →
  (if bool_decide (filesize mod merkle.LeafSize ≠ 0)
   then uint64_add (filesize / merkle.LeafSize) 1
   else filesize / merkle.LeafSize)
  = ceil_div filesize merkle.LeafSize
  ∧ 0 < ceil_div filesize merkle.LeafSize.
Proof.
  unfold MaxUint64, merkle.LeafSize, ceil_div, uint64_add.
  change (2 ^ 64) with 18446744073709551616. intros Hsize.
  case_bool_decide as Hrem.
  - rewrite Z.mod_small by (Z.to_euclidean_division_equations; lia).
    Z.to_euclidean_division_equations; lia.
  - Z.to_euclidean_division_equations; lia.
Qed.

End segment.

(** C6.  For every block id, contract id and 64-bit file size,
    [storageProofSegment] returns 0 for an empty file and otherwise the
    BLAKE2b-256 digest of [bid ++ fcid], read as a 256-bit big-endian
    integer, modulo [ceil (filesize / 64)]; the result is then below
    [ceil (filesize / 64)].  The function never panics, and being a
    function of the digest and its three arguments it is deterministic. *)
Theorem storageProofSegment_spec `{blake2b.Digest}
    (bid fcid : Hash256) (filesize : Z) :
  is_uint64 filesize →
  contracts.storageProofSegment bid fcid filesize
  = Return (if decide (filesize = 0) then 0
            else big_endian (blake2b.Sum256 (bid ++ fcid))
                 mod ceil_div filesize 64)
  ∧ (filesize ≠ 0 →
     0 ≤ big_endian (blake2b.Sum256 (bid ++ fcid)) mod ceil_div filesize 64
       < ceil_div filesize 64).
Proof.
  intros [Hlo Hhi]. unfold contracts.storageProofSegment.
  case_bool_decide as Hzero; case_decide; try done.
  destruct (numSegments_ceil_div filesize) as [-> Hpos]; [lia|].
  change merkle.LeafSize with 64 in *.
  split; [|intros _; by apply Z.mod_pos_bound].
  set (n := ceil_div filesize 64) in *.
  set (seed := blake2b.Sum256 (bid ++ fcid)).
  pose proof (blake2b.Sum256_length (bid ++ fcid)) as Hlen. fold seed in Hlen.
  cbn [for_loop].
  rewrite reduceBody_step by (done || lia). cbn [mbind exec_bind].
  rewrite reduceBody_step by (done || lia || by apply Z.mod_pos_bound).
  cbn [mbind exec_bind].
  rewrite reduceBody_step by (done || lia || by apply Z.mod_pos_bound).
  cbn [mbind exec_bind].
  rewrite reduceBody_step by (done || lia || by apply Z.mod_pos_bound).
  cbn [mbind exec_bind]. f_equal.
  rewrite (mod_reduce_step (0 * _ + _)).
  rewrite (mod_reduce_step ((0 * _ + _) * _ + _)).
  rewrite (mod_reduce_step (((0 * _ + _) * _ + _) * _ + _)).
  rewrite (big_endian_groups seed Hlen).
  f_equal.
Qed.

Lemma storageProofSegment_spec_witness :
  is_uint64 4194304
  ∧ contracts.storageProofSegment (H := example_digest)
      (address_of xff) (address_of x00) 4194304
    = Return (if decide (4194304 = 0) then 0
              else big_endian (@blake2b.Sum256 example_digest
                                 (address_of xff ++ address_of x00))
                   mod ceil_div 4194304 64).
Proof.
  assert (Hsize : is_uint64 4194304) by (unfold is_uint64, MaxUint64; lia).
  split; [exact Hsize|].
  exact (proj1 (storageProofSegment_spec (H := example_digest)
                  (address_of xff) (address_of x00) 4194304 Hsize)).
Defined.

(** A one-sector file (4 MiB) has 65536 segments; with an all-ones digest
    the selected segment is the last one. *)
Example storageProofSegment_one_sector :
  contracts.storageProofSegment (H := example_digest)
    (address_of xff) (address_of x00) 4194304 = Return 65535
  ∧ contracts.storageProofSegment (H := example_digest)
      (address_of xff) (address_of x00) 0 = Return 0.
Proof. split; vm_compute; reflexivity. Qed.

(** ** The metadata store *)

Section store_lemmas.
Import sqlite.
Local Open Scope nat_scope.

(** Replacing one row changes a filtered count by what the old and the
    new row contribute. *)
Lemma filter_insert_length {A} (P : A → Prop) `{∀ x, Decision (P x)}
    (l : list A) (i : nat) (x y : A) :
  l !! i = Some x →
  length (filter P (<[i := y]> l)) + (if decide (P x) then 1 else 0)
  = length (filter P l) + (if decide (P y) then 1 else 0).
Proof.
  intros Hi. pose proof (lookup_lt_Some _ _ _ Hi) as Hlt.
  rewrite insert_take_drop by done.
  rewrite <- (take_drop_middle l i x Hi) at 3.
  rewrite !filter_app, !filter_cons, !length_app.
  repeat case_decide; simpl; lia.
Qed.

(** The same for the roots read off the rows. *)
Lemma omap_insert_Permutation {A B} (f : A → option B)
    (l : list A) (i : nat) (x y : A) :
  l !! i = Some x →
  omap f (<[i := y]> l) ++ option_list (f x)
  ≡ₚ omap f l ++ option_list (f y).
Proof.
  intros Hi. pose proof (lookup_lt_Some _ _ _ Hi) as Hlt.
  rewrite insert_take_drop by done.
  rewrite <- (take_drop_middle l i x Hi) at 3.
  rewrite !omap_app. simpl.
  destruct (f x) as [b|], (f y) as [b'|]; simpl;
    rewrite ?app_nil_r; solve_Permutation.
Qed.

Lemma elem_of_indexed (rows : list volume_sector) (i : nat) (row : volume_sector) :
  (i, row) ∈ indexed rows ↔ rows !! i = Some row.
Proof.
  unfold indexed. rewrite elem_of_lookup_imap. split.
  - by intros (j & y & [= -> ->] & Hj).
  - intros Hi. by exists i, row.
Qed.

Lemma indexed_positions (rows : list volume_sector) :
  (indexed rows).*1 = seq 0 (length rows).
Proof.
  unfold indexed. apply list_eq. intros i.
  rewrite list_lookup_fmap, list_lookup_imap.
  destruct (rows !! i) as [row|] eqn:Hi; simpl.
  - symmetry. apply lookup_seq. split; [done|]. by eapply lookup_lt_Some.
  - symmetry. apply lookup_seq_ge. by apply lookup_ge_None.
Qed.

Lemma filter_imap_length (P : volume_sector → Prop) `{∀ x, Decision (P x)}
    (rows : list volume_sector) :
  ∀ f : nat → volume_sector → nat * volume_sector,
    (∀ i row, (f i row).2 = row) →
    length (filter (λ x : nat * volume_sector, P x.2) (imap f rows))
    = length (filter P rows).
Proof.
  induction rows as [|row rows IH]; intros f Hf; [done|].
  rewrite imap_cons, !filter_cons, Hf.
  specialize (IH (f ∘ S) (λ i r, Hf (S i) r)).
  case_decide; simpl; by rewrite IH.
Qed.

Lemma filter_indexed_length (P : volume_sector → Prop) `{∀ x, Decision (P x)}
    (rows : list volume_sector) :
  length (filter (λ x : nat * volume_sector, P x.2) (indexed rows))
  = length (filter P rows).
Proof. by apply filter_imap_length. Qed.

End store_lemmas.

Section store_sector.
Import sqlite.
Local Open Scope nat_scope.

Lemma elem_of_free_slots (s : Store) (i : nat) (row : volume_sector) :
  (i, row) ∈ free_slots s
  ↔ volume_sectors s !! i = Some row
    ∧ sector_root row = None ∧ writable s (volume_id row).
Proof.
  unfold free_slots. rewrite merge_sort_Permutation, list_elem_of_filter.
  rewrite elem_of_indexed. simpl. tauto.
Qed.

(** A root that some slot holds is found again, reported with
    [exists = true], and storing it changes no slot. *)
Lemma StoreSector_existing (root : Hash256) on_placed (s : Store)
    (i : nat) (row : volume_sector) :
  list_find (λ row, sector_root row = Some root) (volume_sectors s)
    = Some (i, row) →
  ∃ s', StoreSector root on_placed s
        = (s', match on_placed (location row root) true with
               | Some e => inl (storage.ErrCallback e)
               | None => inr (location row root, true)
               end)
        ∧ volume_sectors s' = volume_sectors s.
Proof.
  intros Hfind. unfold StoreSector. rewrite Hfind.
  destruct (on_placed _ true); eauto.
Qed.

End store_sector.

(** ** The metadata store: claims *)

(** C7.  When [StoreSector] has stored or found [root] at [loc], storing
    [root] again reports the same location with [exists = true] (or
    returns the error of the second callback), allocates no slot and
    leaves [used_sectors] of every volume unchanged; of the two calls
    only the first, and only when the root was new, adds one to
    [used_sectors], in the volume of [loc]. *)
Theorem StoreSector_idempotent (root : Hash256)
    (on_placed1 on_placed2 : storage.SectorLocation → bool → option error)
    (s s1 : sqlite.Store) (loc : storage.SectorLocation) (existed : bool) :
  sqlite.StoreSector root on_placed1 s = (s1, inr (loc, existed)) →
  ∃ s2,
    sqlite.StoreSector root on_placed2 s1
    = (s2, match on_placed2 loc true with
           | Some e => inl (storage.ErrCallback e)
           | None => inr (loc, true)
           end)
    ∧ sqlite.volume_sectors s2 = sqlite.volume_sectors s1
    ∧ (∀ volume, sqlite.used_sectors s2 volume = sqlite.used_sectors s1 volume)
    ∧ (∀ volume,
         sqlite.used_sectors s1 volume
         = (sqlite.used_sectors s volume
            + if decide (existed = false ∧ volume = storage.Volume loc)
              then 1 else 0)%nat).
Proof.
  unfold sqlite.StoreSector at 1. intros Hfirst.
  destruct (list_find _ (sqlite.volume_sectors s)) as [[i row]|] eqn:Hfind.
  - (* the root was already stored *)
    destruct (on_placed1 _ true); simplify_eq.
    destruct (StoreSector_existing root on_placed2 (sqlite.lock row s) i row)
      as (s2 & Hsecond & Hrows); [done|].
    exists s2. split; [done|]. split; [done|]. split.
    + intros volume. unfold sqlite.used_sectors. by rewrite Hrows.
    + intros volume. rewrite decide_False by (by intros [? _]).
      unfold sqlite.used_sectors. simpl. lia.
  - (* the root is new *)
    destruct (sqlite.free_slots s) as [|[i row] rest] eqn:Hfree; [done|].
    destruct (on_placed1 _ false); simplify_eq.
    assert (Hslot : (i, row) ∈ sqlite.free_slots s) by (rewrite Hfree; left).
    apply elem_of_free_slots in Hslot as (Hi & Hempty & _).
    pose proof (lookup_lt_Some _ _ _ Hi) as Hlt.
    apply list_find_None in Hfind.
    set (row' := sqlite.set_root (Some root) row).
    set (s1 := sqlite.lock row _).
    assert (Hfind' : list_find (λ r, sqlite.sector_root r = Some root)
                       (sqlite.volume_sectors s1) = Some (i, row')).
    { apply list_find_Some. simpl. split; [by apply list_lookup_insert_eq|].
      split; [done|]. intros j y Hj Hji.
      rewrite list_lookup_insert_ne in Hj by lia.
      by eapply Forall_lookup_1 in Hfind. }
    destruct (StoreSector_existing root on_placed2 s1 i row' Hfind')
      as (s2 & Hsecond & Hrows).
    exists s2. split; [done|]. split; [done|]. split.
    + intros volume. unfold sqlite.used_sectors. by rewrite Hrows.
    + intros volume. unfold sqlite.used_sectors. simpl.
      pose proof (filter_insert_length
        (λ r, sqlite.volume_id r = volume ∧ is_Some (sqlite.sector_root r))
        (sqlite.volume_sectors s) i row row' Hi) as Hcount.
      cbv beta in Hcount. subst row'. simpl in *.
      repeat case_decide; try lia; exfalso; destruct_and?;
        rewrite ?Hempty in *; simplify_eq;
        try (by eapply is_Some_None);
        match goal with
        | Hn : ¬ (_ ∧ is_Some (Some _)) |- _ =>
            apply Hn; split; [done|by eexists]
        | Hn : ¬ (_ = _ ∧ _ = _) |- _ => apply Hn; by split
        end.
Qed.

Lemma StoreSector_idempotent_witness :
  ∃ s2,
    sqlite.StoreSector (address_of x11) (λ _ _, None)
      (sqlite.StoreSector (address_of x11) (λ _ _, None) one_slot_store).1
    = (s2, inr ({| storage.Volume := 1; storage.Index := 0;
                   storage.Root := address_of x11 |}, true))
    ∧ sqlite.volume_sectors s2
      = sqlite.volume_sectors
          (sqlite.StoreSector (address_of x11) (λ _ _, None) one_slot_store).1
    ∧ (∀ volume,
         sqlite.used_sectors s2 volume
         = sqlite.used_sectors
             (sqlite.StoreSector (address_of x11) (λ _ _, None) one_slot_store).1
             volume)
    ∧ (∀ volume,
         sqlite.used_sectors
           (sqlite.StoreSector (address_of x11) (λ _ _, None) one_slot_store).1
           volume
         = (sqlite.used_sectors one_slot_store volume
            + if decide (false = false ∧ volume = 1%nat) then 1 else 0)%nat).
Proof.
  apply (StoreSector_idempotent (address_of x11) (λ _ _, None) (λ _ _, None)
           one_slot_store _
           {| storage.Volume := 1; storage.Index := 0;
              storage.Root := address_of x11 |} false).
  vm_compute. reflexivity.
Defined.

(** C9.  Without [force], [RemoveVolume] fails with [ErrVolumeNotEmpty]
    and leaves the store as it is for every volume that has an occupied
    slot, and it succeeds only if [used_sectors] of the volume is 0. *)
Theorem RemoveVolume_requires_empty (s : sqlite.Store) (volume : nat) :
  (∀ row, row ∈ sqlite.volume_sectors s →
          sqlite.volume_id row = volume →
          is_Some (sqlite.sector_root row) →
          sqlite.RemoveVolume volume false s
          = (s, Some storage.ErrVolumeNotEmpty))
  ∧ (∀ s', sqlite.RemoveVolume volume false s = (s', None) →
           sqlite.used_sectors s volume = 0%nat).
Proof.
  unfold sqlite.RemoveVolume. simpl. split.
  - intros row Hrow Hvolume Hroot.
    rewrite bool_decide_eq_true_2; [done|].
    unfold sqlite.used_sectors.
    assert (Hin : row ∈ filter
              (λ r, sqlite.volume_id r = volume ∧ is_Some (sqlite.sector_root r))
              (sqlite.volume_sectors s))
      by (by apply list_elem_of_filter).
    intros Hzero. apply length_zero_iff_nil in Hzero.
    rewrite Hzero in Hin. by apply elem_of_nil in Hin.
  - intros s'. by case_bool_decide as Hused.
Qed.

Lemma RemoveVolume_requires_empty_witness :
  sqlite.RemoveVolume 1 false one_sector_store
    = (one_sector_store, Some storage.ErrVolumeNotEmpty)
  ∧ sqlite.used_sectors one_slot_store 1 = 0%nat.
Proof.
  split.
  - apply (proj1 (RemoveVolume_requires_empty one_sector_store 1)
             {| sqlite.volume_id := 1; sqlite.volume_index := 0;
                sqlite.sector_root := Some (address_of x11) |}).
    + vm_compute. left.
    + reflexivity.
    + by eexists.
  - apply (proj2 (RemoveVolume_requires_empty one_slot_store 1)
             (sqlite.RemoveVolume 1 false one_slot_store).1).
    vm_compute. reflexivity.
Defined.

Section migrate.
Import sqlite.
Local Open Scope nat_scope.
Context (volume startIndex : nat).

Lemma apply_move_lookup_ne (rows : list volume_sector) (m : move) (j : nat) :
  j ≠ m.1.1 → j ≠ m.2.1 → apply_move rows m !! j = rows !! j.
Proof.
  intros Hs Hd. unfold apply_move.
  by rewrite !list_lookup_insert_ne by done.
Qed.

(** One move of a fitting plan: the roots are permuted, the region loses
    one sector, and the destination holds the root. *)
Lemma apply_move_step (rows : list volume_sector) (m : move) :
  rows !! m.1.1 = Some m.1.2 → rows !! m.2.1 = Some m.2.2 →
  source_row volume startIndex m.1.2 →
  ¬ in_region volume startIndex m.2.2 → sector_root m.2.2 = None →
  omap sector_root (apply_move rows m) ≡ₚ omap sector_root rows
  ∧ length (filter (source_row volume startIndex) (apply_move rows m)) + 1
    = length (filter (source_row volume startIndex) rows)
  ∧ apply_move rows m !! m.2.1 = Some (set_root (sector_root m.1.2) m.2.2).
Proof.
  destruct m as [[i src] [j dst]]. simpl.
  intros Hsrc Hdst [Hregion [root Hroot]] Houtside Hempty.
  assert (Hij : i ≠ j).
  { intros ->. congruence. }
  pose proof (lookup_lt_Some _ _ _ Hdst) as Hj.
  unfold apply_move. simpl.
  set (rows1 := <[j := set_root (sector_root src) dst]> rows).
  assert (Hsrc1 : rows1 !! i = Some src)
    by (unfold rows1; by rewrite list_lookup_insert_ne).
  split; [|split].
  - pose proof (omap_insert_Permutation sector_root rows j dst
                  (set_root (sector_root src) dst) Hdst) as Hfill.
    pose proof (omap_insert_Permutation sector_root rows1 i src
                  (set_root None src) Hsrc1) as Hclear.
    fold rows1 in Hfill. simpl in Hfill, Hclear.
    rewrite Hempty, Hroot in Hfill. rewrite Hroot in Hclear.
    simpl in Hfill, Hclear. rewrite !app_nil_r in *.
    apply (Permutation_app_inv_r [root]). by rewrite Hclear.
  - pose proof (filter_insert_length (source_row volume startIndex) rows j dst
                  (set_root (sector_root src) dst) Hdst) as Hfill.
    pose proof (filter_insert_length (source_row volume startIndex) rows1 i src
                  (set_root None src) Hsrc1) as Hclear.
    fold rows1 in Hfill.
    rewrite (decide_False (P := source_row _ _ dst)) in Hfill
      by (by intros [? _]).
    rewrite (decide_False (P := source_row _ _ (set_root _ dst))) in Hfill
      by (by intros [? _]).
    rewrite (decide_True (P := source_row _ _ src)) in Hclear
      by (split; [done|by exists root]).
    rewrite (decide_False (P := source_row _ _ (set_root None src))) in Hclear
      by (intros [_ [? ?]]; done).
    lia.
  - rewrite list_lookup_insert_ne by done.
    by apply list_lookup_insert_eq.
Qed.

Lemma planned_cons (rows : list volume_sector) (m : move) (plan : list move) :
  planned volume startIndex rows (m :: plan) →
  planned volume startIndex (apply_move rows m) plan.
Proof.
  intros (Hsrcs & Hdsts & Hall).
  rewrite !fmap_cons in Hsrcs, Hdsts.
  apply NoDup_cons in Hsrcs as [Hs Hsrcs], Hdsts as [Hd Hdsts].
  apply Forall_cons in Hall as [(Hsrc & Hdst & [_ Hroot] & _ & Hempty) Hall].
  split; [done|]. split; [done|].
  apply Forall_forall. intros m' Hm'.
  pose proof (proj1 (Forall_forall _ _) Hall m' Hm')
    as (Hsrc' & Hdst' & Hsource' & Houtside' & Hempty').
  assert (m'.1.1 ≠ m.1.1).
  { intros Heq. apply Hs. rewrite <- Heq.
    by apply list_elem_of_fmap_2, list_elem_of_fmap_2. }
  assert (m'.2.1 ≠ m.2.1).
  { intros Heq. apply Hd. rewrite <- Heq.
    by apply list_elem_of_fmap_2, list_elem_of_fmap_2. }
  assert (m'.1.1 ≠ m.2.1).
  { intros Heq. rewrite Heq in Hsrc'.
    destruct Hsource' as [_ [? Hsome]]. congruence. }
  assert (m'.2.1 ≠ m.1.1).
  { intros Heq. rewrite Heq in Hdst'.
    destruct Hroot as [? Hsome]. congruence. }
  by rewrite !apply_move_lookup_ne by done.
Qed.

(** Committing a fitting plan permutes the stored roots, takes one sector
    per move out of the region, keeps every settled row where it is and
    leaves each destination holding its root. *)
Lemma commit_planned (plan : list move) :
  ∀ rows, planned volume startIndex rows plan →
    omap sector_root (foldl apply_move rows plan) ≡ₚ omap sector_root rows
    ∧ length (filter (source_row volume startIndex) (foldl apply_move rows plan))
      + length plan
      = length (filter (source_row volume startIndex) rows)
    ∧ (∀ j row, rows !! j = Some row → settled_row volume startIndex row →
                foldl apply_move rows plan !! j = Some row)
    ∧ Forall (λ m : move,
        foldl apply_move rows plan !! m.2.1
        = Some (set_root (sector_root m.1.2) m.2.2)) plan.
Proof.
  induction plan as [|m plan IH]; intros rows Hplan; simpl.
  - repeat split; done || lia.
  - pose proof (planned_cons rows m plan Hplan) as Hrest.
    destruct Hplan as (_ & _ & Hall).
    apply Forall_cons in Hall
      as [(Hsrc & Hdst & Hsource & Houtside & Hempty) _].
    destruct (apply_move_step rows m Hsrc Hdst Hsource Houtside Hempty)
      as (Hroots & Hcount & Hheld).
    destruct (IH _ Hrest) as (Hroots' & Hcount' & Hsettled' & Hheld').
    split; [by rewrite Hroots'|]. split; [lia|]. split.
    + intros j row Hj [Hout Hocc]. apply Hsettled'; [|done].
      rewrite apply_move_lookup_ne; [done| |].
      * intros ->. destruct Hsource as [Hin _]. apply Hout. congruence.
      * intros ->. destruct Hocc as [? Hocc]. congruence.
    + constructor; [|done].
      apply Hsettled'; [done|]. split; [done|]. simpl. by destruct Hsource.
Qed.

End migrate.

Section migration_plan.
Import sqlite.
Local Open Scope nat_scope.
Context (volume startIndex : nat).

Lemma zip_fst_sublist {A B} (l : list A) (k : list B) :
  (zip l k).*1 `sublist_of` l.
Proof.
  revert k. induction l as [|x l IH]; intros [|y k]; simpl;
    try apply sublist_nil_l.
  by apply sublist_skip.
Qed.

Lemma zip_snd_sublist {A B} (l : list A) (k : list B) :
  (zip l k).*2 `sublist_of` k.
Proof.
  revert k. induction l as [|x l IH]; intros [|y k]; simpl;
    try apply sublist_nil_l.
  by apply sublist_skip.
Qed.

Lemma elem_of_migration_sources (s : Store) (i : nat) (row : volume_sector) :
  (i, row) ∈ migration_sources volume startIndex s
  ↔ volume_sectors s !! i = Some row ∧ source_row volume startIndex row.
Proof.
  unfold migration_sources.
  rewrite merge_sort_Permutation, list_elem_of_filter, elem_of_indexed.
  simpl. unfold source_row. tauto.
Qed.

Lemma elem_of_migration_destinations (s : Store) (i : nat) (row : volume_sector) :
  (i, row) ∈ migration_destinations volume startIndex s →
  volume_sectors s !! i = Some row
  ∧ ¬ in_region volume startIndex row ∧ sector_root row = None.
Proof.
  unfold migration_destinations.
  rewrite list_elem_of_filter, elem_of_free_slots. simpl. tauto.
Qed.

Lemma NoDup_filter_indexed (P : nat * volume_sector → Prop)
    `{∀ x, Decision (P x)} (rows : list volume_sector) :
  NoDup (filter P (indexed rows)).*1.
Proof.
  eapply sublist_NoDup; [apply (NoDup_seq 0 (length rows))|].
  rewrite <- indexed_positions. apply fmap_sublist, sublist_filter.
Qed.

Lemma NoDup_migration_sources (s : Store) :
  NoDup (migration_sources volume startIndex s).*1.
Proof.
  unfold migration_sources. rewrite merge_sort_Permutation.
  apply NoDup_filter_indexed.
Qed.

Lemma NoDup_migration_destinations (s : Store) :
  NoDup (migration_destinations volume startIndex s).*1.
Proof.
  unfold migration_destinations.
  eapply sublist_NoDup; [|apply fmap_sublist, sublist_filter].
  unfold free_slots. rewrite merge_sort_Permutation.
  apply NoDup_filter_indexed.
Qed.

Lemma length_migration_sources (s : Store) :
  length (migration_sources volume startIndex s)
  = length (filter (source_row volume startIndex) (volume_sectors s)).
Proof.
  unfold migration_sources. rewrite merge_sort_Permutation.
  rewrite <- (filter_indexed_length (source_row volume startIndex)).
  unfold source_row. f_equal; by apply list_filter_iff.
Qed.

(** Each batch the loop plans fits the table it was planned on. *)
Lemma batch_planned (n : nat) (s : Store) :
  planned volume startIndex (volume_sectors s)
    (zip (take n (migration_sources volume startIndex s))
       (migration_destinations volume startIndex s)).
Proof.
  split; [|split].
  - eapply sublist_NoDup; [apply NoDup_migration_sources|].
    apply fmap_sublist. etrans; [apply zip_fst_sublist|apply sublist_take].
  - eapply sublist_NoDup; [apply NoDup_migration_destinations|].
    apply fmap_sublist, zip_snd_sublist.
  - apply Forall_forall. intros [[i src] [j dst]] Hm. simpl.
    pose proof (elem_of_zip_l _ _ _ _ Hm) as Hsrc.
    pose proof (elem_of_zip_r _ _ _ _ Hm) as Hdst.
    pose proof (elem_of_sublist _ _ _ Hsrc (sublist_take _ _)) as Hsrc'.
    apply elem_of_migration_sources in Hsrc' as [? ?].
    apply elem_of_migration_destinations in Hdst as (? & ? & ?).
    done.
Qed.

End migration_plan.

Section migration_space.
Import sqlite.
Local Open Scope nat_scope.
Context (volume startIndex : nat).

Lemma length_migration_destinations (s : Store) :
  length (migration_destinations volume startIndex s)
  = length (filter (destination_row s volume startIndex) (volume_sectors s)).
Proof.
  unfold migration_destinations, free_slots.
  rewrite merge_sort_Permutation, list_filter_filter.
  rewrite <- (filter_indexed_length (destination_row s volume startIndex)).
  unfold destination_row. f_equal; try by apply list_filter_iff.
Qed.

(** One move of a fitting plan into a writable volume uses up one
    destination. *)
Lemma apply_move_destination (s : Store) (rows : list volume_sector) (m : move) :
  rows !! m.1.1 = Some m.1.2 → rows !! m.2.1 = Some m.2.2 →
  source_row volume startIndex m.1.2 →
  ¬ in_region volume startIndex m.2.2 → sector_root m.2.2 = None →
  writable s (volume_id m.2.2) →
  length (filter (destination_row s volume startIndex) (apply_move rows m)) + 1
  = length (filter (destination_row s volume startIndex) rows).
Proof.
  destruct m as [[i src] [j dst]]. simpl.
  intros Hsrc Hdst [Hregion [root Hroot]] Houtside Hempty Hwritable.
  assert (Hij : i ≠ j).
  { intros ->. congruence. }
  unfold apply_move. simpl.
  set (rows1 := <[j := set_root (sector_root src) dst]> rows).
  assert (Hsrc1 : rows1 !! i = Some src)
    by (unfold rows1; by rewrite list_lookup_insert_ne).
  pose proof (filter_insert_length (destination_row s volume startIndex)
                rows j dst (set_root (sector_root src) dst) Hdst) as Hfill.
  pose proof (filter_insert_length (destination_row s volume startIndex)
                rows1 i src (set_root None src) Hsrc1) as Hclear.
  fold rows1 in Hfill.
  rewrite (decide_True (P := destination_row _ _ _ dst)) in Hfill by done.
  rewrite (decide_False (P := destination_row _ _ _ (set_root _ dst))) in Hfill
    by (intros (_ & Hnone & _); simpl in Hnone; congruence).
  rewrite (decide_False (P := destination_row _ _ _ src)) in Hclear
    by (intros (_ & Hnone & _); congruence).
  rewrite (decide_False (P := destination_row _ _ _ (set_root None src)))
    in Hclear by (by intros (Hout & _)).
  lia.
Qed.

(** Committing a fitting plan into writable volumes uses up one
    destination per move. *)
Lemma commit_destinations (s : Store) (plan : list move) :
  ∀ rows, planned volume startIndex rows plan →
    Forall (λ m : move, writable s (volume_id m.2.2)) plan →
    length (filter (destination_row s volume startIndex)
              (foldl apply_move rows plan)) + length plan
    = length (filter (destination_row s volume startIndex) rows).
Proof.
  induction plan as [|m plan IH]; intros rows Hplan Hwritable; simpl; [lia|].
  pose proof (planned_cons volume startIndex rows m plan Hplan) as Hrest.
  destruct Hplan as (_ & _ & Hall).
  apply Forall_cons in Hall as [(Hsrc & Hdst & Hsource & Houtside & Hempty) _].
  apply Forall_cons in Hwritable as [Hm Hwritable].
  pose proof (apply_move_destination s rows m Hsrc Hdst Hsource Houtside
                Hempty Hm) as Hstep.
  specialize (IH _ Hrest Hwritable). lia.
Qed.

(** The destinations of a batch lie in writable volumes. *)
Lemma batch_writable (n : nat) (s : Store) :
  Forall (λ m : move, writable s (volume_id m.2.2))
    (zip (take n (migration_sources volume startIndex s))
       (migration_destinations volume startIndex s)).
Proof.
  apply Forall_forall. intros [[i src] [j dst]] Hm. simpl.
  pose proof (elem_of_zip_r _ _ _ _ Hm) as Hdst.
  unfold migration_destinations in Hdst.
  apply list_elem_of_filter in Hdst as [_ Hfree].
  by apply elem_of_free_slots in Hfree as (_ & _ & ?).
Qed.

(** What a committed batch leaves: one source and one destination fewer
    per move. *)
Lemma commit_batch_counts (n : nat) (s : Store) :
  let plan := zip (take n (migration_sources volume startIndex s))
                (migration_destinations volume startIndex s) in
  length (migration_sources volume startIndex (commit plan s)) + length plan
  = length (migration_sources volume startIndex s)
  ∧ length (migration_destinations volume startIndex (commit plan s))
    + length plan
    = length (migration_destinations volume startIndex s).
Proof.
  intros plan.
  pose proof (batch_planned volume startIndex n s) as Hplanned.
  pose proof (batch_writable n s) as Hwritable.
  fold plan in Hplanned, Hwritable.
  destruct (commit_planned volume startIndex _ _ Hplanned) as (_ & Hsources & _).
  pose proof (commit_destinations s _ _ Hplanned Hwritable) as Hdestinations.
  rewrite !length_migration_sources, !length_migration_destinations.
  split; [exact Hsources|exact Hdestinations].
Qed.

End migration_space.

Section migration.
Import sqlite.
Local Open Scope nat_scope.
Context (batchSize volume startIndex : nat).
Context (on_batch : nat → list storage.SectorLocation → option error).

Lemma reported_committed (s : Store) (m : move) :
  source_row volume startIndex m.1.2 →
  volume_sectors s !! m.2.1 = Some (set_root (sector_root m.1.2) m.2.2) →
  committed s (report m).
Proof.
  intros [_ [root Hroot]] Hheld.
  exists (set_root (sector_root m.1.2) m.2.2).
  split; [by eapply list_elem_of_lookup_2|].
  unfold report. rewrite Hroot. done.
Qed.

(** Whatever a run of the batches returns: the stored roots are permuted,
    settled rows stay, every reported move is committed, a run without
    error leaves the region empty, and [NotEnoughStorage] means that
    sectors remain for which no destination is left. *)
Lemma migrate_batches_sound (fuel : nat) :
  ∀ call s s' moved result,
    migrate_batches fuel call batchSize volume startIndex on_batch s
      = Some (s', moved, result) →
    stored_roots s' ≡ₚ stored_roots s
    ∧ (∀ j row, volume_sectors s !! j = Some row →
                settled_row volume startIndex row →
                volume_sectors s' !! j = Some row)
    ∧ Forall (committed s') moved
    ∧ (result = None → migration_sources volume startIndex s' = [])
    ∧ (result = Some storage.ErrNotEnoughStorage → batchSize ≠ 0 →
       migration_sources volume startIndex s' ≠ []
       ∧ migration_destinations volume startIndex s' = []).
Proof.
  induction fuel as [|fuel IH]; intros call s s' moved result Hrun; [done|].
  simpl in Hrun.
  pose proof (batch_planned volume startIndex batchSize s) as Hplanned.
  destruct (migration_sources volume startIndex s) as [|p l] eqn:Hsources.
  { simplify_eq. by rewrite Hsources. }
  case_decide.
  { simplify_eq. by rewrite Hsources. }
  destruct (zip (take batchSize (p :: l)) _) as [|m plan] eqn:Hplan.
  { simplify_eq. rewrite Hsources. repeat split; try done.
    destruct batchSize as [|n]; [done|]. simpl in Hplan.
    by destruct (migration_destinations volume startIndex s'). }
  destruct (on_batch call _).
  { simplify_eq. by rewrite Hsources. }
  destruct (migrate_batches fuel _ _ _ _ _ _) as [[[s2 moved2] result2]|]
    eqn:Hrec; simpl in Hrun; [|done].
  simplify_eq.
  apply IH in Hrec as (Hroots & Hsettled & Hmoved & Hnone & Hfull).
  destruct (commit_planned volume startIndex _ _ Hplanned)
    as (Hroots1 & _ & Hsettled1 & Hheld1).
  split; [|split; [|split; [|split]]]; try done.
  - rewrite Hroots. exact Hroots1.
  - intros j row Hj Hrow. apply Hsettled; [|done]. by apply Hsettled1.
  - assert (Hbatch : Forall (λ m', committed s' (report m')) (m :: plan)).
    { apply Forall_forall. intros m' Hm'.
      destruct Hplanned as (_ & _ & Hall).
      pose proof (proj1 (Forall_forall _ _) Hall m' Hm')
        as (_ & _ & Hsource & Houtside & _).
      pose proof (proj1 (Forall_forall _ _) Hheld1 m' Hm') as Hheld.
      apply reported_committed; [done|].
      apply Hsettled; [done|]. split; [done|]. simpl. by destruct Hsource. }
    apply Forall_cons in Hbatch as [Hfirst Hbatch].
    rewrite Forall_cons, Forall_app, Forall_fmap. done.
Qed.

(** The fuel [MigrateSectors] starts with is never used up. *)
Lemma migrate_batches_returns (fuel : nat) :
  ∀ call s,
    length (migration_sources volume startIndex s) < fuel →
    is_Some (migrate_batches fuel call batchSize volume startIndex on_batch s).
Proof.
  induction fuel as [|fuel IH]; intros call s Hfuel; [lia|].
  simpl.
  pose proof (batch_planned volume startIndex batchSize s) as Hplanned.
  pose proof (length_migration_sources volume startIndex s) as Hcount.
  destruct (migration_sources volume startIndex s) as [|p l] eqn:Hsources;
    [by eexists|].
  case_decide; [by eexists|].
  destruct (zip (take batchSize (p :: l)) _) as [|m plan] eqn:Hplan;
    [by eexists|].
  destruct (on_batch call _); [by eexists|].
  destruct (commit_planned volume startIndex _ _ Hplanned) as (_ & Hless & _).
  destruct (IH (S call) (commit (m :: plan) s)) as [[[s2 moved2] result2] Hrec].
  { rewrite length_migration_sources. simpl in *. lia. }
  rewrite Hrec. by eexists.
Qed.

(** Each reported move took one sector out of the region. *)
Lemma migrate_batches_count (fuel : nat) :
  ∀ call s s' moved result,
    migrate_batches fuel call batchSize volume startIndex on_batch s
      = Some (s', moved, result) →
    length (migration_sources volume startIndex s') + length moved
    = length (migration_sources volume startIndex s).
Proof.
  induction fuel as [|fuel IH]; intros call s s' moved result Hrun; [done|].
  simpl in Hrun.
  pose proof (commit_batch_counts volume startIndex batchSize s) as [Hcount _].
  destruct (migration_sources volume startIndex s) as [|p l] eqn:Hsources.
  { simplify_eq. by rewrite Hsources. }
  case_decide.
  { simplify_eq. by rewrite Hsources. }
  destruct (zip (take batchSize (p :: l)) _) as [|m plan] eqn:Hplan.
  { simplify_eq. by rewrite Hsources. }
  destruct (on_batch call _).
  { simplify_eq. by rewrite Hsources. }
  destruct (migrate_batches fuel _ _ _ _ _ _) as [[[s2 moved2] result2]|]
    eqn:Hrec; simpl in Hrun; [|done].
  simplify_eq. apply IH in Hrec.
  cbn [length] in *. rewrite length_app, length_fmap. unfold move in *. lia.
Qed.

(** With batches of positive size, a callback that accepts every batch
    and no lock on a slot of the region, the outcome is decided by the
    space: the migration moves as many sectors as there are sources or
    destinations, whichever is fewer, and returns [NotEnoughStorage]
    exactly when the destinations are fewer. *)
Lemma migrate_batches_outcome (fuel : nat) :
  batchSize ≠ 0 →
  (∀ call batch, on_batch call batch = None) →
  ∀ call s,
    (∀ row, in_region volume startIndex row → ¬ locked s row) →
    length (migration_sources volume startIndex s) < fuel →
    ∃ s' moved,
      migrate_batches fuel call batchSize volume startIndex on_batch s
        = Some (s', moved,
                if decide (length (migration_sources volume startIndex s)
                           ≤ length (migration_destinations volume startIndex s))
                then None else Some storage.ErrNotEnoughStorage)
      ∧ length moved
        = length (migration_sources volume startIndex s)
            `min` length (migration_destinations volume startIndex s).
Proof.
  intros Hsize Hcallback.
  induction fuel as [|fuel IH]; intros call s Hlocks Hfuel; [lia|].
  simpl.
  pose proof (commit_batch_counts volume startIndex batchSize s)
    as [Hsources Hdestinations].
  assert (Hin : ∀ x, x ∈ migration_sources volume startIndex s →
                     in_region volume startIndex x.2).
  { intros [i row] Hx. by apply elem_of_migration_sources in Hx as [_ [? _]]. }
  destruct (migration_sources volume startIndex s) as [|p l] eqn:Hsrc.
  { exists s, []. rewrite decide_True by (simpl; lia). done. }
  rewrite decide_False; last first.
  { intros Hlocked. apply Exists_exists in Hlocked as (x & Hx & Hlocked).
    apply (Hlocks x.2); [|done]. apply Hin.
    eapply elem_of_sublist; [done|apply sublist_take]. }
  destruct (migration_destinations volume startIndex s) as [|d ds] eqn:Hdst.
  { rewrite zip_with_nil_r. exists s, [].
    rewrite decide_False by (simpl; lia). done. }
  destruct batchSize as [|n] eqn:Hbatch; [done|].
  remember (zip (take (S n) (p :: l)) (d :: ds)) as plan eqn:Hplan.
  assert (Hlen : length plan
                 = (S n `min` length (p :: l)) `min` length (d :: ds))
    by (by rewrite Hplan, length_zip, length_take).
  destruct plan as [|m plan]; [simpl in Hlen; lia|].
  rewrite Hcallback.
  destruct (IH (S call) (commit (m :: plan) s)) as (s' & moved & Hrun & Hmoved).
  { intros row Hrow. exact (Hlocks row Hrow). }
  { simpl in *. lia. }
  rewrite Hrun. cbn [mbind option_bind].
  eexists s', _. split.
  - do 2 f_equal. repeat case_decide; simpl in *; try done; lia.
  - cbn [length] in *. rewrite length_app, length_fmap, Hmoved.
    unfold move in *. lia.
Qed.

End migration.

(** C8.  [MigrateSectors] always returns, and in every outcome --
    completion, [NotEnoughStorage], a pinned sector or a failing callback
    -- the stored sector roots after the call are a permutation of those
    before it: no root is lost or duplicated.  Every move reported in a
    batch that succeeded is committed, and each of them took one sector
    out of the region.  A call without error leaves the region empty, and
    when a call with a positive batch size returns [NotEnoughStorage],
    sectors remain in the region and no destination is left for them.
    Conversely, with a positive batch size, a callback that accepts every
    batch and no lock on a slot of the region: when the destinations are
    fewer than the sectors to move, the call commits one move per
    destination and returns [NotEnoughStorage]; otherwise it moves every
    sector and returns no error. *)
Theorem MigrateSectors_preserves_roots (batchSize volume startIndex : nat)
    (on_batch : nat → list storage.SectorLocation → option error)
    (s : sqlite.Store) :
  ∃ s' moved result,
    sqlite.MigrateSectors batchSize volume startIndex on_batch s
      = Some (s', moved, result)
    ∧ sqlite.stored_roots s' ≡ₚ sqlite.stored_roots s
    ∧ Forall (committed s') moved
    ∧ (length (sqlite.migration_sources volume startIndex s') + length moved
       = length (sqlite.migration_sources volume startIndex s))%nat
    ∧ (result = None → sqlite.migration_sources volume startIndex s' = [])
    ∧ (result = Some storage.ErrNotEnoughStorage → batchSize ≠ 0%nat →
       sqlite.migration_sources volume startIndex s' ≠ []
       ∧ sqlite.migration_destinations volume startIndex s' = [])
    ∧ (batchSize ≠ 0%nat →
       (∀ call batch, on_batch call batch = None) →
       (∀ row, sqlite.in_region volume startIndex row → ¬ sqlite.locked s row) →
       ((length (sqlite.migration_destinations volume startIndex s)
         < length (sqlite.migration_sources volume startIndex s))%nat →
        result = Some storage.ErrNotEnoughStorage
        ∧ length moved
          = length (sqlite.migration_destinations volume startIndex s))
       ∧ ((length (sqlite.migration_sources volume startIndex s)
           ≤ length (sqlite.migration_destinations volume startIndex s))%nat →
          result = None
          ∧ length moved
            = length (sqlite.migration_sources volume startIndex s))).
Proof.
  unfold sqlite.MigrateSectors.
  destruct (migrate_batches_returns batchSize volume startIndex on_batch
              (S (length (sqlite.migration_sources volume startIndex s))) 0 s)
    as [[[s' moved] result] Hrun]; [lia|].
  exists s', moved, result. split; [done|].
  pose proof (migrate_batches_count _ _ _ _ _ _ _ _ _ _ Hrun) as Hcount.
  pose proof (migrate_batches_sound _ _ _ _ _ _ _ _ _ _ Hrun)
    as (Hroots & _ & Hcommitted & Hnone & Hfull).
  repeat (split; [done|]).
  intros Hsize Hcallback Hlocks.
  destruct (migrate_batches_outcome batchSize volume startIndex on_batch
              (S (length (sqlite.migration_sources volume startIndex s)))
              Hsize Hcallback 0%nat s Hlocks)
    as (s2 & moved2 & Hrun2 & Hmoved); [lia|].
  rewrite Hrun in Hrun2. injection Hrun2 as <- <- ->.
  split; intros Hspace.
  - rewrite decide_False by lia. split; [done|lia].
  - rewrite decide_True by lia. split; [done|lia].
Qed.

(** On scenario S3 the conditions of the converse hold: 8 destinations
    for 32 sectors, so 8 moves are committed and the call returns
    [NotEnoughStorage]. *)
Lemma MigrateSectors_preserves_roots_witness :
  ∃ s' moved,
    sqlite.MigrateSectors 256 1 0 (λ _ _, None) two_volume_store
      = Some (s', moved, Some storage.ErrNotEnoughStorage)
    ∧ sqlite.stored_roots s' ≡ₚ sqlite.stored_roots two_volume_store
    ∧ Forall (committed s') moved
    ∧ length moved = 8%nat.
Proof.
  destruct (MigrateSectors_preserves_roots 256 1 0 (λ _ _, None)
              two_volume_store)
    as (s' & moved & result & Hrun & Hroots & Hcommitted & _ & _ & _ & Hspace).
  assert (Hlocks : sqlite.locked_volume_sectors two_volume_store = [])
    by (vm_compute; reflexivity).
  assert (Hsources : length (sqlite.migration_sources 1 0 two_volume_store)
                     = 32%nat) by (vm_compute; reflexivity).
  assert (Hdestinations :
            length (sqlite.migration_destinations 1 0 two_volume_store)
            = 8%nat) by (vm_compute; reflexivity).
  destruct Hspace as [Hfull _].
  - lia.
  - reflexivity.
  - intros row _. unfold sqlite.locked. rewrite Hlocks. apply not_elem_of_nil.
  - destruct Hfull as [-> Hmoved]; [lia|].
    rewrite Hdestinations in Hmoved. exists s', moved.
    split; [exact Hrun|]. split; [exact Hroots|].
    split; [exact Hcommitted|exact Hmoved].
Defined.

(** Scenario S3: migrating a full volume of 32 sectors when only 8 slots
    are free elsewhere moves 8 sectors and returns [NotEnoughStorage];
    volume 2 is then full and volume 1 keeps 24 sectors. *)
Example MigrateSectors_partial :
  (λ r : sqlite.Store * list storage.SectorLocation * option storage.Error,
     (r.2, length r.1.2, sqlite.used_sectors r.1.1 1, sqlite.used_sectors r.1.1 2))
    <$> sqlite.MigrateSectors 256 1 0 (λ _ _, None) two_volume_store
  = Some (Some storage.ErrNotEnoughStorage, 8%nat, 24%nat, 8%nat).
Proof. vm_compute. reflexivity. Qed.

(** ** The store tests, replayed on the model *)

Section store_tests.
Import sqlite.
Local Open Scope nat_scope.

Let accept : storage.SectorLocation → bool → option error := λ _ _, None.

(** [TestAddSector]: a volume without slots has no room; after growing it
    by one slot the sector goes to [(1, 0)]; storing it again finds it
    there; a second sector has no room. *)
Example TestAddSector :
  let s0 := SetAvailable 1 true (AddVolume "test" false empty_store).1 in
  let s1 := GrowVolume 1 1 s0 in
  let stored := StoreSector (root_of 1) accept s1 in
  let again := StoreSector (root_of 1) accept stored.1 in
  (StoreSector (root_of 1) accept s0).2 = inl storage.ErrNotEnoughStorage
  ∧ stored.2 = inr (location {| volume_id := 1; volume_index := 0;
                                sector_root := None |} (root_of 1), false)
  ∧ used_sectors stored.1 1 = 1
  ∧ again.2 = inr (location {| volume_id := 1; volume_index := 0;
                               sector_root := None |} (root_of 1), true)
  ∧ used_sectors again.1 1 = 1
  ∧ (StoreSector (root_of 2) accept again.1).2 = inl storage.ErrNotEnoughStorage.
Proof. vm_compute. repeat split. Qed.

(** [TestVolumeSetReadOnly]: a read-only volume takes no new sector. *)
Example TestVolumeSetReadOnly :
  let s := store_all [root_of 1] (addVolume "test" 10 empty_store).1 in
  (StoreSector (root_of 2) accept (SetReadOnly 1 true s)).2
  = inl storage.ErrNotEnoughStorage.
Proof. vm_compute. reflexivity. Qed.

(** [TestShrinkVolume]: with sectors in slots 0..4 of 32, the volume
    cannot shrink to 2 slots but can shrink to 5. *)
Example TestShrinkVolume :
  let s0 := (ShrinkVolume 1 32 (addVolume "test" 64 empty_store).1).1 in
  let s1 := store_all (root_of <$> seq 0 5) s0 in
  total_sectors s0 1 = 32
  ∧ (ShrinkVolume 1 2 s1).2 = Some storage.ErrVolumeNotEmpty
  ∧ (ShrinkVolume 1 5 s1).2 = None
  ∧ total_sectors (ShrinkVolume 1 5 s1).1 1 = 5.
Proof. vm_compute. repeat split. Qed.

(** [TestRemoveVolume]: an empty volume is removed; one with five sectors
    is not, unless forced. *)
Example TestRemoveVolume :
  let s0 := (addVolume "test" 64 empty_store).1 in
  let s1 := store_all (root_of <$> seq 0 5) s0 in
  (RemoveVolume 1 false s0).2 = None
  ∧ (RemoveVolume 1 false s1).2 = Some storage.ErrVolumeNotEmpty
  ∧ (RemoveVolume 1 true s1).2 = None
  ∧ storage_volumes (RemoveVolume 1 true s1).1 = [].
Proof. vm_compute. repeat split. Qed.

(** [TestMigrateSectors], first half: with slots 0..31 emptied, the
    sectors of slots 32..63 move, in order, to slots 0..31. *)
Example TestMigrateSectors :
  let full := store_all (root_of <$> seq 0 64) (addVolume "test" 64 empty_store).1 in
  let half := foldl (λ s root, (RemoveSector root s).1) full (root_of <$> seq 0 32) in
  (λ r : Store * list storage.SectorLocation * option storage.Error,
     (r.2, r.1.2, used_sectors r.1.1 1))
    <$> MigrateSectors 256 1 32 (λ _ _, None) half
  = Some (None,
          (λ i, {| storage.Volume := 1; storage.Index := i;
                   storage.Root := root_of (32 + i) |}) <$> seq 0 32,
          32).
Proof. vm_compute. reflexivity. Qed.

End store_tests.

(** ** Further properties of the revision validators *)

Section std_rules.
Context `{UnlockHasher}.

Lemma total_nonneg (outputs : list SiacoinOutput) :
  Forall (λ o, is_currency (Value o)) outputs → 0 ≤ total outputs.
Proof.
  induction 1 as [|o outputs [Ho _] _ IH]; simpl; lia.
Qed.

Lemma total_app (l k : list SiacoinOutput) : total (l ++ k) = total l + total k.
Proof. induction l as [|o l IH]; simpl; lia. Qed.

(** A completed address loop found, at each of its indices, a current
    output with the address of the proposed one. *)
Lemma for_range_addressBody_addresses (format : string)
    (proposed current : list SiacoinOutput) :
  ∀ n i acc t,
    for_range i n (rhp.addressBody format proposed current) acc
      = Return (inr t) →
    ∀ k, (i ≤ k < i + n)%nat →
      ∃ r c, proposed !! k = Some r ∧ current !! k = Some c
             ∧ Address r = Address c.
Proof.
  induction n as [|n IH]; intros i acc t Hrun k Hk; [lia|].
  simpl in Hrun. apply bind_Return in Hrun as (r1 & Hbody & Hrest).
  unfold rhp.addressBody in Hbody.
  apply bind_Return in Hbody as (r & Hr%index_Return & Hbody).
  apply bind_Return in Hbody as (c & Hc%index_Return & Hbody).
  case_bool_decide as Haddr; [by simplify_eq|].
  apply bind_Return in Hbody as (r' & _ & Hbody).
  apply bind_Return in Hbody as (p & _ & [= <-]).
  destruct (decide (k = i)) as [->|Hne]; [by exists r, c|].
  apply (IH _ _ _ Hrest). lia.
Qed.

(** Conversely the loop completes when the addresses agree and the sum
    fits 128 bits. *)
Lemma for_range_addressBody_returns (format : string)
    (proposed current : list SiacoinOutput) :
  Forall (λ o, is_currency (Value o)) proposed →
  ∀ n i acc,
    (∀ k, (i ≤ k < i + n)%nat →
       ∃ r c, proposed !! k = Some r ∧ current !! k = Some c
              ∧ Address r = Address c) →
    0 ≤ acc → acc + total (take n (drop i proposed)) < 2 ^ 128 →
    for_range i n (rhp.addressBody format proposed current) acc
    = Return (inr (acc + total (take n (drop i proposed)))).
Proof.
  intros Hwf. induction n as [|n IH]; intros i acc Hall Hacc Hfit; simpl.
  - f_equal. f_equal. lia.
  - destruct (Hall i) as (r & c & Hr & Hc & Haddr); [lia|].
    pose proof (Forall_lookup_1 _ _ _ _ Hwf Hr) as [Hr0 _].
    rewrite (drop_S _ _ _ Hr) in Hfit |- *. simpl in Hfit |- *.
    assert (Hrest : 0 ≤ total (take n (drop (S i) proposed))).
    { apply total_nonneg. eapply Forall_take, Forall_drop, Hwf. }
    unfold rhp.addressBody, index. rewrite Hr, Hc. cbn [mbind exec_bind].
    rewrite bool_decide_eq_false_2 by (by intros Hne).
    unfold Currency_Add. rewrite decide_True by lia. cbn [mbind exec_bind].
    rewrite IH; [f_equal; f_equal; lia| |lia|lia].
    intros k Hk. apply Hall. lia.
Qed.

Lemma for_range_sumBody_returns (outputs : list SiacoinOutput) :
  Forall (λ o, is_currency (Value o)) outputs →
  ∀ n i acc,
    (i + n ≤ length outputs)%nat →
    0 ≤ acc → acc + total (take n (drop i outputs)) < 2 ^ 128 →
    for_range i n (rhp.sumBody outputs) acc
    = Return (inr (acc + total (take n (drop i outputs)))).
Proof.
  intros Hwf. induction n as [|n IH]; intros i acc Hlen Hacc Hfit; simpl.
  - f_equal. f_equal. lia.
  - destruct (lookup_lt_is_Some_2 outputs i) as [o Ho]; [lia|].
    pose proof (Forall_lookup_1 _ _ _ _ Hwf Ho) as [Ho0 _].
    rewrite (drop_S _ _ _ Ho) in Hfit |- *. simpl in Hfit |- *.
    assert (Hrest : 0 ≤ total (take n (drop (S i) outputs))).
    { apply total_nonneg. eapply Forall_take, Forall_drop, Hwf. }
    unfold rhp.sumBody, index. rewrite Ho. cbn [mbind exec_bind].
    unfold Currency_Add. rewrite decide_True by lia. cbn [mbind exec_bind].
    rewrite IH; [f_equal; f_equal; lia|lia|lia|lia].
Qed.

Lemma addresses_agree (proposed current : list SiacoinOutput) :
  length proposed = length current →
  (∀ k, (k < length proposed)%nat →
     ∃ r c, proposed !! k = Some r ∧ current !! k = Some c
            ∧ Address r = Address c)
  ↔ Address <$> proposed = Address <$> current.
Proof.
  intros Hlen. split.
  - intros Hall. apply list_eq. intros k. rewrite !list_lookup_fmap.
    destruct (decide (k < length proposed)%nat) as [Hk|Hk].
    + destruct (Hall k Hk) as (r & c & -> & -> & Haddr). simpl. by f_equal.
    + rewrite !lookup_ge_None_2 by lia. done.
  - intros Heq k Hk.
    destruct (lookup_lt_is_Some_2 proposed k Hk) as [r Hr].
    destruct (lookup_lt_is_Some_2 current k) as [c Hc]; [lia|].
    exists r, c. repeat split; try done.
    assert (Hk' : (Address <$> proposed) !! k = (Address <$> current) !! k)
      by (by rewrite Heq).
    rewrite !list_lookup_fmap, Hr, Hc in Hk'. by simplify_eq.
Qed.


(** Every accepted pair satisfies the rules. *)
Lemma std_rules_sound (current revision : FileContractRevision) :
  rhp.validateStdRevision current revision = Return nil →
  std_rules current revision.
Proof.
  intros Hrun.
  destruct (validateStdRevision_accepts _ _ Hrun)
    as (? & ? & ? & ? & ? & ? & ? & Hlv & Hlm & ? & ?).
  unfold rhp.validateStdRevision in Hrun.
  apply bind_Return in Hrun as ([e|oldPayout] & _ & Hrun); [done|].
  apply bind_Return in Hrun as ([e|validPayout] & Hvalid & Hrun); [done|].
  apply bind_Return in Hrun as ([e|missedPayout] & Hmissed & Hrun); [done|].
  pose proof (for_range_addressBody_addresses _ _ _ _ _ _ _ Hvalid) as Hav.
  pose proof (for_range_addressBody_addresses _ _ _ _ _ _ _ Hmissed) as Ham.
  unfold std_rules. repeat split; try done.
  - apply addresses_agree; [done|]. intros k Hk. apply Hav. lia.
  - apply addresses_agree; [done|]. intros k Hk. apply Ham. lia.
Qed.

(** A pair of revisions with 128-bit amounts that satisfies the rules is
    accepted: no sum overflows and no index is out of range. *)
Lemma std_rules_complete (current revision : FileContractRevision) :
  well_formed_outputs current → well_formed_outputs revision →
  total (ValidProofOutputs current) < 2 ^ 128 →
  std_rules current revision →
  rhp.validateStdRevision current revision = Return nil.
Proof.
  intros [Hcv Hcm] [Hrv Hrm] Hfit.
  intros (Hav & Ham & Hsv & Hsm & Huh & Huc & Hnum & Hws & Hwe
          & (rv & cv & Hrv0 & Hcv0 & Hlev) & (rm & cm & Hrm0 & Hcm0 & Hlem)).
  assert (Hlv : length (ValidProofOutputs revision)
                = length (ValidProofOutputs current))
    by (by rewrite <- (length_fmap Address), Hav, length_fmap).
  assert (Hlm : length (MissedProofOutputs revision)
                = length (MissedProofOutputs current))
    by (by rewrite <- (length_fmap Address), Ham, length_fmap).
  pose proof (proj2 (addresses_agree _ _ Hlv) Hav) as Hav'.
  pose proof (proj2 (addresses_agree _ _ Hlm) Ham) as Ham'.
  unfold rhp.validateStdRevision.
  apply bind_Return. eexists. split.
  { apply for_range_sumBody_returns; [done|lia|lia|].
    rewrite drop_0, firstn_all. lia. }
  cbv beta iota. apply bind_Return. eexists. split.
  { apply for_range_addressBody_returns; [done| |lia|].
    - intros k Hk. apply Hav'. lia.
    - rewrite drop_0, firstn_all. lia. }
  cbv beta iota. apply bind_Return. eexists. split.
  { apply for_range_addressBody_returns; [done| |lia|].
    - intros k Hk. apply Ham'. lia.
    - rewrite drop_0, firstn_all. lia. }
  cbv beta iota. rewrite !drop_0, !firstn_all.
  apply index_Return in Hrv0, Hcv0, Hrm0, Hcm0.
  apply switch_nil. repeat constructor; simpl.
  all: rewrite ?Hrv0, ?Hcv0, ?Hrm0, ?Hcm0; simpl.
  all: f_equal; apply bool_decide_eq_false_2.
  all: rewrite ?Currency_Cmp_gt; try lia; try (intros Hne; apply Hne).
  all: try done; try (apply Currency_Cmp_eq; lia).
Qed.

End std_rules.

(** X1.  When the output values of both revisions are 128-bit amounts and
    the current valid outputs add up to less than 2^128,
    [validateStdRevision] accepts exactly the pairs that satisfy
    [std_rules]; in particular an accepted proposal keeps the address of
    every valid and missed output. *)
Theorem validateStdRevision_iff `{UnlockHasher}
    (current revision : FileContractRevision) :
  well_formed_outputs current → well_formed_outputs revision →
  total (ValidProofOutputs current) < 2 ^ 128 →
  rhp.validateStdRevision current revision = Return nil
  ↔ std_rules current revision.
Proof.
  intros Hcurrent Hrevision Hfit. split.
  - apply std_rules_sound.
  - by apply std_rules_complete.
Qed.

Lemma validateStdRevision_iff_witness :
  well_formed_outputs paid_current ∧ well_formed_outputs paid_proposed
  ∧ total (ValidProofOutputs paid_current) < 2 ^ 128
  ∧ (rhp.validateStdRevision (H := example_hasher) paid_current paid_proposed
       = Return nil
     ↔ std_rules (H := example_hasher) paid_current paid_proposed).
Proof.
  assert (Hc : well_formed_outputs paid_current)
    by (split; repeat constructor; vm_compute; done).
  assert (Hp : well_formed_outputs paid_proposed)
    by (split; repeat constructor; vm_compute; done).
  assert (Hfit : total (ValidProofOutputs paid_current) < 2 ^ 128)
    by (vm_compute; done).
  split; [exact Hc|]. split; [exact Hp|]. split; [exact Hfit|].
  exact (validateStdRevision_iff (H := example_hasher)
           paid_current paid_proposed Hc Hp Hfit).
Defined.

(** X2.  [ValidateProgramRevision] accepts exactly when
    [validateStdRevision] accepts, [storage + collateral] fits 128 bits
    and does not exceed the current host missed output (index 1), and the
    proposed host missed output is at least the current one less
    [storage + collateral]: the host burns at most the expected amount. *)
Theorem ValidateProgramRevision_iff `{UnlockHasher}
    (current revision : FileContractRevision) (storage collateral : Currency) :
  rhp.ValidateProgramRevision current revision storage collateral = Return nil
  ↔ rhp.validateStdRevision current revision = Return nil
    ∧ ∃ hostMissed hostMissed',
        value_at (MissedProofOutputs current) 1 = Some hostMissed
        ∧ value_at (MissedProofOutputs revision) 1 = Some hostMissed'
        ∧ storage + collateral < 2 ^ 128
        ∧ storage + collateral ≤ hostMissed
        ∧ hostMissed - (storage + collateral) ≤ hostMissed'.
Proof.
  unfold rhp.ValidateProgramRevision. split.
  - intros Hrun.
    apply bind_Return in Hrun as ([e|] & Hstd & Hrun); [done|].
    split; [done|].
    apply bind_Return in Hrun as (burn & [-> Hfit]%Currency_Add_Return & Hrun).
    apply bind_Return in Hrun as (host & Hhost%index_Return & Hrun).
    case_bool_decide as Hburn; [done|]. rewrite Currency_Cmp_gt in Hburn.
    apply bind_Return in Hrun as (host' & Hhost'%index_Return & Hrun).
    apply bind_Return in Hrun as (top & [-> _]%Currency_Sub_Return & Hrun).
    apply bind_Return in Hrun as (m & Hm%index_Return & Hrun).
    case_bool_decide as Hlow; [done|]. rewrite Currency_Cmp_lt in Hlow.
    simplify_eq.
    exists (Value host), (Value m). rewrite !value_at_Some.
    repeat split; eauto; lia.
  - intros (Hstd & hm & hm' & (host & Hhost & <-)%value_at_Some
            & (m & Hm & <-)%value_at_Some & Hfit & Hburn & Hlow).
    apply index_Return in Hhost, Hm.
    rewrite Hstd. cbn [mbind exec_bind].
    unfold Currency_Add. rewrite decide_True by done. cbn [mbind exec_bind].
    rewrite Hhost. cbn [mbind exec_bind].
    rewrite bool_decide_eq_false_2 by (rewrite Currency_Cmp_gt; lia).
    unfold Currency_Sub. rewrite decide_True by done. cbn [mbind exec_bind].
    rewrite Hm. cbn [mbind exec_bind].
    by rewrite bool_decide_eq_false_2 by (rewrite Currency_Cmp_lt; lia).
Qed.

(** X3.  [ValidateRevision] accepts exactly when [validateStdRevision]
    accepts, the payment does not exceed the current renter valid and
    missed outputs, the collateral does not exceed the current host
    missed output, the proposed host valid output is at least the current
    one plus the payment (a sum that fits 128 bits), and the proposed
    host missed output is at most the current one less the collateral. *)
Theorem ValidateRevision_iff `{UnlockHasher}
    (current revision : FileContractRevision) (payment collateral : Currency) :
  rhp.ValidateRevision current revision payment collateral = Return nil
  ↔ rhp.validateStdRevision current revision = Return nil
    ∧ ∃ renterValid renterMissed hostValid hostMissed hostValid' hostMissed',
        value_at (ValidProofOutputs current) 0 = Some renterValid
        ∧ value_at (MissedProofOutputs current) 0 = Some renterMissed
        ∧ value_at (ValidProofOutputs current) 1 = Some hostValid
        ∧ value_at (MissedProofOutputs current) 1 = Some hostMissed
        ∧ value_at (ValidProofOutputs revision) 1 = Some hostValid'
        ∧ value_at (MissedProofOutputs revision) 1 = Some hostMissed'
        ∧ payment ≤ renterValid ∧ payment ≤ renterMissed
        ∧ collateral ≤ hostMissed
        ∧ hostValid + payment < 2 ^ 128
        ∧ hostValid + payment ≤ hostValid'
        ∧ hostMissed' ≤ hostMissed - collateral.
Proof.
  unfold rhp.ValidateRevision. split.
  - intros Hrun.
    apply bind_Return in Hrun as ([e|] & Hstd & Hrun); [done|].
    split; [done|].
    apply bind_Return in Hrun as ([e|] & Hlow & Hrun); [done|].
    apply switch_nil in Hlow. exec_inv.
    case_bool_decide as Hleast; [done|]. rewrite Currency_Cmp_lt in Hleast.
    exec_inv.
    case_bool_decide as Hmost; [done|]. rewrite Currency_Cmp_gt in Hmost.
    simplify_eq.
    do 6 eexists. rewrite !value_at_Some.
    repeat split; try (eexists; split; [eassumption|reflexivity]); lia.
  - intros (Hstd & rv & rm & hv & hm & hv' & hm'
            & (orv & Horv & <-)%value_at_Some & (orm & Horm & <-)%value_at_Some
            & (ohv & Hohv & <-)%value_at_Some & (ohm & Hohm & <-)%value_at_Some
            & (ov & Hov & <-)%value_at_Some & (om & Hom & <-)%value_at_Some
            & ? & ? & ? & ? & ? & ?).
    apply index_Return in Horv, Horm, Hohv, Hohm, Hov, Hom.
    rewrite Hstd. cbn [mbind exec_bind].
    apply bind_Return. exists None. split.
    { apply switch_nil. repeat constructor; simpl.
      all: rewrite ?Horv, ?Horm, ?Hohm; simpl.
      all: f_equal; apply bool_decide_eq_false_2; rewrite Currency_Cmp_lt; lia. }
    cbv beta iota. rewrite Hohv. cbn [mbind exec_bind].
    unfold Currency_Add. rewrite decide_True by done. cbn [mbind exec_bind].
    rewrite Hohm. cbn [mbind exec_bind].
    unfold Currency_Sub. rewrite decide_True by done. cbn [mbind exec_bind].
    rewrite Hov. cbn [mbind exec_bind].
    rewrite bool_decide_eq_false_2 by (rewrite Currency_Cmp_lt; lia).
    rewrite Hom. cbn [mbind exec_bind].
    by rewrite bool_decide_eq_false_2 by (rewrite Currency_Cmp_gt; lia).
Qed.

(** ** Contract formation *)

(** X4.  [ValidateContractFormation] accepts exactly the contracts that
    are empty (no data, revision number 0, zero Merkle root), whose proof
    window starts between [currentHeight + WindowSize] and
    [currentHeight + MaxDuration] (64-bit sums) and lasts at least
    [WindowSize], that have exactly two valid and three missed outputs,
    whose host outputs (index 1) pay the host's address one and the same
    amount between the contract price and the maximum collateral, and
    whose unlock hash is that of the two-of-two conditions of the renter
    and host keys. *)
Theorem ValidateContractFormation_iff `{UnlockHasher} (fc : FileContract)
    (hostKey renterKey : UnlockKey) (currentHeight : Z)
    (settings : rhpv2.HostSettings) :
  rhp.ValidateContractFormation fc hostKey renterKey currentHeight settings
    = Return nil
  ↔ Filesize fc = 0
    ∧ RevisionNumber fc = 0
    ∧ FileMerkleRoot fc = zero_Hash256
    ∧ uint64_add currentHeight (rhpv2.WindowSize settings) ≤ WindowStart fc
    ∧ WindowStart fc ≤ uint64_add currentHeight (rhpv2.MaxDuration settings)
    ∧ uint64_add (WindowStart fc) (rhpv2.WindowSize settings) ≤ WindowEnd fc
    ∧ (∃ renter host renterMissed hostMissed void,
         ValidProofOutputs fc = [renter; host]
         ∧ MissedProofOutputs fc = [renterMissed; hostMissed; void]
         ∧ Address host = rhpv2.Address settings
         ∧ Address hostMissed = rhpv2.Address settings
         ∧ rhpv2.ContractPrice settings ≤ Value host
         ∧ Value host = Value hostMissed
         ∧ Value host ≤ rhpv2.MaxCollateral settings)
    ∧ UnlockHash fc
      = UnlockConditions_UnlockHash
          (rhp.contractUnlockConditions hostKey renterKey).
Proof.
  unfold rhp.ValidateContractFormation. rewrite switch_nil. split.
  - intros Hrun. exec_inv.
    destruct (ValidProofOutputs fc) as [|renter [|host [|]]]; try done.
    destruct (MissedProofOutputs fc) as [|renterMissed [|hostMissed [|void [|]]]];
      try done.
    simpl in *. simplify_eq.
    repeat split; try done; try lia.
    do 5 eexists. repeat split; try done; lia.
  - intros (? & ? & ? & ? & ? & ?
            & (renter & host & renterMissed & hostMissed & void
               & -> & -> & ? & ? & ? & ? & ?) & ?).
    repeat constructor; simpl; f_equal; apply bool_decide_eq_false_2.
    all: rewrite ?Currency_Cmp_lt, ?Currency_Cmp_gt; try lia.
    all: try (intros Hne; apply Hne; try done).
    by apply Currency_Cmp_eq.
Qed.

(** X5.  [ValidateContractFormation] never panics: the number of valid
    and of missed outputs is checked before any output is read, and no
    amount is added or subtracted. *)
Theorem ValidateContractFormation_never_panics `{UnlockHasher}
    (fc : FileContract) (hostKey renterKey : UnlockKey) (currentHeight : Z)
    (settings : rhpv2.HostSettings) :
  ∃ result,
    rhp.ValidateContractFormation fc hostKey renterKey currentHeight settings
    = Return result.
Proof.
  unfold rhp.ValidateContractFormation.
  destruct (ValidProofOutputs fc) as [|renter [|host [|]]];
    destruct (MissedProofOutputs fc)
      as [|renterMissed [|hostMissed [|void [|]]]];
    cbn [switch mbind exec_bind index lookup list_lookup length];
    repeat (case_bool_decide; [by eexists|]).
  all: try (exfalso; simpl in *; lia).
  by eexists.
Qed.

(** ** Contract renewal *)

Section renewal_rules.
Context `{UnlockHasher}.

(** The first seven cases of the renewal switch fall through exactly
    when the header rules hold. *)
Lemma renewal_header_falls_through existing renewal currentHeight settings
    (rest : list (exec bool * error)) :
  renewal_header_rules existing renewal currentHeight settings →
  switch
    ((Return (bool_decide (RevisionNumber renewal ≠ 0)),
        errors_New "revision number must be zero")
     :: (Return (bool_decide (Filesize renewal ≠ Filesize existing)),
           errors_New "filesize must not change")
     :: (Return (bool_decide (FileMerkleRoot renewal ≠ FileMerkleRoot existing)),
           errors_New "file Merkle root must not change")
     :: (Return (bool_decide (WindowEnd renewal < WindowEnd existing)),
           errors_New "renewal window must not end before current window")
     :: (Return (bool_decide (WindowStart renewal
                   < uint64_add currentHeight (rhpv2.WindowSize settings))),
           errors_New "contract ends too soon to safely submit the contract transaction")
     :: (Return (bool_decide (WindowStart renewal
                   > uint64_add currentHeight (rhpv2.MaxDuration settings))),
           errors_New "contract duration is too long")
     :: (Return (bool_decide (WindowEnd renewal
                   < uint64_add (WindowStart renewal) (rhpv2.WindowSize settings))),
           errors_New "proof window is too small")
     :: rest)
  = switch rest.
Proof.
  intros (Hnum & Hsize & Hroot & Hend & Hsoon & Hlong & Hwindow).
  cbn [switch mbind exec_bind].
  rewrite !(bool_decide_eq_false_2 (_ ≠ _)) by (intros Hne; by apply Hne).
  rewrite !(bool_decide_eq_false_2 (_ < _)) by lia.
  by rewrite !(bool_decide_eq_false_2 (_ > _)) by lia.
Qed.

End renewal_rules.

(** X6.  [ValidateContractRenewal] accepts exactly when the header rules
    hold, the renewal has a host valid output (index 1), a host missed
    output (index 1) and a void output (missed, index 2), the host valid
    output pays the host's address, covers the renter's cost and the
    host's burn, exceeds the renter's cost by at most the maximum
    collateral and does not exceed the host missed output, the void
    output is at least the host's burn, and the unlock hash is that of
    the two-of-two conditions of the renter and host keys. *)
Theorem ValidateContractRenewal_iff `{UnlockHasher}
    (existing : FileContractRevision) (renewal : FileContract)
    (hostKey renterKey : UnlockKey) (renterCost hostBurn : Currency)
    (currentHeight : Z) (settings : rhpv2.HostSettings) :
  rhp.ValidateContractRenewal existing renewal hostKey renterKey renterCost
    hostBurn currentHeight settings = Return nil
  ↔ renewal_header_rules existing renewal currentHeight settings
    ∧ (∃ host hostMissed void,
         ValidProofOutputs renewal !! 1%nat = Some host
         ∧ MissedProofOutputs renewal !! 1%nat = Some hostMissed
         ∧ MissedProofOutputs renewal !! 2%nat = Some void
         ∧ Address host = rhpv2.Address settings
         ∧ renterCost ≤ Value host
         ∧ hostBurn ≤ Value host
         ∧ Value host - renterCost ≤ rhpv2.MaxCollateral settings
         ∧ Value host ≤ Value hostMissed
         ∧ Value host - hostBurn ≤ Value hostMissed
         ∧ renterCost ≤ Value hostMissed
         ∧ hostBurn ≤ Value void)
    ∧ UnlockHash renewal
      = UnlockConditions_UnlockHash
          (rhp.contractUnlockConditions hostKey renterKey).
Proof.
  unfold rhp.ValidateContractRenewal. split.
  - intros Hrun. apply switch_nil in Hrun. exec_inv. simplify_eq.
    split; [unfold renewal_header_rules; repeat split; try done; lia|].
    split; [|done].
    do 3 eexists. repeat split; try eassumption; lia.
  - intros (Hheader & (host & hostMissed & void & Hv & Hm & Hb & Haddr
                       & ? & ? & ? & ? & ? & ? & ?) & Hhash).
    rewrite (renewal_header_falls_through _ _ _ _ _ Hheader).
    apply index_Return in Hv, Hm, Hb.
    apply switch_nil. repeat constructor; simpl.
    all: rewrite ?Hv, ?Hm, ?Hb; simpl.
    all: unfold Currency_Sub; rewrite ?decide_True by lia; simpl.
    all: f_equal; apply bool_decide_eq_false_2.
    all: rewrite ?Currency_Cmp_lt, ?Currency_Cmp_gt; try lia.
    all: intros Hne; by apply Hne.
Qed.

(** X7.  Unlike contract formation, renewal does not check the number of
    outputs: a renewal that satisfies the header rules and has fewer than
    two valid outputs makes [ValidateContractRenewal] panic with an index
    out of range. *)
Theorem ValidateContractRenewal_index_out_of_range `{UnlockHasher}
    (existing : FileContractRevision) (renewal : FileContract)
    (hostKey renterKey : UnlockKey) (renterCost hostBurn : Currency)
    (currentHeight : Z) (settings : rhpv2.HostSettings) :
  renewal_header_rules existing renewal currentHeight settings →
  (length (ValidProofOutputs renewal) < 2)%nat →
  rhp.ValidateContractRenewal existing renewal hostKey renterKey renterCost
    hostBurn currentHeight settings = Panic index_out_of_range.
Proof.
  intros Hheader Hlen. unfold rhp.ValidateContractRenewal.
  rewrite (renewal_header_falls_through _ _ _ _ _ Hheader).
  assert (Hpanic : index (ValidProofOutputs renewal) 1
                   = Panic index_out_of_range)
    by (unfold index; by rewrite lookup_ge_None_2 by lia).
  cbn [switch]. by rewrite Hpanic.
Qed.

Lemma ValidateContractRenewal_index_out_of_range_witness :
  rhp.ValidateContractRenewal (H := example_hasher) paid_current
    (renewal_with (H := example_hasher) [output 60 renter_address]
       [output 50 renter_address; output 20 host_address;
        output 0 void_address])
    host_key renter_key 5 10 250 renewal_settings
  = Panic index_out_of_range.
Proof.
  apply (ValidateContractRenewal_index_out_of_range (H := example_hasher)).
  - unfold renewal_header_rules. vm_compute. repeat split; congruence.
  - simpl. lia.
Defined.

(** X8.  The subtraction [ValidProofOutputs[1].Value.Sub(hostBurn)] of
    the last-but-one case is not guarded: a renewal that passes every
    earlier case while the host's burn exceeds the host valid output
    makes [ValidateContractRenewal] panic with an underflow. *)
Theorem ValidateContractRenewal_underflow `{UnlockHasher}
    (existing : FileContractRevision) (renewal : FileContract)
    (hostKey renterKey : UnlockKey) (renterCost hostBurn : Currency)
    (currentHeight : Z) (settings : rhpv2.HostSettings)
    (host hostMissed void : SiacoinOutput) :
  renewal_header_rules existing renewal currentHeight settings →
  ValidProofOutputs renewal !! 1%nat = Some host →
  MissedProofOutputs renewal !! 1%nat = Some hostMissed →
  MissedProofOutputs renewal !! 2%nat = Some void →
  Address host = rhpv2.Address settings →
  renterCost ≤ Value host →
  Value host - renterCost ≤ rhpv2.MaxCollateral settings →
  Value host ≤ Value hostMissed →
  hostBurn ≤ Value void →
  Value host < hostBurn →
  rhp.ValidateContractRenewal existing renewal hostKey renterKey renterCost
    hostBurn currentHeight settings = Panic currency_underflow.
Proof.
  intros Hheader Hv%index_Return Hm%index_Return Hb%index_Return
    Haddr Hcost Hmax Hle Hvoid Hburn.
  unfold rhp.ValidateContractRenewal.
  rewrite (renewal_header_falls_through _ _ _ _ _ Hheader).
  cbn [switch]. rewrite Hv, Hm, Hb. cbn [mbind exec_bind].
  rewrite (bool_decide_eq_false_2 (_ ≠ _)) by (intros Hne; by apply Hne).
  assert (Hsub : Currency_Sub (Value host) renterCost
                 = Return (Value host - renterCost))
    by (unfold Currency_Sub; by rewrite decide_True by lia).
  assert (Hunder : Currency_Sub (Value host) hostBurn
                   = Panic currency_underflow)
    by (unfold Currency_Sub; by rewrite decide_False by lia).
  rewrite Hsub, Hunder. cbn [mbind exec_bind].
  rewrite (bool_decide_eq_false_2 (Currency_Cmp (Value host) renterCost < 0))
    by (rewrite Currency_Cmp_lt; lia).
  rewrite (bool_decide_eq_false_2 (Currency_Cmp (Value hostMissed) renterCost < 0))
    by (rewrite Currency_Cmp_lt; lia).
  rewrite (bool_decide_eq_false_2 (Currency_Cmp _ _ > 0))
    by (rewrite Currency_Cmp_gt; lia).
  rewrite (bool_decide_eq_false_2 (Currency_Cmp (Value hostMissed) (Value host) < 0))
    by (rewrite Currency_Cmp_lt; lia).
  by rewrite (bool_decide_eq_false_2 (Currency_Cmp (Value void) hostBurn < 0))
    by (rewrite Currency_Cmp_lt; lia).
Qed.

Lemma ValidateContractRenewal_underflow_witness :
  rhp.ValidateContractRenewal (H := example_hasher) paid_current
    (renewal_with (H := example_hasher)
       [output 60 renter_address; output 10 host_address]
       [output 50 renter_address; output 20 host_address;
        output 30 void_address])
    host_key renter_key 5 30 250 renewal_settings
  = Panic currency_underflow.
Proof.
  apply (ValidateContractRenewal_underflow (H := example_hasher) _ _ _ _ _ _ _ _
           (output 10 host_address) (output 20 host_address)
           (output 30 void_address)).
  - unfold renewal_header_rules. vm_compute. repeat split; congruence.
  - reflexivity.
  - reflexivity.
  - reflexivity.
  - reflexivity.
  - simpl. lia.
  - simpl. lia.
  - simpl. lia.
  - simpl. lia.
  - simpl. lia.
Defined.

(** ** Payments that exceed the renter's balance *)

Section balances.
Context `{UnlockHasher}.

(** The first two outputs of a list of 128-bit outputs add up to at most
    its total. *)
Lemma first_two_le_total (outputs : list SiacoinOutput) (a b : SiacoinOutput) :
  Forall (λ o, is_currency (Value o)) outputs →
  outputs !! 0%nat = Some a → outputs !! 1%nat = Some b →
  Value a + Value b ≤ total outputs.
Proof.
  destruct outputs as [|a' [|b' rest]]; try done.
  intros Hwf [= ->] [= ->].
  apply Forall_cons in Hwf as [_ Hwf]. apply Forall_cons in Hwf as [_ Hrest].
  apply total_nonneg in Hrest. unfold total in *. simpl. lia.
Qed.

End balances.

(** X9.  [ValidatePaymentRevision] subtracts the payment from the current
    renter valid output before comparing: when the proposal passes
    [validateStdRevision] and the payment exceeds that output, the
    validator panics with an underflow instead of returning an error. *)
Theorem ValidatePaymentRevision_overpayment_panics `{UnlockHasher}
    (current revision : FileContractRevision) (payment renterValid : Currency) :
  rhp.validateStdRevision current revision = Return nil →
  value_at (ValidProofOutputs current) 0 = Some renterValid →
  renterValid < payment →
  rhp.ValidatePaymentRevision current revision payment
  = Panic currency_underflow.
Proof.
  intros Hstd (c & Hc & <-)%value_at_Some Hover.
  destruct (validateStdRevision_accepts _ _ Hstd)
    as (_ & _ & _ & _ & _ & _ & _ & _ & _ & (r & c' & Hr & Hc' & _) & _).
  unfold rhp.ValidatePaymentRevision. rewrite Hstd.
  apply index_Return in Hr, Hc.
  assert (Hunder : Currency_Sub (Value c) payment = Panic currency_underflow)
    by (unfold Currency_Sub; by rewrite decide_False by lia).
  cbn [mbind exec_bind switch]. rewrite Hr, Hc. cbn [mbind exec_bind].
  by rewrite Hunder.
Qed.

Lemma ValidatePaymentRevision_overpayment_panics_witness :
  rhp.ValidatePaymentRevision (H := example_hasher) paid_current paid_proposed 11
  = Panic currency_underflow.
Proof.
  apply (ValidatePaymentRevision_overpayment_panics (H := example_hasher)
           paid_current paid_proposed 11 10).
  - vm_compute. reflexivity.
  - reflexivity.
  - lia.
Defined.

(** X10.  [ValidateRevision] compares before it subtracts or adds: on a
    current revision with at least two valid and two missed outputs,
    whose valid outputs are 128-bit amounts with a total below 2^128, it
    returns (an error or nil) whenever [validateStdRevision] returns, for
    every payment and collateral. *)
Theorem ValidateRevision_returns `{UnlockHasher}
    (current revision : FileContractRevision) (payment collateral : Currency) :
  Forall (λ o, is_currency (Value o)) (ValidProofOutputs current) →
  total (ValidProofOutputs current) < 2 ^ 128 →
  (2 ≤ length (ValidProofOutputs current))%nat →
  (2 ≤ length (MissedProofOutputs current))%nat →
  (∃ std, rhp.validateStdRevision current revision = Return std) →
  ∃ result,
    rhp.ValidateRevision current revision payment collateral = Return result.
Proof.
  intros Hwf Hfit Hlv Hlm [[e|] Hstd]; unfold rhp.ValidateRevision;
    rewrite Hstd; cbn [mbind exec_bind]; [by eexists|].
  destruct (validateStdRevision_accepts _ _ Hstd)
    as (_ & _ & _ & _ & _ & _ & _ & Hlv' & Hlm'
        & (rv' & rv & _ & Hrv & _) & (rm' & rm & _ & Hrm & _)).
  destruct (lookup_lt_is_Some_2 (ValidProofOutputs current) 1) as [hv Hhv];
    [lia|].
  destruct (lookup_lt_is_Some_2 (MissedProofOutputs current) 1) as [hm Hhm];
    [lia|].
  destruct (lookup_lt_is_Some_2 (ValidProofOutputs revision) 1) as [v Hv];
    [lia|].
  destruct (lookup_lt_is_Some_2 (MissedProofOutputs revision) 1) as [m Hm];
    [lia|].
  pose proof (first_two_le_total _ _ _ Hwf Hrv Hhv) as Hsum.
  apply index_Return in Hrv, Hrm, Hhv, Hhm, Hv, Hm.
  cbn [switch]. rewrite Hrv, Hrm, Hhm, Hhv, Hv, Hm. cbn [mbind exec_bind].
  case_bool_decide as Hpay; [by eexists|]. rewrite Currency_Cmp_lt in Hpay.
  case_bool_decide as Hpay'; [by eexists|].
  case_bool_decide as Hcol; [by eexists|]. rewrite Currency_Cmp_lt in Hcol.
  unfold Currency_Add. rewrite decide_True by lia. cbn [mbind exec_bind].
  unfold Currency_Sub. rewrite decide_True by lia. cbn [mbind exec_bind].
  repeat case_bool_decide; by eexists.
Qed.

Lemma ValidateRevision_returns_witness :
  ∃ result,
    rhp.ValidateRevision (H := example_hasher) paid_current paid_proposed 11 0
    = Return result.
Proof.
  apply (ValidateRevision_returns (H := example_hasher)
           paid_current paid_proposed 11 0).
  - repeat constructor; vm_compute; done.
  - vm_compute. done.
  - simpl. lia.
  - simpl. lia.
  - exists nil. vm_compute. reflexivity.
Defined.

(** ** Building revisions: [Revise] and [InitialRevision] *)

Section revise.

(** One iteration writes the old address and the new value at index
    [i]. *)
Lemma reviseBody_step (old : list SiacoinOutput) (values : list Currency)
    (i : nat) (fresh : list SiacoinOutput) (o : SiacoinOutput) (v : Currency) :
  old !! i = Some o → values !! i = Some v → (i < length fresh)%nat →
  rhp.reviseBody old values i fresh = Return (<[i := with_value o v]> fresh).
Proof.
  intros Ho%index_Return Hv%index_Return Hi.
  destruct (lookup_lt_is_Some_2 fresh i Hi) as [e He%index_Return].
  unfold rhp.reviseBody. rewrite Ho, He. cbn [mbind exec_bind].
  rewrite Hv. cbn [mbind exec_bind].
  unfold index. rewrite list_lookup_insert_eq by done. cbn [mbind exec_bind].
  by rewrite list_insert_insert_eq.
Qed.

(** The loop of [Revise] from index [i] on: the elements before [i] stay,
    the others pair the old addresses with the new values. *)
Lemma for_loop_reviseBody (old : list SiacoinOutput) (values : list Currency) :
  ∀ n i fresh,
    length old = (i + n)%nat → length values = (i + n)%nat →
    length fresh = (i + n)%nat →
    for_loop i n (rhp.reviseBody old values) fresh
    = Return (take i fresh ++ zip_with with_value (drop i old) (drop i values)).
Proof.
  induction n as [|n IH]; intros i fresh Hold Hvalues Hfresh; simpl.
  - rewrite take_ge, (drop_ge old) by lia. simpl. by rewrite app_nil_r.
  - destruct (lookup_lt_is_Some_2 old i) as [o Ho]; [lia|].
    destruct (lookup_lt_is_Some_2 values i) as [v Hv]; [lia|].
    rewrite (reviseBody_step _ _ _ _ o v) by (done || lia).
    cbn [mbind exec_bind].
    rewrite IH by (rewrite ?length_insert; lia).
    rewrite (take_S_r _ _ (with_value o v))
      by (apply list_lookup_insert_eq; lia).
    rewrite take_insert_ge by done.
    rewrite (drop_S old o i Ho), (drop_S values v i Hv). simpl.
    by rewrite <- app_assoc.
Qed.

Lemma total_zip_with (old : list SiacoinOutput) :
  ∀ values, length values = length old →
    total (zip_with with_value old values) = sum_of values.
Proof.
  induction old as [|o old IH]; intros [|v values] Hlen; try done.
  simpl in *. rewrite IH by lia. done.
Qed.

Lemma Forall_zip_with_value (old : list SiacoinOutput) :
  ∀ values, Forall is_currency values →
    Forall (λ o, is_currency (Value o)) (zip_with with_value old values).
Proof.
  induction old as [|o old IH]; intros values Hvalues; simpl; [done|].
  destruct Hvalues as [|v values Hv Hvalues]; constructor; [done|by apply IH].
Qed.

Lemma Address_zip_with_value (old : list SiacoinOutput) :
  ∀ values, length values = length old →
    Address <$> zip_with with_value old values = Address <$> old.
Proof.
  induction old as [|o old IH]; intros [|v values] Hlen; try done.
  simpl in *. rewrite IH by lia. done.
Qed.

Lemma lookup_zip_with_value (old : list SiacoinOutput) (values : list Currency)
    (o : SiacoinOutput) (v : Currency) (i : nat) :
  old !! i = Some o → values !! i = Some v →
  zip_with with_value old values !! i = Some (with_value o v).
Proof. intros Ho Hv. by rewrite lookup_zip_with, Ho; simpl; rewrite Hv. Qed.

End revise.

(** X11.  [Revise] never panics.  When it is given as many valid and
    missed amounts as the revision has outputs and a greater revision
    number, it returns the revision with that number whose outputs keep
    their addresses, in order, and take the given amounts; every other
    field is unchanged.  Otherwise it returns the zero revision together
    with an error. *)
Theorem Revise_spec (revision : FileContractRevision) (revisionNumber : Z)
    (validOutputs missedOutputs : list Currency) :
  (length validOutputs = length (ValidProofOutputs revision)
   ∧ length missedOutputs = length (MissedProofOutputs revision)
   ∧ RevisionNumber revision < revisionNumber →
   rhp.Revise revision revisionNumber validOutputs missedOutputs
   = Return (revised revision revisionNumber validOutputs missedOutputs, nil))
  ∧ (¬ (length validOutputs = length (ValidProofOutputs revision)
        ∧ length missedOutputs = length (MissedProofOutputs revision)
        ∧ RevisionNumber revision < revisionNumber) →
     ∃ e, rhp.Revise revision revisionNumber validOutputs missedOutputs
          = Return (zero_FileContractRevision, Some e)).
Proof.
  unfold rhp.Revise. split.
  - intros (Hvalid & Hmissed & Hnumber).
    rewrite bool_decide_eq_false_2 by (intros [?|?]; done).
    rewrite bool_decide_eq_false_2 by lia.
    rewrite !for_loop_reviseBody by (rewrite ?length_replicate; lia).
    cbn [mbind exec_bind]. by rewrite !take_0, !drop_0.
  - intros Hnot. case_bool_decide as Hlen; [by eexists|].
    case_bool_decide as Hnumber; [by eexists|].
    exfalso. apply Hnot. repeat split; [| |lia].
    + destruct (decide (length validOutputs
                        = length (ValidProofOutputs revision))); [done|].
      exfalso. apply Hlen. by left.
    + destruct (decide (length missedOutputs
                        = length (MissedProofOutputs revision))); [done|].
      exfalso. apply Hlen. by right.
Qed.

(** X12.  A revision built by [Revise] passes [validateStdRevision]
    against the revision it was built from, provided the caller keeps the
    amounts in balance: all amounts are 128-bit, the new valid and the
    new missed amounts each add up to the total of the old valid outputs
    (itself below 2^128), and the renter's valid and missed amounts
    (index 0) do not increase. *)
Theorem Revise_passes_validateStdRevision `{UnlockHasher}
    (revision revision' : FileContractRevision) (revisionNumber : Z)
    (validOutputs missedOutputs : list Currency) :
  rhp.Revise revision revisionNumber validOutputs missedOutputs
    = Return (revision', nil) →
  well_formed_outputs revision →
  Forall is_currency validOutputs → Forall is_currency missedOutputs →
  total (ValidProofOutputs revision) < 2 ^ 128 →
  sum_of validOutputs = total (ValidProofOutputs revision) →
  sum_of missedOutputs = total (ValidProofOutputs revision) →
  (∃ v c, validOutputs !! 0%nat = Some v
          ∧ value_at (ValidProofOutputs revision) 0 = Some c ∧ v ≤ c) →
  (∃ m c, missedOutputs !! 0%nat = Some m
          ∧ value_at (MissedProofOutputs revision) 0 = Some c ∧ m ≤ c) →
  rhp.validateStdRevision revision revision' = Return nil.
Proof.
  intros Hrun Hwf Hvalid Hmissed Hfit Hsv Hsm
    (v & cv & Hv & (ov & Hov & <-)%value_at_Some & Hlev)
    (m & cm & Hm & (om & Hom & <-)%value_at_Some & Hlem).
  unfold rhp.Revise in Hrun.
  case_bool_decide as Hlen; [done|].
  case_bool_decide as Hnumber; [done|].
  assert (Hlv : length validOutputs = length (ValidProofOutputs revision)).
  { destruct (decide (length validOutputs
                      = length (ValidProofOutputs revision))); [done|].
    exfalso. apply Hlen. by left. }
  assert (Hlm : length missedOutputs = length (MissedProofOutputs revision)).
  { destruct (decide (length missedOutputs
                      = length (MissedProofOutputs revision))); [done|].
    exfalso. apply Hlen. by right. }
  rewrite !for_loop_reviseBody in Hrun by (rewrite ?length_replicate; lia).
  cbn [mbind exec_bind] in Hrun. rewrite !take_0, !drop_0 in Hrun.
  injection Hrun as <-. cbn [app] in *.
  apply std_rules_complete; [done| |done|].
  - split; cbn [Embedded ValidProofOutputs MissedProofOutputs];
      by apply Forall_zip_with_value.
  - unfold std_rules.
    cbn [Embedded ValidProofOutputs MissedProofOutputs UnlockHash
         RevisionUnlockConditions RevisionNumber WindowStart WindowEnd].
    rewrite !total_zip_with by done.
    rewrite !Address_zip_with_value by done.
    repeat split; try done; try lia.
    + exists (with_value ov v), ov.
      repeat split; [by apply lookup_zip_with_value|done|done].
    + exists (with_value om m), om.
      repeat split; [by apply lookup_zip_with_value|done|done].
Qed.

Lemma Revise_passes_validateStdRevision_witness :
  rhp.validateStdRevision (H := example_hasher) paid_current
    (revised paid_current 2 [7; 8] [7; 8; 0]) = Return nil.
Proof.
  apply (Revise_passes_validateStdRevision (H := example_hasher)
           paid_current _ 2 [7; 8] [7; 8; 0]).
  - vm_compute. reflexivity.
  - split; repeat constructor; vm_compute; done.
  - repeat constructor; vm_compute; done.
  - repeat constructor; vm_compute; done.
  - vm_compute. done.
  - reflexivity.
  - reflexivity.
  - exists 7, 10. repeat split. lia.
  - exists 7, 10. repeat split. lia.
Defined.

(** X13.  The first revision of a contract that passed
    [ValidateContractFormation]: when the contract is the first of the
    formation transaction and the same keys are used, [InitialRevision]
    returns a revision of that contract with number 1 whose unlock
    conditions hash to the contract's unlock hash; it carries the
    contract's two valid and three missed outputs, no data, and a zero
    [Payout]. *)
Theorem InitialRevision_of_formation `{UnlockHasher} `{ContractIDHasher}
    (formationTxn : Transaction) (fc : FileContract)
    (hostKey renterKey : UnlockKey) (currentHeight : Z)
    (settings : rhpv2.HostSettings) :
  FileContracts formationTxn !! 0%nat = Some fc →
  rhp.ValidateContractFormation fc hostKey renterKey currentHeight settings
    = Return nil →
  ∃ initial,
    rhp.InitialRevision formationTxn hostKey renterKey = Return initial
    ∧ ParentID initial = Transaction_FileContractID formationTxn 0
    ∧ UnlockConditions_UnlockHash (RevisionUnlockConditions initial)
      = UnlockHash initial
    ∧ RevisionNumber initial = 1
    ∧ Filesize initial = 0
    ∧ Payout initial = 0
    ∧ ValidProofOutputs initial = ValidProofOutputs fc
    ∧ MissedProofOutputs initial = MissedProofOutputs fc
    ∧ length (ValidProofOutputs initial) = 2%nat
    ∧ length (MissedProofOutputs initial) = 3%nat.
Proof.
  intros Hfc Hrun.
  unfold rhp.ValidateContractFormation in Hrun.
  apply switch_nil in Hrun. exec_inv.
  apply index_Return in Hfc.
  unfold rhp.InitialRevision. rewrite Hfc. cbn [mbind exec_bind].
  eexists. split; [done|]. simpl. repeat split; done.
Qed.

Lemma InitialRevision_of_formation_witness :
  ∃ initial,
    rhp.InitialRevision (H0 := example_contract_id) formation_txn
      host_key renter_key
    = Return initial
    ∧ RevisionNumber initial = 1
    ∧ Payout initial = 0.
Proof.
  destruct (InitialRevision_of_formation (H := example_hasher)
              (H0 := example_contract_id) formation_txn formed_contract
              host_key renter_key 250 renewal_settings)
    as (initial & Hrun & _ & _ & Hnumber & _ & Hpayout & _).
  - reflexivity.
  - vm_compute. reflexivity.
  - exists initial. by repeat split.
Defined.

(** ** Storage proofs *)

Section storage_proofs.
Context `{blake2b.Digest}.

(** The reduction loop keeps its remainder below the number of
    segments. *)
Lemma for_loop_reduceBody_in_range (seed : list byte) (numSegments : Z) :
  length seed = 32%nat →
  ∀ n i r, (i + n ≤ 4)%nat → 0 ≤ r < numSegments →
    ∃ r', for_loop i n (contracts.reduceBody seed numSegments) r = Return r'
          ∧ 0 ≤ r' < numSegments.
Proof.
  intros Hlen. induction n as [|n IH]; intros i r Hi Hr; simpl.
  - by exists r.
  - rewrite reduceBody_step by (done || lia). cbn [mbind exec_bind].
    apply IH; [lia|]. apply Z.mod_pos_bound. lia.
Qed.

(** The selected segment of a non-empty file lies within the file. *)
Lemma storageProofSegment_in_range (bid fcid : Hash256) (filesize : Z) :
  is_uint64 filesize → filesize ≠ 0 →
  ∃ segment,
    contracts.storageProofSegment bid fcid filesize = Return segment
    ∧ 0 ≤ segment < ceil_div filesize merkle.LeafSize.
Proof.
  intros [Hlo Hhi] Hsize. unfold contracts.storageProofSegment.
  rewrite bool_decide_eq_false_2 by done.
  destruct (numSegments_ceil_div filesize) as [-> Hpos]; [lia|].
  apply for_loop_reduceBody_in_range; [apply blake2b.Sum256_length|lia|lia].
Qed.

(** A leaf of a full sector can be sliced out and fills the 64-byte
    segment of the proof. *)
Lemma slice_from_leaf (sector : list byte) (segmentIndex : Z) :
  Z.of_nat (length sector) = merkle.LeavesPerSector * merkle.LeafSize →
  0 ≤ segmentIndex < merkle.LeavesPerSector →
  slice_from sector (Z.to_nat ((segmentIndex * merkle.LeafSize) mod 2 ^ 64))
  = Return (drop (Z.to_nat (segmentIndex * merkle.LeafSize)) sector)
  ∧ contracts.copy64 (drop (Z.to_nat (segmentIndex * merkle.LeafSize)) sector)
    = take 64 (drop (Z.to_nat (segmentIndex * merkle.LeafSize)) sector)
  ∧ length (take 64 (drop (Z.to_nat (segmentIndex * merkle.LeafSize)) sector))
    = 64%nat.
Proof.
  unfold merkle.LeavesPerSector, merkle.LeafSize. intros Hlen Hsegment.
  rewrite Z.mod_small by (change (2 ^ 64) with 18446744073709551616; lia).
  assert (Hleaf : length (take 64 (drop (Z.to_nat (segmentIndex * 64)) sector))
                  = 64%nat)
    by (rewrite length_take, length_drop; lia).
  repeat split; [|
    |done].
  - unfold slice_from. by rewrite decide_True by lia.
  - unfold contracts.copy64. rewrite Hleaf.
    by rewrite Nat.sub_diag, app_nil_r.
Qed.

End storage_proofs.

(** X14.  For a 64-bit segment index whose sector has a root and can be
    read in full (4 MiB), [buildStorageProof] returns, without error, the
    proof for the contract whose segment is the 64 bytes of leaf
    [index mod 65536] of sector [index / 65536], and whose hash set is
    the leaf's proof within the sector followed by the sector's proof
    within the roots. *)
Theorem buildStorageProof_segment `{merkle.Prover}
    (cm : contracts.ContractManager) (id : Hash256) (index : Z)
    (roots : list Hash256) (root : Hash256) (sector : list byte) :
  is_uint64 index →
  contracts.SectorRoots cm id 0 0 = inr roots →
  roots !! Z.to_nat (index / merkle.LeavesPerSector) = Some root →
  contracts.storage_Read cm root = inr sector →
  Z.of_nat (length sector) = merkle.LeavesPerSector * merkle.LeafSize →
  ∃ proof,
    contracts.buildStorageProof cm id index = Return (proof, nil)
    ∧ stypes.ParentID proof = id
    ∧ stypes.Segment proof
      = take 64 (drop (Z.to_nat (index mod merkle.LeavesPerSector
                                  * merkle.LeafSize)) sector)
    ∧ length (stypes.Segment proof) = 64%nat
    ∧ stypes.HashSet proof
      = merkle.ConvertProofOrdering
          (merkle.BuildProof sector (index mod merkle.LeavesPerSector)
             (index mod merkle.LeavesPerSector + 1))
          (index mod merkle.LeavesPerSector)
        ++ merkle.ConvertProofOrdering
             (merkle.BuildSectorRangeProof roots
                (index / merkle.LeavesPerSector)
                (index / merkle.LeavesPerSector + 1))
             (index / merkle.LeavesPerSector).
Proof.
  intros [Hlo Hhi] Hroots Hroot%index_Return Hread Hlen.
  assert (Hsegment : 0 ≤ index mod merkle.LeavesPerSector
                     < merkle.LeavesPerSector)
    by (by apply Z.mod_pos_bound).
  destruct (slice_from_leaf sector _ Hlen Hsegment) as (Hslice & Hcopy & Hleaf).
  unfold contracts.buildStorageProof. rewrite Hroots, Hroot.
  cbn [mbind exec_bind]. rewrite Hread, Hslice. cbn [mbind exec_bind].
  eexists. split; [done|]. cbn [stypes.ParentID stypes.Segment stypes.HashSet].
  rewrite Hcopy. repeat split; [done|].
  unfold uint64_add, MaxUint64, merkle.LeavesPerSector in *.
  change (2 ^ 64) with 18446744073709551616 in *.
  rewrite (Z.mod_small (index mod 65536 + 1))
    by (Z.to_euclidean_division_equations; lia).
  by rewrite (Z.mod_small (index / 65536 + 1))
    by (Z.to_euclidean_division_equations; lia).
Qed.

Lemma buildStorageProof_segment_witness :
  ∃ proof,
    contracts.buildStorageProof (H := example_prover) one_sector_manager
      (address_of x09) 65535 = Return (proof, nil)
    ∧ stypes.ParentID proof = address_of x09
    ∧ length (stypes.Segment proof) = 64%nat.
Proof.
  destruct (buildStorageProof_segment (H := example_prover) one_sector_manager
              (address_of x09) 65535 [address_of x11] (address_of x11)
              zero_sector)
    as (proof & Hrun & Hid & _ & Hleaf & _).
  - unfold is_uint64, MaxUint64. lia.
  - reflexivity.
  - reflexivity.
  - reflexivity.
  - unfold zero_sector, merkle.LeavesPerSector, merkle.LeafSize.
    rewrite length_replicate. lia.
  - exists proof. split; [exact Hrun|]. split; [exact Hid|exact Hleaf].
Defined.

(** X15.  The resolution path of [handleContractAction] selects a
    segment with [storageProofSegment] and proves it with
    [buildStorageProof].  For a non-empty contract whose sector roots
    cover its file size and whose sectors can all be read in full, the
    two calls together return a proof for the contract with a 64-byte
    segment and no error: the selected segment always falls within the
    stored sectors. *)
Theorem storage_proof_of_selected_segment `{blake2b.Digest} `{merkle.Prover}
    (cm : contracts.ContractManager) (bid id : Hash256) (filesize : Z)
    (roots : list Hash256) :
  is_uint64 filesize → filesize ≠ 0 →
  contracts.SectorRoots cm id 0 0 = inr roots →
  filesize
    ≤ Z.of_nat (length roots) * (merkle.LeavesPerSector * merkle.LeafSize) →
  (∀ root, root ∈ roots →
     ∃ sector,
       contracts.storage_Read cm root = inr sector
       ∧ Z.of_nat (length sector) = merkle.LeavesPerSector * merkle.LeafSize) →
  ∃ proof,
    (index ← contracts.storageProofSegment bid id filesize;
     contracts.buildStorageProof cm id index) = Return (proof, nil)
    ∧ stypes.ParentID proof = id
    ∧ length (stypes.Segment proof) = 64%nat.
Proof.
  intros Hsize Hnonempty Hroots Hcover Hread.
  destruct (storageProofSegment_in_range bid id filesize Hsize Hnonempty)
    as (index & -> & Hindex).
  cbn [mbind exec_bind].
  assert (Hsector : 0 ≤ index / merkle.LeavesPerSector
                    < Z.of_nat (length roots)).
  { unfold ceil_div, merkle.LeavesPerSector, merkle.LeafSize in *.
    Z.to_euclidean_division_equations; lia. }
  destruct (lookup_lt_is_Some_2 roots
              (Z.to_nat (index / merkle.LeavesPerSector))) as [root Hroot];
    [lia|].
  destruct (Hread root) as (sector & Hsector_read & Hlen);
    [by eapply list_elem_of_lookup_2|].
  assert (Hsegment : 0 ≤ index mod merkle.LeavesPerSector
                     < merkle.LeavesPerSector)
    by (by apply Z.mod_pos_bound).
  destruct (slice_from_leaf sector _ Hlen Hsegment) as (Hslice & Hcopy & Hleaf).
  apply index_Return in Hroot.
  unfold contracts.buildStorageProof. rewrite Hroots, Hroot.
  cbn [mbind exec_bind]. rewrite Hsector_read, Hslice. cbn [mbind exec_bind].
  eexists. split; [done|]. cbn [stypes.ParentID stypes.Segment].
  by rewrite Hcopy.
Qed.

Lemma storage_proof_of_selected_segment_witness :
  ∃ proof,
    (index ← contracts.storageProofSegment (H := example_digest)
               (address_of xff) (address_of x09) 4194304;
     contracts.buildStorageProof (H := example_prover) one_sector_manager
       (address_of x09) index) = Return (proof, nil)
    ∧ stypes.ParentID proof = address_of x09
    ∧ length (stypes.Segment proof) = 64%nat.
Proof.
  apply (storage_proof_of_selected_segment (H := example_digest)
           (H0 := example_prover) one_sector_manager (address_of xff)
           (address_of x09) 4194304 [address_of x11]).
  - unfold is_uint64, MaxUint64. lia.
  - lia.
  - reflexivity.
  - simpl length. unfold merkle.LeavesPerSector, merkle.LeafSize. lia.
  - intros root _. exists zero_sector. split; [reflexivity|].
    unfold zero_sector, merkle.LeavesPerSector, merkle.LeafSize.
    rewrite length_replicate. lia.
Defined.

(** X16.  A contract without data has file size 0 and no sector roots:
    [storageProofSegment] selects segment 0 and [buildStorageProof] then
    reads [roots[0]] of an empty slice, so the resolution path panics
    with an index out of range instead of returning an error. *)
Theorem storage_proof_of_empty_contract_panics `{blake2b.Digest}
    `{merkle.Prover} (cm : contracts.ContractManager) (bid id : Hash256) :
  contracts.SectorRoots cm id 0 0 = inr [] →
  (index ← contracts.storageProofSegment bid id 0;
   contracts.buildStorageProof cm id index) = Panic index_out_of_range.
Proof.
  intros Hroots. unfold contracts.storageProofSegment.
  rewrite bool_decide_eq_true_2 by done. cbn [mbind exec_bind].
  unfold contracts.buildStorageProof. by rewrite Hroots.
Qed.

Lemma storage_proof_of_empty_contract_panics_witness :
  (index ← contracts.storageProofSegment (H := example_digest)
             (address_of xff) (address_of x09) 0;
   contracts.buildStorageProof (H := example_prover) empty_contract_manager
     (address_of x09) index) = Panic index_out_of_range.
Proof.
  apply (storage_proof_of_empty_contract_panics (H := example_digest)
           (H0 := example_prover) empty_contract_manager).
  reflexivity.
Defined.

(** ** Clearing revisions *)

Section clearing_runs.
Context `{UnlockHasher}.

(** A loop without state returns when each of its iterations does. *)
Lemma for_range_unit_returns (body : nat → unit → exec (error + unit)) :
  ∀ n i,
    (∀ k, (i ≤ k < i + n)%nat → ∃ r, body k () = Return r) →
    ∃ r, for_range i n body () = Return r.
Proof.
  induction n as [|n IH]; intros i Hbody; simpl; [by eexists|].
  destruct (Hbody i) as [[e|[]] ->]; [lia| |]; cbn [mbind exec_bind].
  - by eexists.
  - apply IH. intros k Hk. apply Hbody. lia.
Qed.

(** One iteration of the clearing loop returns when the three outputs it
    reads exist. *)
Lemma clearingBody_returns (current final : FileContractRevision) (i : nat) :
  (i < length (ValidProofOutputs current))%nat →
  (i < length (ValidProofOutputs final))%nat →
  (i < length (MissedProofOutputs final))%nat →
  ∃ r, rhp.clearingBody current final i () = Return r.
Proof.
  intros [c Hc%index_Return]%lookup_lt_is_Some_2
    [v Hv%index_Return]%lookup_lt_is_Some_2
    [m Hm%index_Return]%lookup_lt_is_Some_2.
  unfold rhp.clearingBody. rewrite Hc, Hv, Hm.
  cbn [mbind exec_bind switch].
  repeat (case_bool_decide; [by eexists|]). by eexists.
Qed.

Lemma ValidateRevision_std current revision payment collateral :
  rhp.ValidateRevision current revision payment collateral = Return nil →
  rhp.validateStdRevision current revision = Return nil.
Proof.
  unfold rhp.ValidateRevision. intros Hrun.
  by apply bind_Return in Hrun as ([e|] & Hstd & Hrun).
Qed.

End clearing_runs.

(** X17.  A clearing revision locks the contract.  Once
    [ValidateClearingRevision] has accepted [final], no revision with a
    64-bit revision number is accepted on top of it by
    [validateStdRevision], [ValidatePaymentRevision],
    [ValidateProgramRevision] or [ValidateRevision], and [Revise] refuses
    to build one. *)
Theorem clearing_revision_locks `{UnlockHasher}
    (current final next : FileContractRevision) :
  rhp.ValidateClearingRevision current final = Return nil →
  is_uint64 (RevisionNumber next) →
  rhp.validateStdRevision final next ≠ Return nil
  ∧ (∀ payment, rhp.ValidatePaymentRevision final next payment ≠ Return nil)
  ∧ (∀ storage collateral,
       rhp.ValidateProgramRevision final next storage collateral ≠ Return nil)
  ∧ (∀ payment collateral,
       rhp.ValidateRevision final next payment collateral ≠ Return nil)
  ∧ (∀ validOutputs missedOutputs,
       ∃ e, rhp.Revise final (RevisionNumber next) validOutputs missedOutputs
            = Return (zero_FileContractRevision, Some e)).
Proof.
  intros Hclear [_ Hmax].
  apply ValidateClearingRevision_accepts in Hclear
    as (_ & _ & _ & _ & _ & Hnumber & _).
  assert (Hstd : rhp.validateStdRevision final next ≠ Return nil).
  { intros Hrun. apply validateStdRevision_accepts in Hrun
      as (_ & _ & _ & _ & Hgreater & _).
    unfold MaxRevisionNumber in Hnumber. lia. }
  repeat split.
  - exact Hstd.
  - intros payment Hrun. by apply Hstd, (ValidatePaymentRevision_std _ _ payment).
  - intros storage collateral Hrun.
    by apply Hstd, (ValidateProgramRevision_std _ _ storage collateral).
  - intros payment collateral Hrun.
    by apply Hstd, (ValidateRevision_std _ _ payment collateral).
  - intros validOutputs missedOutputs. unfold rhp.Revise.
    case_bool_decide; [by eexists|].
    rewrite bool_decide_eq_true_2
      by (unfold MaxRevisionNumber in Hnumber; lia).
    by eexists.
Qed.

Lemma clearing_revision_locks_witness :
  rhp.validateStdRevision (H := example_hasher) clearing_final paid_proposed
  ≠ Return nil.
Proof.
  apply (clearing_revision_locks (H := example_hasher)
           paid_current clearing_final paid_proposed).
  - vm_compute. reflexivity.
  - unfold is_uint64, MaxUint64. simpl. lia.
Defined.

(** X18.  [ValidateClearingRevision] returns (an error or nil) whenever
    the final revision has no more valid outputs than the current one:
    the loop then reads only outputs that exist.  (With more valid
    outputs the loop indexes past the end of the current ones.) *)
Theorem ValidateClearingRevision_returns `{UnlockHasher}
    (current final : FileContractRevision) :
  (length (ValidProofOutputs final) ≤ length (ValidProofOutputs current))%nat →
  ∃ result, rhp.ValidateClearingRevision current final = Return result.
Proof.
  intros Hlen. unfold rhp.ValidateClearingRevision.
  cbn [switch mbind exec_bind].
  repeat (case_bool_decide; [by eexists|]).
  destruct (for_range_unit_returns (rhp.clearingBody current final)
              (length (ValidProofOutputs final)) 0) as [[e|[]] ->].
  - intros k Hk. apply clearingBody_returns; lia.
  - by eexists.
  - by eexists.
Qed.

Lemma ValidateClearingRevision_returns_witness :
  ∃ result,
    rhp.ValidateClearingRevision (H := example_hasher) paid_current
      readdressed_final = Return result.
Proof.
  apply (ValidateClearingRevision_returns (H := example_hasher)
           paid_current readdressed_final).
  simpl. lia.
Defined.

(** ** When the standard validator cannot panic *)

Section std_runs.
Context `{UnlockHasher}.

(** An address loop returns, with an error or a sum, when it reads only
    outputs that exist and its sum fits 128 bits. *)
Lemma for_range_addressBody_runs (format : string)
    (proposed current : list SiacoinOutput) :
  Forall (λ o, is_currency (Value o)) proposed →
  ∀ n i acc,
    (i + n ≤ length proposed)%nat → (i + n ≤ length current)%nat →
    0 ≤ acc → acc + total (take n (drop i proposed)) < 2 ^ 128 →
    ∃ r, for_range i n (rhp.addressBody format proposed current) acc
         = Return r.
Proof.
  intros Hwf. induction n as [|n IH]; intros i acc Hp Hc Hacc Hfit; simpl.
  - by eexists.
  - destruct (lookup_lt_is_Some_2 proposed i) as [r Hr]; [lia|].
    destruct (lookup_lt_is_Some_2 current i) as [c Hc']; [lia|].
    pose proof (Forall_lookup_1 _ _ _ _ Hwf Hr) as [Hr0 _].
    rewrite (drop_S _ _ _ Hr) in Hfit. simpl in Hfit.
    assert (Hrest : 0 ≤ total (take n (drop (S i) proposed))).
    { apply total_nonneg. eapply Forall_take, Forall_drop, Hwf. }
    unfold rhp.addressBody, index. rewrite Hr, Hc'. cbn [mbind exec_bind].
    case_bool_decide; cbn [mbind exec_bind]; [by eexists|].
    unfold Currency_Add. rewrite decide_True by lia. cbn [mbind exec_bind].
    apply IH; lia.
Qed.

End std_runs.

(** X19.  [validateStdRevision] returns (an error or nil) instead of
    panicking whenever all output values are 128-bit amounts, the three
    sums it computes fit 128 bits, the proposal has no more valid and no
    more missed outputs than the current revision, and the current
    revision has at least one output of each kind. *)
Theorem validateStdRevision_returns `{UnlockHasher}
    (current revision : FileContractRevision) :
  well_formed_outputs current → well_formed_outputs revision →
  total (ValidProofOutputs current) < 2 ^ 128 →
  total (ValidProofOutputs revision) < 2 ^ 128 →
  total (MissedProofOutputs revision) < 2 ^ 128 →
  (length (ValidProofOutputs revision)
   ≤ length (ValidProofOutputs current))%nat →
  (length (MissedProofOutputs revision)
   ≤ length (MissedProofOutputs current))%nat →
  (0 < length (ValidProofOutputs current))%nat →
  (0 < length (MissedProofOutputs current))%nat →
  ∃ result, rhp.validateStdRevision current revision = Return result.
Proof.
  intros [Hcv _] [Hrv Hrm] Hfit Hfitv Hfitm Hlv Hlm Hv Hm.
  unfold rhp.validateStdRevision.
  rewrite (for_range_sumBody_returns _ Hcv)
    by (rewrite ?drop_0, ?firstn_all; lia).
  cbn [mbind exec_bind].
  destruct (for_range_addressBody_runs
              "valid proof output %v address should not change"
              (ValidProofOutputs revision) (ValidProofOutputs current) Hrv
              (length (ValidProofOutputs revision)) 0 0) as [[e|validPayout] ->];
    [lia|lia|lia|rewrite drop_0, firstn_all; lia|by eexists|].
  cbn [mbind exec_bind].
  destruct (for_range_addressBody_runs
              "missed proof output %v address should not change"
              (MissedProofOutputs revision) (MissedProofOutputs current) Hrm
              (length (MissedProofOutputs revision)) 0 0)
    as [[e|missedPayout] ->];
    [lia|lia|lia|rewrite drop_0, firstn_all; lia|by eexists|].
  cbn [mbind exec_bind switch].
  repeat (case_bool_decide; [by eexists|]).
  destruct (lookup_lt_is_Some_2 (ValidProofOutputs revision) 0)
    as [rv ->%index_Return]; [lia|].
  destruct (lookup_lt_is_Some_2 (ValidProofOutputs current) 0)
    as [cv ->%index_Return]; [lia|].
  destruct (lookup_lt_is_Some_2 (MissedProofOutputs revision) 0)
    as [rm ->%index_Return]; [lia|].
  destruct (lookup_lt_is_Some_2 (MissedProofOutputs current) 0)
    as [cm ->%index_Return]; [lia|].
  cbn [mbind exec_bind].
  repeat (case_bool_decide; [by eexists|]). by eexists.
Qed.

Lemma validateStdRevision_returns_witness :
  ∃ result,
    rhp.validateStdRevision (H := example_hasher) c1_current c1_proposed
    = Return result.
Proof.
  apply (validateStdRevision_returns (H := example_hasher)
           c1_current c1_proposed).
  - split; repeat constructor; vm_compute; done.
  - split; repeat constructor; vm_compute; done.
  - vm_compute. done.
  - vm_compute. done.
  - vm_compute. done.
  - simpl. lia.
  - simpl. lia.
  - simpl. lia.
  - simpl. lia.
Defined.
